(** * skultrafast: the [TwoDim] dataset of [twoD_dataset.py]

    A shallow embedding of the two-dimensional dataset class and of the
    result classes next to it.  Array entries are exact rationals, kept in
    lowest terms by the arithmetic; the per-point errors, which the source
    lets be not-a-number or infinite, are extended rationals.  numpy arrays
    are objects in a store: a field of a dataset holds a reference,
    [copy()] and index-array selection allocate, and an in-place operator
    writes through the reference.  The axes of a dataset are
    one-dimensional arrays, as the class documents them; the numerical
    libraries (lmfit, statsmodels, numpy's polynomial fits) are parameters
    of the model, taken by their contracts. *)

From Stdlib Require Import String Ascii DecimalString.
From Stdlib Require Import List Arith Lia Bool ZArith QArith Qabs Qfield Lqa.
From Stdlib Require Import Permutation Sorted.
Import ListNotations.
Close Scope Q_scope.
Open Scope string_scope.
Open Scope list_scope.
Open Scope nat_scope.

Set Implicit Arguments.

(** ** Exceptions and outcomes *)

Inductive exn : Type :=
| ValueError (msg : string)
| IndexError
| ZeroDivisionError (msg : string)
| FileExistsError
| FileNotFoundError
| NotADirectoryError
| IsADirectoryError.

Inductive outcome (A : Type) : Type :=
| Returns (a : A)
| Raises (e : exn).
Arguments Returns {A} a.
Arguments Raises {A} e.

Definition obind {A B} (o : outcome A) (k : A -> outcome B) : outcome B :=
  match o with
  | Returns a => k a
  | Raises e => Raises e
  end.

Declare Scope outcome_scope.
Delimit Scope outcome_scope with out.
Notation "x <~ c ; k" := (obind c (fun x => k))
  (at level 61, c at next level, right associativity) : outcome_scope.

(** ** numpy arrays: a shape and the entries in row-major order *)

Record ndarray (A : Type) : Type := mkarray {
  shape : list nat;
  data : list A
}.
Arguments mkarray {A} shape data.

Definition prod_dims (s : list nat) : nat := fold_right Nat.mul 1 s.

(** [a.size] *)
Definition size {A} (a : ndarray A) : nat := prod_dims (shape a).

(** The invariant numpy keeps for every array. *)
Definition wf_array {A} (a : ndarray A) : Prop :=
  length (data a) = size a.

(** [np.array(l)] for a flat list. *)
Definition array1 {A} (l : list A) : ndarray A := mkarray [length l] l.

Definition is_1d {A} (a : ndarray A) : Prop := shape a = [length (data a)].

(** The [b]-th run of [inner] consecutive entries. *)
Definition block {A} (inner : nat) (d : list A) (b : nat) : list A :=
  firstn inner (skipn (b * inner) d).

Definition outer_of (ax : nat) (s : list nat) : nat := prod_dims (firstn ax s).
Definition dim_of (ax : nat) (s : list nat) : nat := nth ax s 0.
Definition inner_of (ax : nat) (s : list nat) : nat := prod_dims (skipn (S ax) s).

(** The array [a[:, ..., idx, ...]] when every index is within the axis:
    for each position before the axis, the blocks the indices name. *)
Definition taken {A} (ax : nat) (idx : list nat) (a : ndarray A) : ndarray A :=
  mkarray (firstn ax (shape a) ++ length idx :: skipn (S ax) (shape a))
    (flat_map (fun o =>
       flat_map (fun i => block (inner_of ax (shape a)) (data a)
                                (o * dim_of ax (shape a) + i)) idx)
       (seq 0 (outer_of ax (shape a)))).

(** [a[:, ..., idx, ...]]: an index array [idx] at axis [ax], full slices
    elsewhere.  An index beyond the axis raises. *)
Definition take_axis {A} (ax : nat) (idx : list nat) (a : ndarray A)
  : outcome (ndarray A) :=
  let s := shape a in
  if negb (ax <? length s) then Raises IndexError
  else if negb (forallb (fun i => i <? dim_of ax s) idx) then Raises IndexError
  else Returns (taken ax idx a).

(** [np.nonzero] of a one-dimensional boolean mask. *)
Fixpoint nonzero_from (i : nat) (m : list bool) : list nat :=
  match m with
  | [] => []
  | b :: m' => if b then i :: nonzero_from (S i) m' else nonzero_from (S i) m'
  end.
Definition nonzero (m : list bool) : list nat := nonzero_from 0 m.

(** [a[:, ..., mask, ...]] for a one-dimensional boolean mask: the mask
    must be as long as the axis. *)
Definition compress_axis {A} (ax : nat) (mask : list bool) (a : ndarray A)
  : outcome (ndarray A) :=
  if negb (ax <? length (shape a)) then Raises IndexError
  else if negb (length mask =? dim_of ax (shape a)) then Raises IndexError
  else take_axis ax (nonzero mask) a.

(** [a[:, ..., b, ...]] for a Python [bool] [b] in position [ax] of the index
    tuple: numpy reads it as a zero-dimensional mask, which consumes no axis
    of [a] and adds one of length 1 ([True]) or 0 ([False]). *)
Definition bool_index {A} (ax : nat) (b : bool) (a : ndarray A)
  : outcome (ndarray A) :=
  if negb (ax <=? length (shape a)) then Raises IndexError
  else Returns
    (mkarray (firstn ax (shape a) ++ (if b then 1 else 0) :: skipn ax (shape a))
       (if b then data a else [])).

(** What [select_range] ends up indexing with. *)
Inductive index : Type :=
| ByMask (m : list bool)
| ByBool (b : bool).

Definition index_axis {A} (ax : nat) (i : index) (a : ndarray A)
  : outcome (ndarray A) :=
  match i with
  | ByMask m => compress_axis ax m a
  | ByBool b => bool_index ax b a
  end.

(** [a[i, j, k]] of a three-dimensional array. *)
Definition get3 {A} (d : A) (a : ndarray A) (i j k : nat) : A :=
  nth ((i * dim_of 1 (shape a) + j) * dim_of 2 (shape a) + k) (data a) d.

(** ** [np.argsort] on a one-dimensional array

    A stable insertion sort of the (value, index) pairs.  The default
    sort of [np.argsort] is not stable: where values repeat it may order
    their indices otherwise.  On distinct values the sorting permutation
    is unique, and it is this one. *)

Fixpoint insert_pair (p : Q * nat) (l : list (Q * nat)) : list (Q * nat) :=
  match l with
  | [] => [p]
  | q :: l' => if Qle_bool (fst p) (fst q) then p :: l else q :: insert_pair p l'
  end.

Definition sort_pairs (l : list (Q * nat)) : list (Q * nat) :=
  fold_right insert_pair [] l.

Definition argsort (v : list Q) : list nat :=
  map snd (sort_pairs (combine v (seq 0 (length v)))).

Definition pair_le (p q : Q * nat) : Prop := (fst p <= fst q)%Q.

(** The values in the order [argsort] gives, [v[argsort(v)]]. *)
Definition sorted_values (v : list Q) : list Q :=
  map (fun i => nth i v 0%Q) (argsort v).

(** ** Python's tuple [repr], for the shapes in an error message *)

Definition repr_nat (n : nat) : string := NilZero.string_of_uint (Nat.to_uint n).

Fixpoint join_comma (l : list string) : string :=
  match l with
  | [] => ""
  | [x] => x
  | x :: l' => (x ++ ", " ++ join_comma l')%string
  end.

Definition repr_tuple (s : list nat) : string :=
  match s with
  | [] => "()"
  | [n] => ("(" ++ repr_nat n ++ ",)")%string
  | _ => ("(" ++ join_comma (map repr_nat s) ++ ")")%string
  end.

(** ** Extended values: what a numpy float can be besides a number *)

Inductive fl : Type :=
| Fin (q : Q)
| PInf
| NInf
| NaN.

(** [np.isfinite] *)
Definition isfinite (e : fl) : bool :=
  match e with
  | Fin _ => true
  | _ => false
  end.

(** [1 / e], entry by entry as numpy divides: a zero gives infinity. *)
Definition fl_inv (e : fl) : fl :=
  match e with
  | Fin q => if Qeq_bool q 0 then PInf else Fin (Qred (/ q))
  | PInf | NInf => Fin 0
  | NaN => NaN
  end.

(** [e ** 2] *)
Definition fl_sq (e : fl) : fl :=
  match e with
  | Fin q => Fin (Qred (q * q))
  | PInf | NInf => PInf
  | NaN => NaN
  end.

(** ** Reductions over a one-dimensional array *)

Definition zero_size (op : string) : exn :=
  ValueError ("zero-size array to reduction operation " ++ op
              ++ " which has no identity")%string.

Definition Qmin2 (a b : Q) : Q := if Qle_bool a b then a else b.
Definition Qmax2 (a b : Q) : Q := if Qle_bool b a then a else b.

(** [np.min] *)
Definition np_min (l : list Q) : outcome Q :=
  match l with
  | [] => Raises (zero_size "minimum")
  | x :: l' => Returns (fold_left Qmin2 l' x)
  end.

(** [np.max] *)
Definition np_max (l : list Q) : outcome Q :=
  match l with
  | [] => Raises (zero_size "maximum")
  | x :: l' => Returns (fold_left Qmax2 l' x)
  end.

Definition Qnat (n : nat) : Q := inject_Z (Z.of_nat n).

(** ** lmfit models and the exponential fit of [FFCFResult] *)

(** What [set_param_hint] has recorded for a parameter. *)
Record hint : Type := mkhint {
  hint_min : option Q;
  hint_vary : option bool
}.

Record lmfit_model : Type := mkmodel {
  param_defaults : list (string * Q);
  param_hints : list (string * hint)
}.

(** [mod.param_names] *)
Definition param_names (m : lmfit_model) : list string :=
  map fst (param_defaults m).

(** [lmfit.models.ConstantModel()] *)
Definition ConstantModel : lmfit_model := mkmodel [("c", 0%Q)] [].

(** [lmfit.models.ExponentialModel(prefix=prefix)] *)
Definition ExponentialModel (prefix : string) : lmfit_model :=
  mkmodel [((prefix ++ "amplitude")%string, 1%Q);
           ((prefix ++ "decay")%string, 1%Q)] [].

(** [left + right] *)
Definition model_add (left right : lmfit_model) : lmfit_model :=
  mkmodel (param_defaults left ++ param_defaults right)
          (param_hints left ++ param_hints right).

Fixpoint dict_get {V} (k : string) (d : list (string * V)) : option V :=
  match d with
  | [] => None
  | (k', v) :: d' => if String.eqb k k' then Some v else dict_get k d'
  end.

(** [d[k] = v] *)
Fixpoint dict_set {V} (k : string) (v : V) (d : list (string * V))
  : list (string * V) :=
  match d with
  | [] => [(k, v)]
  | (k', v') :: d' =>
      if String.eqb k k' then (k, v) :: d' else (k', v') :: dict_set k v d'
  end.

Definition or_else {V} (a b : option V) : option V :=
  match a with
  | Some _ => a
  | None => b
  end.

(** [mod.set_param_hint(name, ...)]: the given entries replace the
    recorded ones. *)
Definition set_param_hint (name : string) (h : hint) (m : lmfit_model)
  : lmfit_model :=
  let old := match dict_get name (param_hints m) with
             | Some o => o
             | None => mkhint None None
             end in
  mkmodel (param_defaults m)
          (dict_set name (mkhint (or_else (hint_min h) (hint_min old))
                                 (or_else (hint_vary h) (hint_vary old)))
                    (param_hints m)).

(** A parameter as the minimiser gets it; no lower bound is [None]. *)
Record parameter : Type := mkparam {
  pname : string;
  pvalue : Q;
  pmin : option Q;
  pvary : bool
}.

(** The parameters [mod.fit(..., **kwargs)] starts from: the default of
    the model function, the hints, then the values passed by keyword. *)
Definition make_params (m : lmfit_model) (kwargs : list (string * Q))
  : list parameter :=
  map (fun nd : string * Q =>
         let (name, dflt) := nd in
         let h := match dict_get name (param_hints m) with
                  | Some o => o
                  | None => mkhint None None
                  end in
         mkparam name
                 (match dict_get name kwargs with
                  | Some v => v
                  | None => dflt
                  end)
                 (hint_min h)
                 (match hint_vary h with
                  | Some b => b
                  | None => true
                  end))
      (param_defaults m).

(** What [mod.fit] hands to the minimiser. *)
Record fit_request : Type := mkrequest {
  req_data : list Q;
  req_x : list Q;
  req_weights : option (list fl);
  req_params : list parameter
}.

(** [lmfit.model.ModelResult]: the request and the values found. *)
Record ModelResult : Type := mkresult {
  request : fit_request;
  best_values : list (string * Q)
}.

Record FFCFResult : Type := mkFFCF {
  wt : list Q;
  slopes : list Q;
  slope_errors : option (list fl);
  exp_fit_result_ : option ModelResult
}.

(** [s.endswith(suffix)] *)
Fixpoint ends_with (suffix s : string) : bool :=
  if String.eqb s suffix then true
  else match s with
       | EmptyString => false
       | String _ s' => ends_with suffix s'
       end.

(** The first loop of [exp_fit], from index [i] on. *)
Fixpoint add_exponentials (i : nat) (taus : list Q) (n : nat)
         (m : lmfit_model) (vals : list (string * Q))
  : outcome (lmfit_model * list (string * Q)) :=
  match taus with
  | [] => Returns (m, vals)
  | v :: taus' =>
      match String.get i "abcdefg" with
      | None => Raises IndexError
      | Some ch =>
          let prefix := String ch "_" in
          add_exponentials (S i) taus' n
            (model_add m (ExponentialModel prefix))
            (dict_set (prefix ++ "amplitude")%string (Qred ((1 # 2) / Qnat n))
               (dict_set (prefix ++ "decay")%string v vals))
      end
  end.

(** The second loop of [exp_fit]. *)
Definition bound_at_zero (m : lmfit_model) : lmfit_model :=
  fold_left (fun m p =>
               let m1 := if ends_with "decay" p
                         then set_param_hint p (mkhint (Some 0%Q) None) m
                         else m in
               if ends_with "amplitude" p
               then set_param_hint p (mkhint (Some 0%Q) None) m1
               else m1)
            (param_names m) m.

(** [FFCFResult.exp_fit] up to the call of [mod.fit]: the request made. *)
Definition exp_fit_request (self : FFCFResult) (start_taus : list Q)
           (use_const use_weights : bool) : outcome fit_request :=
  (mv <~ add_exponentials 0 start_taus (length start_taus) ConstantModel [] ;
   let m1 := bound_at_zero (fst mv) in
   cm <~ (if use_const then
            (smin <~ np_min (slopes self) ;
             Returns (Qmax2 smin 0%Q, m1))
          else
            Returns (0%Q, set_param_hint "c" (mkhint None (Some false)) m1)) ;
   let weights :=
     match slope_errors self with
     | Some errs => if use_weights then Some (map fl_inv errs) else None
     | None => None
     end in
   Returns (mkrequest (slopes self) (wt self) weights
                      (make_params (snd cm) (("c", fst cm) :: snd mv))))%out.

(** [FFCFResult.exp_fit]; [minimize] is lmfit's least-squares minimiser.
    The result is returned and kept in [exp_fit_result_]. *)
Definition exp_fit (minimize : fit_request -> outcome (list (string * Q)))
           (self : FFCFResult) (start_taus : list Q)
           (use_const use_weights : bool)
  : outcome (ModelResult * FFCFResult) :=
  (req <~ exp_fit_request self start_taus use_const use_weights ;
   best <~ minimize req ;
   let res := mkresult req best in
   Returns (res, mkFFCF (wt self) (slopes self) (slope_errors self) (Some res)))%out.

(** ** Linear regression (statsmodels) and the results of the CLS analysis *)

Inductive estimator : Type :=
| WLS (weights : list fl)
| OLS.

(** The regression as it is set up: [endog], the design matrix [exog] by
    rows, and the estimator. *)
Record reg_model : Type := mkreg {
  endog : list Q;
  exog : list (list Q);
  est : estimator
}.

(** What the least-squares solver computes: a coefficient for each
    column of [exog], in the order of the columns, and their standard
    errors. *)
Record reg_numbers : Type := mknumbers {
  sol_params : list Q;
  sol_bse : list fl
}.

(** The object [fit()] returns: it keeps the model it was fitted to. *)
Record RegressionResults : Type := mkregres {
  model : reg_model;
  params : list Q;
  bse : list fl
}.

Definition Qsum (l : list Q) : Q := fold_right Qplus 0%Q l.

Definition dot (r b : list Q) : Q :=
  Qsum (map (fun p : Q * Q => (fst p * snd p)%Q) (combine r b)).

(** [r.predict()]: the design matrix times the coefficients. *)
Definition predict (r : RegressionResults) : list Q :=
  map (fun row => Qred (dot row (params r))) (exog (model r)).

Module SingleCLSResult.
Record t : Type := mk {
  pump_wn : list Q;
  max_pos : list Q;
  max_pos_err : list fl;
  slope : Q;
  reg_result : RegressionResults;
  recentered_pump_wn : list Q;
  linear_fit : list Q
}.
End SingleCLSResult.

(** [CLSResult]: an [FFCFResult] with the intercepts and the lines. *)
Record CLSResult : Type := mkCLS {
  ffcf : FFCFResult;
  intercepts : list Q;
  intercept_errors : option (list fl);
  lines : list (list (Q * Q * fl * Q))
}.

(** ** The store of array objects and the file system *)

Definition loc := nat.

Definition path := list string.

(** What [np.savetxt] is asked to write. *)
Record table_file : Type := mktable_file {
  header : string;
  table : ndarray Q
}.

Inductive node : Type :=
| Dir
| File (content : table_file).

Definition filesystem := list (path * node).

Inductive syscall : Type :=
| SysIsDir (p : path)
| SysMkdir (p : path)
| SysWrite (p : path).

Record world : Type := mkworld {
  arrays : list (ndarray Q);
  fs : filesystem;
  calls : list syscall
}.

Definition M (A : Type) : Type := world -> outcome A * world.

Definition ret {A} (a : A) : M A := fun w => (Returns a, w).
Definition raise {A} (e : exn) : M A := fun w => (Raises e, w).
Definition bind {A B} (c : M A) (k : A -> M B) : M B :=
  fun w => match c w with
           | (Returns a, w') => k a w'
           | (Raises e, w') => (Raises e, w')
           end.
Definition lift {A} (o : outcome A) : M A := fun w => (o, w).

Declare Scope py_scope.
Delimit Scope py_scope with py.
Notation "x <- c ;; k" := (bind c (fun x => k))
  (at level 61, c at next level, right associativity) : py_scope.
Notation "c ;; k" := (bind c (fun _ => k))
  (at level 61, right associativity) : py_scope.

Definition empty_array : ndarray Q := mkarray [0] [].

(** The array a reference points to. *)
Definition array_at (w : world) (l : loc) : ndarray Q :=
  nth l (arrays w) empty_array.

Definition deref (l : loc) : M (ndarray Q) :=
  fun w => (Returns (array_at w l), w).

(** The world with more array objects in it. *)
Definition extend (w : world) (l : list (ndarray Q)) : world :=
  mkworld (arrays w ++ l) (fs w) (calls w).

(** A new array object; its reference is the next free one. *)
Definition alloc (a : ndarray Q) : M loc :=
  fun w => (Returns (length (arrays w)), extend w [a]).

(** A reference that points to an array object of the world. *)
Definition valid_ref (w : world) (l : loc) : Prop := l < length (arrays w).

(** Overwriting the buffer of an existing array object. *)
Definition store (l : loc) (a : ndarray Q) : M unit :=
  fun w => (Returns tt,
            mkworld (firstn l (arrays w) ++ a :: skipn (S l) (arrays w))
                    (fs w) (calls w)).

(** [a.copy()] *)
Definition array_copy (l : loc) : M loc :=
  (a <- deref l ;; alloc a)%py.

(** ** The dataset

    The fields of [TwoDim] that hold arrays are references into the store.
    [info], [plot], [interpolator_] and [exp_fit_result_] play no part in
    what follows and are left out. *)

Record TwoDim : Type := mkTwoDim {
  t : loc;
  pump_wn : loc;
  probe_wn : loc;
  spec2d : loc;
  single_cls_result_ : option SingleCLSResult.t;
  cls_result_ : option CLSResult
}.

Definition shape_eqb (s1 s2 : list nat) : bool :=
  if list_eq_dec Nat.eq_dec s1 s2 then true else false.

Definition shape_error (actual : list nat) (n m k : nat) : exn :=
  ValueError ("Data shape not equal to t, wn_probe, wn_pump shape"
              ++ repr_tuple actual ++ " != " ++ repr_tuple [n; m; k])%string.

(** [TwoDim.__attrs_post_init__]: [self] arrives with the caller's
    references in its fields. *)
Definition attrs_post_init (self : TwoDim) : M TwoDim :=
  (ta <- deref (t self) ;;
   ra <- deref (probe_wn self) ;;
   pa <- deref (pump_wn self) ;;
   sa <- deref (spec2d self) ;;
   let n := size ta in
   let m := size ra in
   let k := size pa in
   if negb (shape_eqb (shape sa) [n; m; k]) then
     raise (shape_error (shape sa) n m k)
   else
     s1 <- array_copy (spec2d self) ;;
     r1 <- array_copy (probe_wn self) ;;
     p1 <- array_copy (pump_wn self) ;;
     t1 <- array_copy (t self) ;;
     pa1 <- deref p1 ;;
     let i1 := argsort (data pa1) in
     pa2 <- lift (take_axis 0 i1 pa1) ;;
     p2 <- alloc pa2 ;;
     ra1 <- deref r1 ;;
     let i2 := argsort (data ra1) in
     ra2 <- lift (take_axis 0 i2 ra1) ;;
     r2 <- alloc ra2 ;;
     sa1 <- deref s1 ;;
     sa2 <- lift (sb <~ take_axis 2 i1 sa1 ; take_axis 1 i2 sb)%out ;;
     s2 <- alloc sa2 ;;
     ret (mkTwoDim t1 p2 r2 s2 (single_cls_result_ self) (cls_result_ self)))%py.

(** [TwoDim(t, pump_wn, probe_wn, spec2d)]: the result fields start
    as [None]. *)
Definition TwoDim_new (t0 pump0 probe0 spec0 : loc) : M TwoDim :=
  attrs_post_init (mkTwoDim t0 pump0 probe0 spec0 None None).

(** [TwoDim.copy] *)
Definition copy (self : TwoDim) : M TwoDim :=
  TwoDim_new (t self) (pump_wn self) (probe_wn self) (spec2d self).


(** The array objects a successful construction adds to the store, in
    the order of their allocation. *)
Definition constructed (ta ra pa sa : ndarray Q) : list (ndarray Q) :=
  [ sa; ra; pa; ta;
    array1 (sorted_values (data pa));
    array1 (sorted_values (data ra));
    taken 1 (argsort (data ra)) (taken 2 (argsort (data pa)) sa) ].

(** ** Selecting a region *)

(** Modelled from the spec: [skultrafast.utils.inbetween] is not among the
    sources; the spec gives the mask as [lower <= value <= upper],
    entry by entry. *)
Definition inbetween (a : list Q) (lower upper : Q) : list bool :=
  map (fun v => Qle_bool lower v && Qle_bool v upper) a.

(** Python's [min] and [max] of a pair: the first of two equal values. *)
Definition py_min (r : Q * Q) : Q :=
  if Qle_bool (fst r) (snd r) then fst r else snd r.
Definition py_max (r : Q * Q) : Q :=
  if Qle_bool (snd r) (fst r) then fst r else snd r.

Definition ambiguous_truth : exn :=
  ValueError ("The truth value of an array with more than one element is "
              ++ "ambiguous. Use a.any() or a.all()")%string.

(** [bool(mask)] for a numpy array: the entry of a one-entry array, an
    error for more than one entry, and for an empty array [False], which
    numpy before 2.2 gives with a deprecation warning. *)
Definition array_truth (m : list bool) : outcome bool :=
  match m with
  | [] => Returns false
  | [b] => Returns b
  | _ :: _ :: _ => Raises ambiguous_truth
  end.

(** Python's [not mask]. *)
Definition py_not (m : list bool) : outcome bool :=
  (b <~ array_truth m ; Returns (negb b))%out.

(** [TwoDim.select_range].  The slices of each index tuple are within the
    rank of the copy, which the constructor has checked. *)
Definition select_range (self : TwoDim) (pump_range probe_range : Q * Q)
           (invert : bool) : M TwoDim :=
  (pa <- deref (pump_wn self) ;;
   ra <- deref (probe_wn self) ;;
   let pu_mask := inbetween (data pa) (py_min pump_range) (py_max pump_range) in
   let pr_mask := inbetween (data ra) (py_min probe_range) (py_max probe_range) in
   idx <- lift (if invert then
                  (pu <~ py_not pu_mask ;
                   pr <~ py_not pr_mask ;
                   Returns (ByBool pu, ByBool pr))%out
                else Returns (ByMask pu_mask, ByMask pr_mask)) ;;
   let pu_idx := fst idx in
   let pr_idx := snd idx in
   ds <- copy self ;;
   sa <- deref (spec2d ds) ;;
   sa' <- lift (x <~ index_axis 1 pr_idx sa ; index_axis 2 pu_idx x)%out ;;
   s' <- alloc sa' ;;
   pa' <- deref (pump_wn ds) ;;
   pa'' <- lift (index_axis 0 pu_idx pa') ;;
   p' <- alloc pa'' ;;
   ra' <- deref (probe_wn ds) ;;
   ra'' <- lift (index_axis 0 pr_idx ra') ;;
   r' <- alloc ra'' ;;
   ret (mkTwoDim (t ds) p' r' s' (single_cls_result_ ds) (cls_result_ ds)))%py.

(** The class invariant: the fields point to array objects, the axes are
    one-dimensional and the data has one entry per triple of coordinates. *)
Definition dataset_ok (w : world) (ds : TwoDim) : Prop :=
  valid_ref w (t ds) /\ valid_ref w (pump_wn ds) /\
  valid_ref w (probe_wn ds) /\ valid_ref w (spec2d ds) /\
  is_1d (array_at w (t ds)) /\
  is_1d (array_at w (pump_wn ds)) /\
  is_1d (array_at w (probe_wn ds)) /\
  wf_array (array_at w (spec2d ds)) /\
  shape (array_at w (spec2d ds))
  = [size (array_at w (t ds)); size (array_at w (probe_wn ds));
     size (array_at w (pump_wn ds))].

(** Every value of the axis lies within the range. *)
Definition covers (r : Q * Q) (axis : list Q) : Prop :=
  Forall (fun v => (py_min r <= v)%Q /\ (v <= py_max r)%Q) axis.

(** ** Text export *)

Definition path_eqb (p q : path) : bool :=
  if list_eq_dec string_dec p q then true else false.

Fixpoint fs_lookup (f : filesystem) (p : path) : option node :=
  match f with
  | [] => None
  | (q, n) :: f' => if path_eqb p q then Some n else fs_lookup f' p
  end.

(** The empty path is the directory the paths are relative to. *)
Definition is_directory (f : filesystem) (p : path) : bool :=
  match p with
  | [] => true
  | _ :: _ => match fs_lookup f p with
              | Some Dir => true
              | _ => false
              end
  end.

Definition is_file (f : filesystem) (p : path) : bool :=
  match p with
  | [] => false
  | _ :: _ => match fs_lookup f p with
              | Some (File _) => true
              | _ => false
              end
  end.

(** The proper, non-empty prefixes of a path, shortest first. *)
Definition ancestors (p : path) : list path :=
  map (fun n => firstn n p) (seq 1 (length p - 1)).

Definition log_call (c : syscall) (w : world) : world :=
  mkworld (arrays w) (fs w) (calls w ++ [c]).

Definition set_fs (f : filesystem) (w : world) : world :=
  mkworld (arrays w) f (calls w).

(** [Path.is_dir] *)
Definition is_dir (p : path) : M bool :=
  fun w => (Returns (is_directory (fs w) p), log_call (SysIsDir p) w).

(** [Path.mkdir(parents=True, exist_ok=True)]; it returns [None]. *)
Definition mkdir_parents_exist_ok (p : path) : M unit :=
  fun w =>
    let w1 := log_call (SysMkdir p) w in
    if is_directory (fs w) p then (Returns tt, w1)
    else if is_file (fs w) p then (Raises FileExistsError, w1)
    else if existsb (is_file (fs w)) (ancestors p) then
      (Raises NotADirectoryError, w1)
    else
      let missing :=
        filter (fun a => negb (is_directory (fs w) a)) (ancestors p ++ [p]) in
      (Returns tt, set_fs (map (fun a => (a, Dir)) missing ++ fs w) w1).

(** [np.savetxt(fname, arr, header=...)]: the file is opened for writing. *)
Definition savetxt (fname : path) (content : table_file) : M unit :=
  fun w =>
    let w1 := log_call (SysWrite fname) w in
    if is_directory (fs w) fname then (Raises IsADirectoryError, w1)
    else if is_directory (fs w) (removelast fname) then
      (Returns tt, set_fs ((fname, File content) :: fs w) w1)
    else if is_file (fs w) (removelast fname) then
      (Raises NotADirectoryError, w1)
    else (Raises FileNotFoundError, w1).

(** [str(p)] *)
Fixpoint join_slash (p : path) : string :=
  match p with
  | [] => ""
  | [x] => x
  | x :: p' => (x ++ "/" ++ join_slash p')%string
  end.
Definition path_str (p : path) : string :=
  match p with
  | [] => "."
  | _ :: _ => join_slash p
  end.

(** ['{:.3f}'.format(q)]: three decimals, the last one rounded to the
    nearest, ties to even; a negative value keeps its sign when it rounds
    to zero. *)
Definition round_half_even (q : Q) : Z :=
  let n := Qnum q in
  let d := Zpos (Qden q) in
  let f := (n / d)%Z in
  match (2 * (n mod d) ?= d)%Z with
  | Lt => f
  | Gt => (f + 1)%Z
  | Eq => if Z.even f then f else (f + 1)%Z
  end.

Definition repr_Z (z : Z) : string := NilZero.string_of_int (Z.to_int z).

Definition pad3 (z : Z) : string :=
  ((if (z <? 10)%Z then "00" else if (z <? 100)%Z then "0" else "")
   ++ repr_Z z)%string.

Definition format_3f (q : Q) : string :=
  let r := round_half_even (Qabs q * (1000 # 1))%Q in
  ((if Qle_bool 0%Q q then "" else "-")
   ++ repr_Z (r / 1000) ++ "." ++ pad3 (r mod 1000))%string.

(** [np.block([[0, pump_wn], [probe_wn[:, None], spec2d[i]]])] on a
    dataset: the pump axis after a 0 in the first row, then each probe
    value before its row of the [i]-th spectrum. *)
Definition block_matrix (pa ra sa : ndarray Q) (i : nat) : ndarray Q :=
  let m := size ra in
  let k := size pa in
  mkarray [S m; S k]
    ((0%Q :: data pa)
     ++ flat_map (fun j => nth j (data ra) 0%Q :: block k (data sa) (i * m + j))
                 (seq 0 m)).

Definition txt_header : string :=
  "# pump axis along rows, probe axis along columns".

(** [TwoDim.save_single_txt]; [self.spec2d[i]] raises for an index beyond
    the first axis. *)
Definition save_single_txt (self : TwoDim) (fname : path) (i : nat) : M unit :=
  (pa <- deref (pump_wn self) ;;
   ra <- deref (probe_wn self) ;;
   sa <- deref (spec2d self) ;;
   arr <- lift (if i <? dim_of 0 (shape sa)
                then Returns (block_matrix pa ra sa i)
                else Raises IndexError) ;;
   savetxt fname (mktable_file txt_header arr))%py.

(** The body of a [for] loop over a list. *)
Fixpoint for_each {A} (l : list A) (body : A -> M unit) : M unit :=
  match l with
  | [] => ret tt
  | x :: l' => (body x ;; for_each l' body)%py
  end.

Definition not_a_directory (p : path) : exn :=
  ValueError (path_str p ++ " is not a directory")%string.

(** [TwoDim.save_txt]; [p] is [Path(pname)].  The test is Python's
    short-circuit [or]: [mkdir] runs only when [not p.is_dir()] is false,
    and its [None] counts as false. *)
Definition save_txt (self : TwoDim) (p : path) : M unit :=
  (d <- is_dir p ;;
   cond <- (if negb d then ret true
            else (mkdir_parents_exist_ok p ;; ret false)) ;;
   if cond : bool then raise (not_a_directory p)
   else
     sa <- deref (spec2d self) ;;
     ta <- deref (t self) ;;
     n <- lift (match shape sa with
                | [] => Raises IndexError
                | n :: _ => Returns n
                end) ;;
     for_each (seq 0 n) (fun i =>
       ti <- lift (if i <? length (data ta) then Returns (nth i (data ta) 0%Q)
                   else Raises IndexError) ;;
       let tstr := (format_3f ti ++ "ps")%string in
       save_single_txt self (p ++ [("wt_" ++ tstr ++ ".txt")%string]) i))%py.

(** The calls a command makes are added after those made before. *)
Definition appends_calls {A} (c : M A) : Prop :=
  forall w, exists more, calls (snd (c w)) = calls w ++ more.

(** ** The centre line slope *)

(** The numerical libraries behind the analysis: lmfit's peak fits,
    numpy's polynomial fits and statsmodels' least squares.  They are
    called, not reimplemented. *)
Record backend : Type := mkbackend {
  (** [GaussianModel] (with a [LinearModel] added when the flag is set)
      fitted to [(x, data)] from [sigma=3] and the given centre and
      amplitude, the centre kept within the bounds if any: the fitted
      centre and its [stderr], which may be [None]. *)
  gaussian_fit : bool -> list Q -> list Q -> Q -> Q -> option (Q * Q)
                 -> outcome (Q * option fl);
  (** [Polynomial.fit(x, y, 2).deriv().roots()[0]] *)
  quadratic_vertex : list Q -> list Q -> outcome Q;
  (** [Polynomial.fit(x, np.log(y), 2).deriv().roots()[0]] *)
  log_quadratic_vertex : list Q -> list Q -> outcome Q;
  (** [WLS(...).fit()] and [OLS(...).fit()] *)
  regress : reg_model -> outcome reg_numbers;
  (** [np.polyfit(x, y, deg)]: coefficients, highest power first. *)
  polyfit : list Q -> list Q -> nat -> outcome (list Q)
}.

Inductive range_arg : Type :=
| Half (width : Q)
| Bounds (lower upper : Q).

Inductive cls_mode : Type := neg | pos.

Inductive cls_method : Type := com | quad | fit | log_quad | skew_fit.

Definition Qlt_bool (a b : Q) : bool := negb (Qle_bool b a).

Fixpoint argmin_from (best : Q) (bi i : nat) (l : list Q) : nat :=
  match l with
  | [] => bi
  | x :: l' => if Qlt_bool x best then argmin_from x i (S i) l'
               else argmin_from best bi (S i) l'
  end.

(** [np.argmin]: the first index of the smallest entry. *)
Definition argmin (l : list Q) : outcome nat :=
  match l with
  | [] => Raises (ValueError "attempt to get argmin of an empty sequence")
  | x :: l' => Returns (argmin_from x 0 1 l')
  end.

(** Modelled from the spec: [skultrafast.dv.fi] is not among the sources;
    the spec gives the index of the axis entry nearest to the value, the
    lower index on a tie. *)
Definition fi (axis : list Q) (x : Q) : outcome nat :=
  argmin (map (fun v => Qabs (v - x)) axis).

(** [TwoDim.t_idx] *)
Definition t_idx (self : TwoDim) (x : Q) : M nat :=
  (ta <- deref (t self) ;; lift (fi (data ta) x))%py.

(** [a[mask]] on a one-dimensional array whose length the mask has. *)
Fixpoint select {A} (mask : list bool) (l : list A) : list A :=
  match mask, l with
  | b :: mask', x :: l' => if b then x :: select mask' l' else select mask' l'
  | _, _ => []
  end.

(** [(axis < center + width) & (axis > center - width)] *)
Definition around (axis : list Q) (center width : Q) : list bool :=
  map (fun v => Qlt_bool v (center + width) && Qlt_bool (center - width) v) axis.

(** [a.mean()]; the mean of no entries is never used below. *)
Definition mean (l : list Q) : Q := Qred (Qsum l / Qnat (length l)).

(** [np.average(a, weights=w)] *)
Definition average (a w : list Q) : outcome Q :=
  if Qeq_bool (Qsum w) 0
  then Raises (ZeroDivisionError "Weights sum to zero, can't be normalized")
  else Returns (Qred (dot a w / Qsum w)).

(** [np.trapz(y, x)] *)
Fixpoint trapz (y x : list Q) : Q :=
  match y, x with
  | y0 :: ((y1 :: _) as y'), x0 :: ((x1 :: _) as x') =>
      Qred ((x1 - x0) * (y0 + y1) / (2 # 1) + trapz y' x')
  | _, _ => 0%Q
  end.

(** [self.spec2d[ti, :, :].T] on a dataset: a row for each pump value. *)
Definition pump_rows (sa : ndarray Q) (ti : nat) : list (list Q) :=
  map (fun c => map (fun j => get3 0%Q sa ti j c) (seq 0 (dim_of 1 (shape sa))))
      (seq 0 (dim_of 2 (shape sa))).

(** [np.min(spec, 1)] *)
Fixpoint row_minima (rows : list (list Q)) : outcome (list Q) :=
  match rows with
  | [] => Returns []
  | r :: rows' => (m <~ np_min r ; ms <~ row_minima rows' ; Returns (m :: ms))%out
  end.

(** The body of the loop of [single_cls]: the position of the extremum of
    one pump slice [s] and its error. *)
Definition locate (B : backend) (method : cls_method) (pr_range : range_arg)
           (pr s : list Q) : outcome (Q * fl) :=
  (m <~ argmin s ;
   let pr_idx := match pr_range with
                 | Half width => around pr (nth m pr 0%Q) width
                 | Bounds lower upper => inbetween pr lower upper
                 end in
   cen_of_m <~ average (select pr_idx pr) (select pr_idx s) ;
   match method with
   | fit =>
       lo <~ np_min (select pr_idx pr) ;
       hi <~ np_max (select pr_idx pr) ;
       let amp := trapz (select pr_idx s) (select pr_idx pr) in
       r <~ gaussian_fit B false (select pr_idx pr) (select pr_idx s)
                         cen_of_m amp (Some (lo, hi)) ;
       Returns (fst r, match snd r with Some err => err | None => NaN end)
   | quad =>
       v <~ quadratic_vertex B (select pr_idx pr) (select pr_idx s) ;
       Returns (v, Fin 1)
   | log_quad =>
       let s_min := nth m s 0%Q in
       let i2 := map (fun v => Qlt_bool v (s_min * (1 # 10))) s in
       let both := map (fun p : bool * bool => fst p && snd p)
                       (combine pr_idx i2) in
       v <~ log_quadratic_vertex B (select both pr)
                                 (map Qopp (select both s)) ;
       Returns (v, Fin 1)
   | skew_fit =>
       let amp := trapz (select pr_idx s) (select pr_idx pr) in
       r <~ gaussian_fit B true (select pr_idx pr) (select pr_idx s)
                         cen_of_m amp None ;
       Returns (fst r, match snd r with Some err => err | None => NaN end)
   | com => Returns (cen_of_m, Fin 1)
   end)%out.

Fixpoint locate_all (B : backend) (method : cls_method) (pr_range : range_arg)
         (pr : list Q) (spec : list (list Q)) : outcome (list (Q * fl)) :=
  match spec with
  | [] => Returns []
  | s :: spec' =>
      (p <~ locate B method pr_range pr s ;
       l <~ locate_all B method pr_range pr spec' ;
       Returns (p :: l))%out
  end.

(** [statsmodels.api.add_constant(x)]: a column of ones before [x],
    unless [x] is already a constant other than zero. *)
Definition add_constant (x : list Q) : outcome (list (list Q)) :=
  (hi <~ np_max x ;
   lo <~ np_min x ;
   if Qeq_bool (hi - lo) 0 && forallb (fun v => negb (Qeq_bool v 0)) x
   then Returns (map (fun v => [v]) x)
   else Returns (map (fun v => [1%Q; v]) x))%out.

(** [model.fit()] *)
Definition fit_model (B : backend) (m : reg_model) : outcome RegressionResults :=
  (nums <~ regress B m ;
   Returns (mkregres m (sol_params nums) (sol_bse nums)))%out.

(** The regression of [single_cls]: weighted when every error is finite. *)
Definition cls_regression (B : backend) (x y : list Q) (yerr : list fl)
  : outcome RegressionResults :=
  (let all_err_valid := forallb isfinite yerr in
   design <~ add_constant x ;
   if all_err_valid
   then fit_model B (mkreg y design (WLS (map (fun e => fl_inv (fl_sq e)) yerr)))
   else fit_model B (mkreg y design OLS))%out.

(** What [single_cls] has before the regression: the recentred pump
    values, their mean, and the located positions with their errors. *)
Definition locate_maxima (B : backend) (pu pr : list Q) (sa : ndarray Q)
           (ti : nat) (pr_range pu_range : range_arg) (mode : cls_mode)
           (method : cls_method) : outcome (list Q * Q * list (Q * fl)) :=
  (let spec0 := pump_rows sa ti in
   let spec := match mode with
               | pos => map (map Qopp) spec0
               | neg => spec0
               end in
   mins <~ (if dim_of 1 (shape sa) =? 0 then Raises (zero_size "minimum")
            else row_minima spec) ;
   imax <~ argmin mins ;
   let pu_max := nth imax pu 0%Q in
   let pu_idx := match pu_range with
                 | Half width => around pu pu_max width
                 | Bounds lower upper => inbetween pu lower upper
                 end in
   let center := mean (select pu_idx pu) in
   let x := map (fun v => Qred (v - center)) (select pu_idx pu) in
   l <~ locate_all B method pr_range pr (select pu_idx spec) ;
   Returns (x, center, l))%out.

(** [y, yerr = np.array(l).T] *)
Definition unpack_columns (l : list (Q * fl)) : outcome (list Q * list fl) :=
  match l with
  | [] => Raises (ValueError "not enough values to unpack (expected 2, got 0)")
  | _ :: _ => Returns (map fst l, map snd l)
  end.

Definition item {A} (i : nat) (l : list A) : outcome A :=
  match nth_error l i with
  | Some x => Returns x
  | None => Raises IndexError
  end.

(** [TwoDim.single_cls] on a dataset.  The result is returned and kept in
    [single_cls_result_]. *)
Definition single_cls (B : backend) (self : TwoDim) (t0 : Q)
           (pr_range pu_range : range_arg) (mode : cls_mode)
           (method : cls_method) : M (SingleCLSResult.t * TwoDim) :=
  (pa <- deref (pump_wn self) ;;
   ra <- deref (probe_wn self) ;;
   ti <- t_idx self t0 ;;
   sa <- deref (spec2d self) ;;
   located <- lift (locate_maxima B (data pa) (data ra) sa ti
                                  pr_range pu_range mode method) ;;
   let x := fst (fst located) in
   let center := snd (fst located) in
   yy <- lift (unpack_columns (snd located)) ;;
   let y := fst yy in
   let yerr := snd yy in
   r <- lift (cls_regression B x y yerr) ;;
   slope <- lift (item 0 (params r)) ;;
   let res := SingleCLSResult.mk (map (fun v => Qred (v + center)) x) y yerr
                                 slope r
                                 x (predict r) in
   ret (res, mkTwoDim (t self) (pump_wn self) (probe_wn self) (spec2d self)
                      (Some res) (cls_result_ self)))%py.

(** [column_stack((c.pump_wn, c.max_pos, c.max_pos_err, r.predict()))] *)
Fixpoint column_stack (a b : list Q) (c : list fl) (d : list Q)
  : list (Q * Q * fl * Q) :=
  match a, b, c, d with
  | x :: a', y :: b', e :: c', f :: d' => (x, y, e, f) :: column_stack a' b' c' d'
  | _, _, _, _ => []
  end.

(** The calls of [single_cls] that [cls] hands to joblib, one for each
    waiting time.  With [n_jobs=-1] joblib starts a worker process for
    each core: each call then runs on a pickled copy of the dataset
    object, and [self] keeps its [single_cls_result_].  On a single core
    it runs the calls one after the other in the calling process
    ([in_process]), and each call overwrites [self.single_cls_result_].
    The results come back in the order of the waiting times, with the
    dataset object as the calls have left it. *)
Fixpoint cls_workers (B : backend) (in_process : bool) (self : TwoDim)
         (ts : list Q) (pr_range pu_range : range_arg) (mode : cls_mode)
         (method : cls_method) : M (list SingleCLSResult.t * TwoDim) :=
  match ts with
  | [] => ret ([], self)
  | t0 :: ts' =>
      (c <- single_cls B self t0 pr_range pu_range mode method ;;
       let self1 := if in_process then snd c else self in
       cs <- cls_workers B in_process self1 ts' pr_range pu_range mode method ;;
       ret (fst c :: fst cs, snd cs))%py
  end.

(** The loop of [cls] over the results of the workers. *)
Fixpoint cls_collect (res : list SingleCLSResult.t) (acc : CLSResult)
  : outcome CLSResult :=
  match res with
  | [] => Returns acc
  | c :: res' =>
      let r := SingleCLSResult.reg_result c in
      (s <~ item 1 (params r) ;
       se <~ item 1 (bse r) ;
       i <~ item 0 (params r) ;
       ie <~ item 0 (bse r) ;
       let f := ffcf acc in
       cls_collect res'
         (mkCLS (mkFFCF (wt f) (slopes f ++ [s])
                        (match slope_errors f with
                         | Some es => Some (es ++ [se])
                         | None => Some [se]
                         end)
                        None)
                (intercepts acc ++ [i])
                (match intercept_errors acc with
                 | Some es => Some (es ++ [ie])
                 | None => Some [ie]
                 end)
                (lines acc
                 ++ [column_stack (SingleCLSResult.pump_wn c)
                                  (SingleCLSResult.max_pos c)
                                  (SingleCLSResult.max_pos_err c)
                                  (predict r)])))%out
  end.

(** [TwoDim.cls]; [in_process] as for [cls_workers]. *)
Definition cls (B : backend) (in_process : bool) (self : TwoDim)
           (pr_range pu_range : range_arg)
           (mode : cls_mode) (method : cls_method) : M (CLSResult * TwoDim) :=
  (ta <- deref (t self) ;;
   ran <- cls_workers B in_process self (data ta) pr_range pu_range mode method ;;
   let res := fst ran in
   let self1 := snd ran in
   out <- lift (cls_collect res
                  (mkCLS (mkFFCF (data ta) [] (Some []) None) [] (Some []) [])) ;;
   ret (out, mkTwoDim (t self1) (pump_wn self1) (probe_wn self1) (spec2d self1)
                      (single_cls_result_ self1) (Some out)))%py.

(** The estimator [single_cls] chooses for the errors it has. *)
Definition estimator_for (yerr : list fl) : estimator :=
  if forallb isfinite yerr
  then WLS (map (fun e => fl_inv (fl_sq e)) yerr)
  else OLS.

(** The weighted sum of squared residuals of coefficients [b], for
    weights that are numbers. *)
Definition weight_of (e : fl) : Q :=
  match e with
  | Fin q => q
  | _ => 0%Q
  end.

Definition weights_of (m : reg_model) : list Q :=
  match est m with
  | WLS ws => map weight_of ws
  | OLS => repeat 1%Q (length (endog m))
  end.

Definition wssr (m : reg_model) (b : list Q) : Q :=
  Qsum (map (fun p : Q * (list Q * Q) =>
               let w := fst p in
               let row := fst (snd p) in
               let y := snd (snd p) in
               (w * ((y - dot row b) * (y - dot row b)))%Q)
            (combine (weights_of m) (combine (exog m) (endog m)))).

(** The contract of the least-squares solver on a request: the
    coefficients, one for each column, make the weighted sum of squared
    residuals as small as it can be. *)
Definition least_squares (m : reg_model) (b : list Q) : Prop :=
  length b = length (hd [] (exog m))
  /\ forall b', length b' = length b -> (wssr m b <= wssr m b')%Q.

(** ** Background correction *)

(** [np.polyval(p, x)]: Horner's rule, the highest power first. *)
Definition polyval (p : list Q) (x : Q) : Q :=
  fold_left (fun acc c => (acc * x + c)%Q) p 0%Q.

(** [self.spec2d[ti, :, pi]], a view of the data. *)
Definition column (sa : ndarray Q) (ti pi : nat) : list Q :=
  map (fun j => get3 0%Q sa ti j pi) (seq 0 (dim_of 1 (shape sa))).

(** The buffer of a three-dimensional array after [s -= v] through the
    view [s = a[ti, :, pi]]. *)
Definition subtract_from_column (a : ndarray Q) (ti pi : nat) (v : list Q)
  : ndarray Q :=
  mkarray (shape a)
    (flat_map (fun i =>
       flat_map (fun j =>
         map (fun c => if (i =? ti) && (c =? pi)
                       then Qred (get3 0%Q a i j c - nth j v 0%Q)
                       else get3 0%Q a i j c)
             (seq 0 (dim_of 2 (shape a))))
         (seq 0 (dim_of 1 (shape a))))
       (seq 0 (dim_of 0 (shape a)))).

(** [TwoDim.background_correction] on a dataset: nothing is returned, the
    array [spec2d] points to is written in place. *)
Definition background_correction (B : backend) (self : TwoDim)
           (excluded_range : Q * Q) (deg : nat) : M unit :=
  (ra0 <- deref (probe_wn self) ;;
   let wn_range :=
     map negb (inbetween (data ra0) (fst excluded_range) (snd excluded_range)) in
   sa0 <- deref (spec2d self) ;;
   n <- lift (item 0 (shape sa0)) ;;
   for_each (seq 0 n) (fun ti =>
     sa1 <- deref (spec2d self) ;;
     k <- lift (item 2 (shape sa1)) ;;
     for_each (seq 0 k) (fun pi =>
       sa <- deref (spec2d self) ;;
       let s := column sa ti pi in
       let back := select wn_range s in
       ra <- deref (probe_wn self) ;;
       p <- lift (polyfit B (select wn_range (data ra)) back deg) ;;
       store (spec2d self)
             (subtract_from_column sa ti pi (map (polyval p) (data ra))))))%py.

(** The entry at [(i, j, c)] once its column has had the polynomial
    [P i c] subtracted. *)
Definition corrected_entry (w : world) (self : TwoDim)
           (P : nat -> nat -> list Q) (i j c : nat) : Q :=
  Qred (get3 0%Q (array_at w (spec2d self)) i j c
        - polyval (P i c) (nth j (data (array_at w (probe_wn self))) 0%Q)).

(** The store [w1] while the loops run on [w]: only the data array has
    changed, and in it the columns marked by [D]. *)
Definition partly_corrected_by (w : world) (self : TwoDim)
           (P : nat -> nat -> list Q) (D : nat -> nat -> bool) (w1 : world)
  : Prop :=
  length (arrays w1) = length (arrays w)
  /\ fs w1 = fs w /\ calls w1 = calls w
  /\ (forall r, r <> spec2d self -> array_at w1 r = array_at w r)
  /\ shape (array_at w1 (spec2d self))
     = [size (array_at w (t self)); size (array_at w (probe_wn self));
        size (array_at w (pump_wn self))]
  /\ forall i j c,
       i < size (array_at w (t self)) ->
       j < size (array_at w (probe_wn self)) ->
       c < size (array_at w (pump_wn self)) ->
       get3 0%Q (array_at w1 (spec2d self)) i j c
       = if D i c then corrected_entry w self P i j c
         else get3 0%Q (array_at w (spec2d self)) i j c.

(** Values that differ pairwise as numbers. *)
Fixpoint distinctQ (l : list Q) : Prop :=
  match l with
  | [] => True
  | x :: l' => Forall (fun y => ~ (x == y)%Q) l' /\ distinctQ l'
  end.

(** The sum of squared residuals of the polynomial [p] on the points. *)
Definition poly_ssr (xs ys p : list Q) : Q :=
  Qsum (map (fun xy : Q * Q =>
               ((snd xy - polyval p (fst xy)) * (snd xy - polyval p (fst xy)))%Q)
            (combine xs ys)).

(** The contract of [np.polyfit] on a request: [deg + 1] coefficients
    that make the sum of squared residuals as small as it can be. *)
Definition poly_least_squares (xs ys : list Q) (deg : nat) (p : list Q) : Prop :=
  length p = deg + 1
  /\ forall p', length p' = deg + 1 -> (poly_ssr xs ys p <= poly_ssr xs ys p')%Q.

(** Coefficient by coefficient difference of two polynomials of the same
    length. *)
Fixpoint poly_sub (a b : list Q) : list Q :=
  match a, b with
  | x :: a', y :: b' => (x - y)%Q :: poly_sub a' b'
  | _, _ => []
  end.

(** ** Concrete stores used in the examples *)

(** Waiting times [2, 1], pump axis [30, 10, 20], probe axis [5, 4] and a
    2 x 2 x 3 block of data, all out of order. *)
Definition unsorted_world : world := mkworld
  [ array1 [2#1; 1#1]%Q;
    array1 [30#1; 10#1; 20#1]%Q;
    array1 [5#1; 4#1]%Q;
    mkarray [2; 2; 3]
      [1#1; 2#1; 3#1; 4#1; 5#1; 6#1; 7#1; 8#1; 9#1; 10#1; 11#1; 12#1]%Q ]
  [] [].

(** The dataset the constructor makes of [unsorted_world], and its store. *)
Definition sorted_dataset : TwoDim :=
  match fst (TwoDim_new 0 1 2 3 unsorted_world) with
  | Returns ds => ds
  | Raises _ => mkTwoDim 0 1 2 3 None None
  end.
Definition sorted_world : world := snd (TwoDim_new 0 1 2 3 unsorted_world).

(** The sorted dataset next to a directory [out] and a file [notes]. *)
Definition disk : filesystem :=
  [ (["out"], Dir); (["notes"], File (mktable_file "" empty_array)) ].
Definition disk_world : world := set_fs disk sorted_world.

(** Slopes at three waiting times, the smallest of them negative. *)
Definition decaying_slopes : FFCFResult :=
  mkFFCF [0#1; 1#1; 2#1]%Q [2#1; 1#2; -1#1]%Q
         (Some [Fin (1#2); Fin (1#4); PInf]) None.

(** One waiting time, pump axis [10, 11, 12], probe axis [1, 2, 3], and a
    signal of -1 where pump 10 meets probe 1, 11 meets 2 and 12 meets 3:
    the centre line has slope 1 and passes through 2 at the mean pump
    value. *)
Definition tilted_world : world := mkworld
  [ array1 [0#1]%Q;
    array1 [10#1; 11#1; 12#1]%Q;
    array1 [1#1; 2#1; 3#1]%Q;
    mkarray [1; 3; 3]
      [-1#1; 0#1; 0#1;  0#1; -1#1; 0#1;  0#1; 0#1; -1#1]%Q ]
  [] [].
Definition tilted_dataset : TwoDim := mkTwoDim 0 1 2 3 None None.

(** The regression [single_cls] sets up on [tilted_dataset]. *)
Definition tilted_request : reg_model :=
  mkreg [1#1; 2#1; 3#1]%Q
        [[1; -1#1]; [1; 0]; [1; 1]]%Q
        (WLS [Fin 1; Fin 1; Fin 1]).

(** A backend for the examples: peak fits that stay at the centre they
    start from and report no standard error, a regression that answers
    with the line [2 + 1 x], and polynomial fits that answer with the
    line [x]. *)
Definition example_backend : backend :=
  mkbackend
    (fun _ _ _ cen _ _ => Returns (cen, None))
    (fun _ _ => Raises (ValueError "no quadratic fit in the examples"))
    (fun _ _ => Raises (ValueError "no quadratic fit in the examples"))
    (fun _ => Returns (mknumbers [2#1; 1#1]%Q [Fin 0; Fin 0]))
    (fun _ _ _ => Returns [1#1; 0#1]%Q).

(** One waiting time, one pump value, probe axis [1, 2, 3] and a signal
    equal to the probe value: a polynomial of degree 1 along the probe
    axis. *)
Definition line_world : world := mkworld
  [ array1 [0#1]%Q;
    array1 [0#1]%Q;
    array1 [1#1; 2#1; 3#1]%Q;
    mkarray [1; 3; 1] [1#1; 2#1; 3#1]%Q ]
  [] [].
Definition line_dataset : TwoDim := mkTwoDim 0 1 2 3 None None.

(** A backend whose polynomial fit answers [x / 2 + 1 / 2]: what the
    minimum-norm least squares of [np.polyfit] gives for the single point
    [(1, 1)] and degree 1. *)
Definition minimum_norm_backend : backend :=
  mkbackend
    (gaussian_fit example_backend)
    (quadratic_vertex example_backend)
    (log_quadratic_vertex example_backend)
    (regress example_backend)
    (fun _ _ _ => Returns [1#2; 1#2]%Q).

(* ================================================================== *)
(** * More of the class *)

Unset Implicit Arguments.

(** A dataset with ascending wavenumber axes, which is what the
    constructor makes. *)
Definition ascending_dataset (w : world) (ds : TwoDim) : Prop :=
  dataset_ok w ds
  /\ Sorted Qle (data (array_at w (pump_wn ds)))
  /\ Sorted Qle (data (array_at w (probe_wn ds))).

(** A dataset whose wavenumber axes ascend strictly: no value repeats,
    and [np.argsort] has one permutation to return, whatever sort it
    runs. *)
Definition strictly_ascending_dataset (w : world) (ds : TwoDim) : Prop :=
  dataset_ok w ds
  /\ Sorted Qlt (data (array_at w (pump_wn ds)))
  /\ Sorted Qlt (data (array_at w (probe_wn ds))).

(** ** Selecting waiting times *)

(** Modelled from the spec: [skultrafast.utils.inbetween] with bounds that
    may be infinite, as the defaults [-np.inf] and [np.inf] of
    [select_t_range] are: [lower <= value <= upper] entry by entry, where
    a comparison with [nan] is false. *)
Definition bounded_below (lower : fl) (v : Q) : bool :=
  match lower with
  | Fin q => Qle_bool q v
  | NInf => true
  | PInf | NaN => false
  end.
Definition bounded_above (v : Q) (upper : fl) : bool :=
  match upper with
  | Fin q => Qle_bool v q
  | PInf => true
  | NInf | NaN => false
  end.
Definition inbetween_fl (a : list Q) (lower upper : fl) : list bool :=
  map (fun v => bounded_below lower v && bounded_above v upper) a.

(** [TwoDim.select_t_range] *)
Definition select_t_range (self : TwoDim) (t_min t_max : fl) : M TwoDim :=
  (ta <- deref (t self) ;;
   let idx := inbetween_fl (data ta) t_min t_max in
   ds <- copy self ;;
   ta' <- deref (t ds) ;;
   ta'' <- lift (compress_axis 0 idx ta') ;;
   t' <- alloc ta'' ;;
   sa <- deref (spec2d ds) ;;
   sa' <- lift (compress_axis 0 idx sa) ;;
   s' <- alloc sa' ;;
   ret (mkTwoDim t' (pump_wn ds) (probe_wn ds) s'
                 (single_cls_result_ ds) (cls_result_ ds)))%py.

(** ** Reading what was written *)

(** [a[r, c]] of a two-dimensional array. *)
Definition get2 {A} (d : A) (a : ndarray A) (r c : nat) : A :=
  nth (r * dim_of 1 (shape a) + c) (data a) d.

(** [p / f'wt_{ti:.3f}ps.txt'], the file [save_txt] writes for the waiting
    time [ti]. *)
Definition txt_path (p : path) (ti : Q) : path :=
  p ++ [("wt_" ++ (format_3f ti ++ "ps") ++ ".txt")%string].

(** The file system after the tables [tbl i] have been written to the
    files [name i], for [i] along [l]. *)
Definition written (name : nat -> path) (tbl : nat -> table_file)
           (l : list nat) (f : filesystem) : filesystem :=
  fold_left (fun f' i => (name i, File (tbl i)) :: f') l f.

(** ** Commands that only read *)

(** The store, the file system and the calls are as before, whether the
    command returns or raises. *)
Definition reads_only {A} (c : M A) : Prop := forall w, snd (c w) = w.

(** ** A pump window that holds no pump value *)

(** For a half width, [(pu < pu_max + w) & (pu > pu_max - w)] holds
    nowhere when [w] is not positive; for bounds, when no pump value lies
    within them. *)
Definition empty_window (pu : list Q) (pu_range : range_arg) : Prop :=
  match pu_range with
  | Half width => (width <= 0)%Q
  | Bounds lower upper =>
      Forall (fun v => ~ ((lower <= v)%Q /\ (v <= upper)%Q)) pu
  end.

(** ** A polynomial fit that fails *)

(** A backend as [example_backend] whose polynomial fit answers with the
    constant 1 for values that start below zero and raises for all
    others, as [np.polyfit] does when the fit does not converge. *)
Definition failing_backend : backend :=
  mkbackend
    (gaussian_fit example_backend)
    (quadratic_vertex example_backend)
    (log_quadratic_vertex example_backend)
    (regress example_backend)
    (fun _ ys _ =>
       match ys with
       | y :: _ => if Qlt_bool y 0 then Returns [1#1]%Q
                   else Raises (ValueError "SVD did not converge in Linear Least Squares")
       | [] => Raises (ValueError "SVD did not converge in Linear Least Squares")
       end).

(** ** The pump slice amplitude *)

(** [np.ptp] of one column: the largest entry minus the smallest. *)
Definition np_ptp (l : list Q) : outcome Q :=
  (hi <~ np_max l ; lo <~ np_min l ; Returns (Qred (hi - lo)))%out.

(** [np.ptp(d, axis=0)] for [d = spec2d[ti, :, :]]: a value for each pump
    position.  A probe axis of length zero has no largest entry. *)
Fixpoint ptp_rows (rows : list (list Q)) : outcome (list Q) :=
  match rows with
  | [] => Returns []
  | r :: rows' => (v <~ np_ptp r ; vs <~ ptp_rows rows' ; Returns (v :: vs))%out
  end.

(** [TwoDim.pump_slice_amp].  [np.ptp] makes a new array, which
    [diag -= ...] then changes in place: the data is only read. *)
Definition pump_slice_amp (self : TwoDim) (t0 : Q) (bg_correct : bool)
  : M (list Q) :=
  (ti <- t_idx self t0 ;;
   sa <- deref (spec2d self) ;;
   diag <- lift (if dim_of 1 (shape sa) =? 0 then Raises (zero_size "maximum")
                 else ptp_rows (pump_rows sa ti)) ;;
   if bg_correct then
     first <- lift (item 0 diag) ;;
     last <- lift (item (length diag - 1) diag) ;;
     ret (map (fun v => Qred (v - (first + last) / (2 # 1))) diag)
   else ret diag)%py.

(** ** Integrating a region *)

(** [np.trapz(a, x, axis=2)] on a three-dimensional array: a value for
    each pair of the first two indices. *)
Definition trapz_last_axis (a : ndarray Q) (x : list Q) : list (list Q) :=
  map (fun i =>
         map (fun j =>
                trapz (map (fun c => get3 0%Q a i j c)
                           (seq 0 (dim_of 2 (shape a)))) x)
             (seq 0 (dim_of 1 (shape a))))
      (seq 0 (dim_of 0 (shape a))).

(** [TwoDim.integrate_reg] on a dataset, whose data has three axes;
    [probe_range=None] stands for the pump range. *)
Definition integrate_reg (self : TwoDim) (pump_range : Q * Q)
           (probe_range : option (Q * Q)) : M (list Q) :=
  (let probe_range := match probe_range with
                      | None => pump_range
                      | Some r => r
                      end in
   ra <- deref (probe_wn self) ;;
   let pr := inbetween (data ra) (py_min probe_range) (py_max probe_range) in
   sa <- deref (spec2d self) ;;
   reg1 <- lift (compress_axis 1 pr sa) ;;
   pa <- deref (pump_wn self) ;;
   let pu := inbetween (data pa) (py_min pump_range) (py_max pump_range) in
   reg <- lift (compress_axis 2 pu reg1) ;;
   xs <- lift (compress_axis 0 pu pa) ;;
   let s := trapz_last_axis reg (data xs) in
   ys <- lift (compress_axis 0 pr ra) ;;
   ret (map (fun row => trapz row (data ys)) s))%py.

(** ** The negated data *)

(** [-a] *)
Definition negated (a : ndarray Q) : ndarray Q :=
  mkarray (shape a) (map Qopp (data a)).

(** ** The dataset object after [cls] *)

(** The dataset object after the calls of [single_cls] that returned
    [res]: in the calling process the last of them has left its result
    in [single_cls_result_]. *)
Definition after_calls (in_process : bool) (self : TwoDim)
           (res : list SingleCLSResult.t) : TwoDim :=
  mkTwoDim (t self) (pump_wn self) (probe_wn self) (spec2d self)
           (if in_process
            then last (map Some res) (single_cls_result_ self)
            else single_cls_result_ self)
           (cls_result_ self).

Set Implicit Arguments.
(* ================================================================== *)
(** * Properties *)

(** ** Lists, blocks and index arrays *)

Section ListFacts.
Context {A : Type}.

Lemma firstn_add_split (a b : nat) (l : list A) :
  firstn (a + b) l = firstn a l ++ firstn b (skipn a l).
Proof.
  revert l; induction a as [|a IH]; intros l; simpl; [reflexivity|].
  destruct l as [|x l]; simpl.
  - now rewrite firstn_nil.
  - now rewrite IH.
Qed.

Lemma block_length (c : nat) (d : list A) (b : nat) :
  (b + 1) * c <= length d -> length (block c d b) = c.
Proof.
  intros H. unfold block.
  rewrite firstn_length_le; [reflexivity|].
  rewrite length_skipn. lia.
Qed.

Lemma block_nth (c : nat) (d : list A) (b j : nat) (x : A) :
  j < c -> nth j (block c d b) x = nth (b * c + j) d x.
Proof.
  intros H. unfold block.
  rewrite nth_firstn.
  apply Nat.ltb_lt in H. rewrite H.
  apply nth_skipn.
Qed.

Lemma block_one (d : list A) (i : nat) (x : A) :
  i < length d -> block 1 d i = [nth i d x].
Proof.
  intros H. unfold block. rewrite Nat.mul_1_r.
  revert i H; induction d as [|y d IH]; intros i H; simpl in H; [lia|].
  destruct i as [|i]; simpl.
  - reflexivity.
  - apply IH. lia.
Qed.

(** Consecutive blocks put back together. *)
Lemma blocks_run (c : nat) (d : list A) (s n : nat) :
  flat_map (fun i => block c d (s + i)) (seq 0 n)
  = firstn (n * c) (skipn (s * c) d).
Proof.
  induction n as [|n IH].
  - reflexivity.
  - rewrite seq_S, flat_map_app, IH. simpl flat_map. rewrite app_nil_r.
    replace (S n * c) with (n * c + c) by lia.
    rewrite firstn_add_split. f_equal.
    unfold block. rewrite skipn_skipn. f_equal. f_equal. lia.
Qed.

Lemma nth_flat_map_uniform {B : Type} (f : B -> list A) (c : nat)
      (l : list B) (i j : nat) (x : A) (y : B) :
  (forall b, In b l -> length (f b) = c) ->
  i < length l -> j < c ->
  nth (i * c + j) (flat_map f l) x = nth j (f (nth i l y)) x.
Proof.
  revert i; induction l as [|b l IH]; intros i Hc Hi Hj; simpl in Hi; [lia|].
  simpl flat_map. destruct i as [|i].
  - simpl. rewrite app_nth1; [reflexivity|].
    rewrite Hc; [assumption | now left].
  - rewrite app_nth2; rewrite (Hc b) by now left.
    + replace (S i * c + j - c) with (i * c + j) by lia.
      simpl nth. apply IH; [|lia|assumption].
      intros b' Hb'. apply Hc. now right.
    + simpl. lia.
Qed.
End ListFacts.

Lemma prod_dims_app (s1 s2 : list nat) :
  prod_dims (s1 ++ s2) = prod_dims s1 * prod_dims s2.
Proof.
  induction s1 as [|a s1 IH]; simpl.
  - lia.
  - rewrite IH. lia.
Qed.

Lemma shape_split (ax : nat) (s : list nat) :
  ax < length s -> firstn ax s ++ dim_of ax s :: skipn (S ax) s = s.
Proof.
  unfold dim_of.
  revert s; induction ax as [|ax IH]; intros [|n s] H; simpl in *; try lia.
  - reflexivity.
  - f_equal. apply IH. lia.
Qed.

Lemma prod_dims_split (ax : nat) (s : list nat) :
  ax < length s ->
  prod_dims s = outer_of ax s * dim_of ax s * inner_of ax s.
Proof.
  intros H. unfold outer_of, dim_of, inner_of.
  rewrite <- (@shape_split ax s H) at 1.
  rewrite prod_dims_app. simpl. unfold dim_of. lia.
Qed.

Lemma nonzero_from_all (i n : nat) :
  nonzero_from i (repeat true n) = seq i n.
Proof.
  revert i; induction n as [|n IH]; intros i; simpl; [reflexivity|].
  now rewrite IH.
Qed.

Lemma forallb_lt_iff (n : nat) (idx : list nat) :
  forallb (fun i => i <? n) idx = true <-> Forall (fun i => i < n) idx.
Proof.
  rewrite forallb_forall, Forall_forall.
  split; intros H i Hi; specialize (H i Hi); now apply Nat.ltb_lt.
Qed.

(** ** What [take_axis] returns *)

Section TakeAxis.
Context {A : Type}.
Implicit Types (a : ndarray A) (idx : list nat).


Lemma take_axis_ok ax idx a :
  ax < length (shape a) ->
  Forall (fun i => i < dim_of ax (shape a)) idx ->
  take_axis ax idx a = Returns (taken ax idx a).
Proof.
  intros Hax Hidx. unfold take_axis.
  apply Nat.ltb_lt in Hax. rewrite Hax. simpl.
  apply forallb_lt_iff in Hidx. rewrite Hidx. reflexivity.
Qed.

(** The entry at position [(o, j, r)] of the result is the entry at
    [(o, idx[j], r)] of the source. *)
Lemma taken_nth ax idx a (o j r : nat) (x : A) :
  wf_array a ->
  ax < length (shape a) ->
  Forall (fun i => i < dim_of ax (shape a)) idx ->
  o < outer_of ax (shape a) -> j < length idx -> r < inner_of ax (shape a) ->
  nth ((o * length idx + j) * inner_of ax (shape a) + r) (data (taken ax idx a)) x
  = nth ((o * dim_of ax (shape a) + nth j idx 0) * inner_of ax (shape a) + r)
        (data a) x.
Proof.
  intros Hwf Hax Hidx Ho Hj Hr.
  set (c := inner_of ax (shape a)) in *.
  set (dm := dim_of ax (shape a)) in *.
  set (ou := outer_of ax (shape a)) in *.
  assert (Hlen : length (data a) = ou * dm * c).
  { unfold wf_array, size in Hwf. rewrite Hwf. now apply prod_dims_split. }
  assert (Hblk : forall o' i, o' < ou -> In i idx ->
                   length (block c (data a) (o' * dm + i)) = c).
  { intros o' i Ho' Hi. apply block_length.
    rewrite Forall_forall in Hidx. specialize (Hidx i Hi).
    rewrite Hlen. apply Nat.mul_le_mono_r.
    assert (S o' * dm <= ou * dm) by (apply Nat.mul_le_mono_r; lia).
    simpl in H. lia. }
  unfold taken; simpl data. fold c dm ou.
  replace ((o * length idx + j) * c + r)
    with (o * (length idx * c) + (j * c + r)) by lia.
  rewrite nth_flat_map_uniform with (c := length idx * c) (y := 0).
  - rewrite seq_nth by assumption. simpl.
    rewrite nth_flat_map_uniform with (c := c) (y := 0).
    + now rewrite block_nth.
    + intros i Hi. now apply Hblk.
    + assumption.
    + assumption.
  - intros o' Ho'. apply in_seq in Ho'.
    apply flat_map_constant_length.
    intros i Hi. apply Hblk; [lia | assumption].
  - now rewrite length_seq.
  - nia.
Qed.

(** Taking every index in order gives the array back. *)
Lemma taken_all ax a :
  wf_array a -> ax < length (shape a) ->
  taken ax (seq 0 (dim_of ax (shape a))) a = a.
Proof.
  intros Hwf Hax. destruct a as [s d]. unfold taken; simpl in *.
  f_equal.
  - rewrite length_seq. now apply shape_split.
  - transitivity (flat_map (block (dim_of ax s * inner_of ax s) d)
                           (seq 0 (outer_of ax s))).
    + apply flat_map_ext. intros o.
      rewrite blocks_run. unfold block.
      f_equal. f_equal. lia.
    + rewrite (blocks_run _ d 0 (outer_of ax s)). simpl.
      unfold wf_array, size in Hwf; simpl in Hwf.
      rewrite (@prod_dims_split ax s Hax) in Hwf.
      rewrite <- Nat.mul_assoc in Hwf. rewrite <- Hwf.
      apply firstn_all.
Qed.
End TakeAxis.

Lemma taken_wf {A} ax idx (a : ndarray A) :
  wf_array a -> ax < length (shape a) ->
  Forall (fun i => i < dim_of ax (shape a)) idx ->
  wf_array (taken ax idx a).
Proof.
  intros Hwf Hax Hidx. unfold wf_array, size, taken; simpl.
  assert (Hlen : length (data a)
                 = outer_of ax (shape a) * dim_of ax (shape a) * inner_of ax (shape a)).
  { unfold wf_array, size in Hwf. rewrite Hwf. now apply prod_dims_split. }
  rewrite prod_dims_app. simpl.
  rewrite flat_map_constant_length with (c := length idx * inner_of ax (shape a)).
  - rewrite length_seq. reflexivity.
  - intros o Ho. apply in_seq in Ho.
    apply flat_map_constant_length. intros i Hi.
    apply block_length. rewrite Forall_forall in Hidx. specialize (Hidx i Hi).
    rewrite Hlen. apply Nat.mul_le_mono_r.
    assert (S o * dim_of ax (shape a) <= outer_of ax (shape a) * dim_of ax (shape a))
      by (apply Nat.mul_le_mono_r; lia).
    simpl in H. lia.
Qed.

Lemma taken_shape {A} ax idx (a : ndarray A) :
  shape (taken ax idx a)
  = firstn ax (shape a) ++ length idx :: skipn (S ax) (shape a).
Proof. reflexivity. Qed.

Lemma reindexed_get3 {A} (d : A) (sa : ndarray A) (n m k : nat) (i1 i2 : list nat)
      (i j c : nat) :
  wf_array sa -> shape sa = [n; m; k] ->
  Forall (fun x => x < k) i1 -> Forall (fun x => x < m) i2 ->
  i < n -> j < length i2 -> c < length i1 ->
  get3 d (taken 1 i2 (taken 2 i1 sa)) i j c
  = get3 d sa i (nth j i2 0) (nth c i1 0).
Proof.
  intros Hwf Hs H1 H2 Hi Hj Hc.
  set (sb := taken 2 i1 sa).
  assert (Hsb : shape sb = [n; m; length i1]).
  { unfold sb. now rewrite taken_shape, Hs. }
  assert (Wsb : wf_array sb).
  { apply taken_wf; rewrite ?Hs; simpl; auto. }
  assert (Hj2 : nth j i2 0 < m).
  { rewrite Forall_forall in H2. apply H2, nth_In, Hj. }
  assert (E2 : nth ((i * m + nth j i2 0) * length i1 + c) (data sb) d
               = nth ((i * m + nth j i2 0) * k + nth c i1 0) (data sa) d).
  { pose proof (@taken_nth A 2 i1 sa (i * m + nth j i2 0) c 0 d Hwf) as E.
    rewrite Hs in E. unfold dim_of, inner_of, outer_of in E.
    cbn [nth firstn skipn prod_dims fold_right length] in E.
    rewrite !Nat.mul_1_r, !Nat.add_0_r in E.
    apply E; try assumption; try lia. nia. }
  clearbody sb.
  unfold get3. rewrite taken_shape, Hsb, Hs. unfold dim_of.
  cbn [nth firstn skipn app].
  pose proof (@taken_nth A 1 i2 sb i j c d Wsb) as E1.
  rewrite Hsb in E1. unfold dim_of, inner_of, outer_of in E1.
  cbn [nth firstn skipn prod_dims fold_right length] in E1.
  rewrite !Nat.mul_1_r in E1.
  rewrite E1; try assumption; lia.
Qed.

(** ** [argsort]: a permutation of the indices that sorts the values *)


Lemma insert_pair_perm (p : Q * nat) (l : list (Q * nat)) :
  Permutation (insert_pair p l) (p :: l).
Proof.
  induction l as [|q l IH]; simpl.
  - apply Permutation_refl.
  - destruct (Qle_bool (fst p) (fst q)).
    + apply Permutation_refl.
    + eapply perm_trans; [apply perm_skip, IH | apply perm_swap].
Qed.

Lemma sort_pairs_perm (l : list (Q * nat)) : Permutation (sort_pairs l) l.
Proof.
  induction l as [|p l IH]; simpl.
  - constructor.
  - eapply perm_trans; [apply insert_pair_perm | now apply perm_skip].
Qed.

Lemma insert_pair_hd (p x : Q * nat) (l : list (Q * nat)) :
  pair_le x p -> HdRel pair_le x l -> HdRel pair_le x (insert_pair p l).
Proof.
  intros Hxp Hx. destruct l as [|q l]; simpl.
  - now constructor.
  - destruct (Qle_bool (fst p) (fst q)); constructor; try assumption.
    now inversion Hx.
Qed.

Lemma insert_pair_sorted (p : Q * nat) (l : list (Q * nat)) :
  Sorted pair_le l -> Sorted pair_le (insert_pair p l).
Proof.
  induction 1 as [|q l Hs IH Hq]; simpl.
  - repeat constructor.
  - destruct (Qle_bool (fst p) (fst q)) eqn:E.
    + constructor; [now constructor|].
      constructor. now apply Qle_bool_iff.
    + constructor; [assumption|].
      apply insert_pair_hd; [|assumption].
      unfold pair_le. apply Qlt_le_weak, Qnot_le_lt.
      intros C. apply Qle_bool_iff in C. congruence.
Qed.

Lemma sort_pairs_sorted (l : list (Q * nat)) : Sorted pair_le (sort_pairs l).
Proof.
  induction l as [|p l IH]; simpl.
  - constructor.
  - now apply insert_pair_sorted.
Qed.

Lemma map_snd_combine_seq (v : list Q) (s : nat) :
  map snd (combine v (seq s (length v))) = seq s (length v).
Proof.
  revert s; induction v as [|x v IH]; intros s; simpl; [reflexivity|].
  now rewrite IH.
Qed.

Lemma combine_seq_lookup (v : list Q) (s : nat) :
  Forall (fun p : Q * nat => s <= snd p /\ fst p = nth (snd p - s) v 0%Q)
         (combine v (seq s (length v))).
Proof.
  revert s; induction v as [|x v IH]; intros s; simpl; constructor.
  - simpl. rewrite Nat.sub_diag. split; [lia | reflexivity].
  - eapply Forall_impl; [|apply (IH (S s))].
    intros [q i] [Hle Hq]; simpl in *. split; [lia|].
    replace (i - s) with (S (i - S s)) by lia. exact Hq.
Qed.

Lemma argsort_perm (v : list Q) : Permutation (argsort v) (seq 0 (length v)).
Proof.
  unfold argsort. rewrite <- (map_snd_combine_seq v 0) at 2.
  apply Permutation_map, sort_pairs_perm.
Qed.

Lemma argsort_length (v : list Q) : length (argsort v) = length v.
Proof.
  rewrite (Permutation_length (argsort_perm v)). apply length_seq.
Qed.

Lemma argsort_bound (v : list Q) : Forall (fun i => i < length v) (argsort v).
Proof.
  rewrite Forall_forall. intros i Hi.
  apply (Permutation_in _ (argsort_perm v)) in Hi.
  apply in_seq in Hi. lia.
Qed.


Lemma sorted_values_fst (v : list Q) :
  sorted_values v = map fst (sort_pairs (combine v (seq 0 (length v)))).
Proof.
  unfold sorted_values, argsort. rewrite map_map.
  apply map_ext_in. intros [q i] Hin.
  apply (Permutation_in _ (sort_pairs_perm _)) in Hin.
  pose proof (combine_seq_lookup v 0) as F.
  rewrite Forall_forall in F. destruct (F _ Hin) as [_ E]. simpl in *.
  now rewrite Nat.sub_0_r in E.
Qed.

Lemma argsort_sorted (v : list Q) : Sorted Qle (sorted_values v).
Proof.
  rewrite sorted_values_fst.
  pose proof (sort_pairs_sorted (combine v (seq 0 (length v)))) as S.
  induction S as [|p l Hs IH Hp]; simpl.
  - constructor.
  - constructor; [assumption|].
    destruct Hp; simpl; constructor. assumption.
Qed.

(** ** Running the store monad *)

Lemma bind_deref {B} (l : loc) (k : ndarray Q -> M B) (w : world) :
  bind (deref l) k w = k (array_at w l) w.
Proof. reflexivity. Qed.

Lemma bind_alloc {B} (a : ndarray Q) (k : loc -> M B) (w : world) :
  bind (alloc a) k w = k (length (arrays w)) (extend w [a]).
Proof. reflexivity. Qed.

Lemma bind_array_copy {B} (l : loc) (k : loc -> M B) (w : world) :
  bind (array_copy l) k w = k (length (arrays w)) (extend w [array_at w l]).
Proof. reflexivity. Qed.

Lemma bind_lift_returns {A B} (o : outcome A) (a : A) (k : A -> M B) (w : world) :
  o = Returns a -> bind (lift o) k w = k a w.
Proof. intros ->. reflexivity. Qed.

Lemma bind_lift_raises {A B} (o : outcome A) (e : exn) (k : A -> M B) (w : world) :
  o = Raises e -> bind (lift o) k w = (Raises e, w).
Proof. intros ->. reflexivity. Qed.

Lemma extend_extend (w : world) (l1 l2 : list (ndarray Q)) :
  extend (extend w l1) l2 = extend w (l1 ++ l2).
Proof. unfold extend; simpl. now rewrite app_assoc. Qed.

Lemma extend_length (w : world) (l : list (ndarray Q)) :
  length (arrays (extend w l)) = length (arrays w) + length l.
Proof. unfold extend; simpl. apply length_app. Qed.

Lemma array_at_old (w : world) (l : list (ndarray Q)) (r : loc) :
  valid_ref w r -> array_at (extend w l) r = array_at w r.
Proof. intros H. unfold array_at, extend; simpl. now apply app_nth1. Qed.

Lemma array_at_new (w : world) (l : list (ndarray Q)) (k : nat) :
  array_at (extend w l) (length (arrays w) + k) = nth k l empty_array.
Proof.
  unfold array_at, extend; simpl.
  rewrite app_nth2 by lia. f_equal. lia.
Qed.

Lemma shape_eqb_eq (s1 s2 : list nat) : shape_eqb s1 s2 = true <-> s1 = s2.
Proof.
  unfold shape_eqb. destruct (list_eq_dec Nat.eq_dec s1 s2); split;
    intros; congruence.
Qed.

Lemma shape_eqb_refl (s : list nat) : shape_eqb s s = true.
Proof. now apply shape_eqb_eq. Qed.

Lemma shape_eqb_neq (s1 s2 : list nat) : s1 <> s2 -> shape_eqb s1 s2 = false.
Proof.
  intros H. destruct (shape_eqb s1 s2) eqn:E; [|reflexivity].
  apply shape_eqb_eq in E. contradiction.
Qed.

(** ** Index arrays on a one-dimensional array *)

Lemma take_1d (a : ndarray Q) (idx : list nat) :
  is_1d a -> Forall (fun i => i < length (data a)) idx ->
  take_axis 0 idx a = Returns (array1 (map (fun i => nth i (data a) 0%Q) idx)).
Proof.
  intros H1 Hidx. destruct a as [s d]. unfold is_1d in H1; simpl in *. subst s.
  rewrite take_axis_ok; simpl; auto.
  unfold taken, array1; simpl. rewrite length_map. f_equal. f_equal.
  unfold outer_of, inner_of, dim_of; simpl. rewrite app_nil_r.
  induction Hidx as [|i idx Hi Hidx IH]; simpl; [reflexivity|].
  rewrite IH. now rewrite (block_one d 0%Q Hi).
Qed.

Lemma size_1d {A} (a : ndarray A) : is_1d a -> size a = length (data a).
Proof. unfold is_1d, size. intros ->. simpl. lia. Qed.

(** ** The constructor on conforming input *)

Ltac step :=
  first [ rewrite bind_deref | rewrite bind_alloc | rewrite bind_array_copy ];
  cbv beta.

Lemma post_init_run (w : world) (self : TwoDim) :
  let ta := array_at w (t self) in
  let ra := array_at w (probe_wn self) in
  let pa := array_at w (pump_wn self) in
  let sa := array_at w (spec2d self) in
  let L := length (arrays w) in
  valid_ref w (t self) -> valid_ref w (probe_wn self) ->
  valid_ref w (pump_wn self) -> valid_ref w (spec2d self) ->
  is_1d pa -> is_1d ra ->
  shape sa = [size ta; size ra; size pa] ->
  attrs_post_init self w
  = (Returns (mkTwoDim (L + 3) (L + 4) (L + 5) (L + 6)
                        (single_cls_result_ self) (cls_result_ self)),
     extend w (constructed ta ra pa sa)).
Proof.
  intros ta ra pa sa L Vt Vr Vp Vs Hp Hr Hs.
  unfold attrs_post_init.
  do 4 step. fold ta ra pa sa. rewrite Hs, shape_eqb_refl.
  change (negb true) with false. cbv iota.
  do 4 step. rewrite !extend_extend, !extend_length. simpl app. simpl length.
  rewrite !array_at_old by assumption. fold ta ra pa sa L.
  step. rewrite (array_at_new w _ 2). simpl nth.
  rewrite (@bind_lift_returns _ _ _ _ _ _ (take_1d Hp (argsort_bound (data pa)))).
  step. rewrite extend_extend, extend_length. simpl app. simpl length.
  step. replace (L + 1) with (L + 1) by lia. rewrite (array_at_new w _ 1). simpl nth.
  rewrite (@bind_lift_returns _ _ _ _ _ _ (take_1d Hr (argsort_bound (data ra)))).
  step. rewrite extend_extend, extend_length. simpl app. simpl length.
  step. replace L with (L + 0) at 1 by lia. rewrite (array_at_new w _ 0). simpl nth.
  assert (T2 : take_axis 2 (argsort (data pa)) sa
               = Returns (taken 2 (argsort (data pa)) sa)).
  { apply take_axis_ok; rewrite Hs; simpl; [lia|].
    unfold dim_of; simpl. rewrite (size_1d Hp). apply argsort_bound. }
  assert (T1 : take_axis 1 (argsort (data ra)) (taken 2 (argsort (data pa)) sa)
               = Returns (taken 1 (argsort (data ra))
                                (taken 2 (argsort (data pa)) sa))).
  { apply take_axis_ok; unfold taken at 1; simpl shape; rewrite Hs; simpl; [lia|].
    unfold dim_of; simpl. rewrite (size_1d Hr). apply argsort_bound. }
  rewrite (@bind_lift_returns _ _ _ (taken 1 (argsort (data ra))
                                      (taken 2 (argsort (data pa)) sa)) _ _).
  2:{ rewrite T2. simpl. exact T1. }
  step. rewrite extend_extend, extend_length. simpl app. simpl length.
  reflexivity.
Qed.

Unset Implicit Arguments.

(** ** Construction *)

Lemma array_at_store_other (w : world) (l r : loc) (a : ndarray Q) :
  valid_ref w l -> r <> l -> array_at (snd (store l a w)) r = array_at w r.
Proof.
  unfold valid_ref. intros Hl Hne. unfold store, array_at; cbn [snd arrays].
  destruct (Nat.lt_ge_cases r l) as [Hr|Hr].
  - rewrite app_nth1 by (rewrite firstn_length_le; lia).
    rewrite nth_firstn. apply Nat.ltb_lt in Hr. now rewrite Hr.
  - rewrite app_nth2 by (rewrite firstn_length_le; lia).
    rewrite firstn_length_le by lia.
    destruct (r - l) as [|d] eqn:E; [lia|]. cbn [nth].
    rewrite nth_skipn. f_equal. lia.
Qed.

Lemma array_at_store_same (w : world) (l : loc) (a : ndarray Q) :
  valid_ref w l -> array_at (snd (store l a w)) l = a.
Proof.
  unfold valid_ref. intros Hl. unfold store, array_at; cbn [snd arrays].
  rewrite app_nth2 by (rewrite firstn_length_le; lia).
  rewrite firstn_length_le by lia. now rewrite Nat.sub_diag.
Qed.

Lemma shape_error_run (w : world) (self : TwoDim) :
  let ta := array_at w (t self) in
  let ra := array_at w (probe_wn self) in
  let pa := array_at w (pump_wn self) in
  let sa := array_at w (spec2d self) in
  shape sa <> [size ta; size ra; size pa] ->
  attrs_post_init self w
  = (Raises (shape_error (shape sa) (size ta) (size ra) (size pa)), w).
Proof.
  intros ta ra pa sa Hs. unfold attrs_post_init.
  do 4 step. fold ta ra pa sa. rewrite (shape_eqb_neq Hs). reflexivity.
Qed.

(** C7: a [spec2d] whose shape is not [(len(t), len(probe_wn), len(pump_wn))]
    makes the constructor raise a [ValueError] whose message shows the
    actual and the expected shape, with the store left as it was: nothing
    was copied or sorted.  On conforming input, with one-dimensional
    wavenumber axes, the constructor returns a dataset. *)
Theorem construction_checks_shape (w : world) (t0 pump0 probe0 spec0 : loc) :
  let ta := array_at w t0 in
  let ra := array_at w probe0 in
  let pa := array_at w pump0 in
  let sa := array_at w spec0 in
  (shape sa <> [size ta; size ra; size pa] ->
   TwoDim_new t0 pump0 probe0 spec0 w
   = (Raises (ValueError
        ("Data shape not equal to t, wn_probe, wn_pump shape"
         ++ repr_tuple (shape sa) ++ " != "
         ++ repr_tuple [size ta; size ra; size pa])%string), w))
  /\
  (shape sa = [size ta; size ra; size pa] ->
   valid_ref w t0 -> valid_ref w pump0 -> valid_ref w probe0 ->
   valid_ref w spec0 -> is_1d pa -> is_1d ra ->
   exists ds w', TwoDim_new t0 pump0 probe0 spec0 w = (Returns ds, w')).
Proof.
  intros ta ra pa sa. split.
  - intros Hs. unfold TwoDim_new. now rewrite shape_error_run.
  - intros Hs Vt Vp Vr Vs Hp Hr. unfold TwoDim_new.
    rewrite post_init_run by assumption. eauto.
Qed.

Lemma construction_checks_shape_witness :
  TwoDim_new 0 1 2 1 unsorted_world
  = (Raises (ValueError
       "Data shape not equal to t, wn_probe, wn_pump shape(3,) != (2, 2, 3)"),
     unsorted_world)
  /\ exists ds w', TwoDim_new 0 1 2 3 unsorted_world = (Returns ds, w').
Proof.
  split.
  - apply (proj1 (construction_checks_shape unsorted_world 0 1 2 1)).
    vm_compute. discriminate.
  - apply (proj2 (construction_checks_shape unsorted_world 0 1 2 3));
      vm_compute; try reflexivity; lia.
Defined.

(** C3, as the code has it: on valid input the constructor returns a
    dataset whose pump and probe axes are the caller's, reordered by the
    sorting permutations [argsort] gives, hence ascending; the waiting times
    are stored in the caller's order, the constructor has no sort for them.
    The entry at [(i, j, k)] of the stored data is the caller's entry at the
    index that carries the same three coordinates.  The four stored arrays
    are new objects: the caller's arrays are unchanged, none of them is a
    field of the dataset, and a later write through a reference the caller
    holds does not reach the dataset. *)
Theorem construction_reindexes (w : world) (t0 pump0 probe0 spec0 : loc) :
  let ta := array_at w t0 in
  let ra := array_at w probe0 in
  let pa := array_at w pump0 in
  let sa := array_at w spec0 in
  let i1 := argsort (data pa) in
  let i2 := argsort (data ra) in
  valid_ref w t0 -> valid_ref w pump0 -> valid_ref w probe0 ->
  valid_ref w spec0 ->
  is_1d pa -> is_1d ra -> wf_array sa ->
  shape sa = [size ta; size ra; size pa] ->
  exists ds w',
    TwoDim_new t0 pump0 probe0 spec0 w = (Returns ds, w')
    /\ Permutation i1 (seq 0 (size pa))
    /\ Permutation i2 (seq 0 (size ra))
    /\ array_at w' (t ds) = ta
    /\ array_at w' (pump_wn ds) = array1 (map (fun c => nth c (data pa) 0%Q) i1)
    /\ array_at w' (probe_wn ds) = array1 (map (fun j => nth j (data ra) 0%Q) i2)
    /\ Sorted Qle (data (array_at w' (pump_wn ds)))
    /\ Sorted Qle (data (array_at w' (probe_wn ds)))
    /\ shape (array_at w' (spec2d ds)) = shape sa
    /\ (forall i j c, i < size ta -> j < size ra -> c < size pa ->
          get3 0%Q (array_at w' (spec2d ds)) i j c
          = get3 0%Q sa i (nth j i2 0) (nth c i1 0))
    /\ (forall r, valid_ref w r -> array_at w' r = array_at w r)
    /\ (forall r, In r [t ds; pump_wn ds; probe_wn ds; spec2d ds] ->
          ~ valid_ref w r /\ valid_ref w' r
          /\ forall l a, valid_ref w l ->
               array_at (snd (store l a w')) r = array_at w' r).
Proof.
  intros ta ra pa sa i1 i2 Vt Vp Vr Vs Hp Hr Wsa Hs.
  set (L := length (arrays w)).
  exists (mkTwoDim (L + 3) (L + 4) (L + 5) (L + 6) None None).
  exists (extend w (constructed ta ra pa sa)).
  assert (Sp : size pa = length (data pa)) by now apply size_1d.
  assert (Sr : size ra = length (data ra)) by now apply size_1d.
  cbn [t pump_wn probe_wn spec2d].
  unfold L. rewrite !array_at_new. cbn [nth constructed].
  split; [apply post_init_run; assumption|].
  split; [rewrite Sp; apply argsort_perm|].
  split; [rewrite Sr; apply argsort_perm|].
  split; [reflexivity|].
  split; [reflexivity|].
  split; [reflexivity|].
  split; [apply argsort_sorted|].
  split; [apply argsort_sorted|].
  split.
  { rewrite !taken_shape, Hs. cbn [firstn skipn app].
    unfold i1, i2. now rewrite !argsort_length, <- Sp, <- Sr. }
  split.
  { intros i j c Hi Hj Hc.
    apply reindexed_get3 with (n := size ta) (m := size ra) (k := size pa);
      try assumption.
    - rewrite Sp. apply argsort_bound.
    - rewrite Sr. apply argsort_bound.
    - unfold i2. now rewrite argsort_length, <- Sr.
    - unfold i1. now rewrite argsort_length, <- Sp. }
  split; [intros r Vr'; now apply array_at_old|].
  intros r Hin.
  assert (Hr' : L <= r < L + 7) by (simpl in Hin; fold L in Hin; lia).
  split; [unfold valid_ref; fold L; lia|].
  split; [unfold valid_ref; rewrite extend_length; fold L; simpl; lia|].
  intros l a Vl. apply array_at_store_other.
  - unfold valid_ref in *. rewrite extend_length. lia.
  - unfold valid_ref in Vl. fold L in Vl. lia.
Qed.

Lemma construction_reindexes_witness :
  exists ds w',
    TwoDim_new 0 1 2 3 unsorted_world = (Returns ds, w')
    /\ data (array_at w' (pump_wn ds)) = [10#1; 20#1; 30#1]%Q
    /\ data (array_at w' (probe_wn ds)) = [4#1; 5#1]%Q
    /\ get3 0%Q (array_at w' (spec2d ds)) 0 0 0 = (5#1)%Q.
Proof.
  destruct (construction_reindexes unsorted_world 0 1 2 3)
    as (ds & w' & Hrun & _ & _ & _ & Hpump & Hprobe & _ & _ & _ & Hget & _);
    try (vm_compute; reflexivity); try (vm_compute; lia).
  exists ds, w'. split; [exact Hrun|].
  split; [now rewrite Hpump|].
  split; [now rewrite Hprobe|].
  rewrite Hget by (vm_compute; lia). reflexivity.
Defined.

(** C3 as stated fails for the waiting times: they are copied, not sorted. *)
Lemma construction_keeps_t_order :
  exists ds w',
    TwoDim_new 0 1 2 3 unsorted_world = (Returns ds, w')
    /\ data (array_at w' (t ds)) = [2#1; 1#1]%Q
    /\ ~ Sorted Qle (data (array_at w' (t ds))).
Proof.
  eexists. eexists. split; [vm_compute; reflexivity|].
  split; [reflexivity|].
  cbn. intros S. inversion S as [|x l _ Hd]; subst.
  inversion Hd as [|y l' Hle]; subst.
  vm_compute in Hle. apply Hle. reflexivity.
Qed.

(** ** Selecting a region *)

Lemma bind_returns {A B} (c : M A) (k : A -> M B) (w w' : world) (a : A) :
  c w = (Returns a, w') -> bind c k w = k a w'.
Proof. intros H. unfold bind. now rewrite H. Qed.

Lemma bind_raises {A B} (c : M A) (k : A -> M B) (w w' : world) (e : exn) :
  c w = (Raises e, w') -> bind c k w = (Raises e, w').
Proof. intros H. unfold bind. now rewrite H. Qed.

Lemma inbetween_covers (r : Q * Q) (axis : list Q) :
  covers r axis ->
  inbetween axis (py_min r) (py_max r) = repeat true (length axis).
Proof.
  unfold covers, inbetween.
  induction 1 as [|v axis [Hlo Hhi] _ IH]; simpl; [reflexivity|].
  rewrite IH. apply Qle_bool_iff in Hlo, Hhi. now rewrite Hlo, Hhi.
Qed.

Lemma compress_all {A} (ax : nat) (a : ndarray A) :
  wf_array a -> ax < length (shape a) ->
  compress_axis ax (repeat true (dim_of ax (shape a))) a = Returns a.
Proof.
  intros Hwf Hax. unfold compress_axis.
  apply Nat.ltb_lt in Hax as Hax'. rewrite Hax'. simpl negb. cbv iota.
  rewrite repeat_length, Nat.eqb_refl. simpl negb. cbv iota.
  unfold nonzero. rewrite nonzero_from_all.
  rewrite take_axis_ok.
  - now rewrite taken_all.
  - assumption.
  - rewrite Forall_forall. intros i Hi. apply in_seq in Hi. lia.
Qed.

Lemma array1_is_1d {A} (l : list A) : is_1d (array1 l).
Proof. reflexivity. Qed.

Lemma array1_wf {A} (l : list A) : wf_array (array1 l).
Proof. unfold wf_array, size, array1; simpl. lia. Qed.

Lemma is_1d_wf {A} (a : ndarray A) : is_1d a -> wf_array a.
Proof. intros H. unfold wf_array. now rewrite size_1d. Qed.

Lemma sorted_values_length (v : list Q) : length (sorted_values v) = length v.
Proof. unfold sorted_values. now rewrite length_map, argsort_length. Qed.

(** What the constructor stores is a dataset. *)
Lemma constructed_shape (ta ra pa sa : ndarray Q) :
  is_1d pa -> is_1d ra ->
  shape sa = [size ta; size ra; size pa] ->
  shape (taken 1 (argsort (data ra)) (taken 2 (argsort (data pa)) sa))
  = [size ta; size ra; size pa].
Proof.
  intros Hp Hr Hs. rewrite !taken_shape, Hs. cbn [firstn skipn app].
  now rewrite !argsort_length, <- (size_1d Hp), <- (size_1d Hr).
Qed.

Lemma constructed_wf (ta ra pa sa : ndarray Q) :
  is_1d pa -> is_1d ra -> wf_array sa ->
  shape sa = [size ta; size ra; size pa] ->
  wf_array (taken 1 (argsort (data ra)) (taken 2 (argsort (data pa)) sa)).
Proof.
  intros Hp Hr Wsa Hs.
  assert (B2 : Forall (fun i => i < dim_of 2 (shape sa)) (argsort (data pa))).
  { rewrite Hs. unfold dim_of; simpl. rewrite (size_1d Hp). apply argsort_bound. }
  apply taken_wf.
  - apply taken_wf; [assumption | rewrite Hs; simpl; lia | assumption].
  - rewrite taken_shape, Hs. simpl. lia.
  - rewrite taken_shape, Hs. unfold dim_of; simpl.
    rewrite (size_1d Hr). apply argsort_bound.
Qed.

Lemma copy_run (w : world) (self : TwoDim) :
  dataset_ok w self ->
  let ta := array_at w (t self) in
  let ra := array_at w (probe_wn self) in
  let pa := array_at w (pump_wn self) in
  let sa := array_at w (spec2d self) in
  let L := length (arrays w) in
  copy self w = (Returns (mkTwoDim (L + 3) (L + 4) (L + 5) (L + 6) None None),
                 extend w (constructed ta ra pa sa)).
Proof.
  intros (Vt & Vp & Vr & Vs & Ht & Hp & Hr & Wsa & Hs). cbv zeta.
  unfold copy, TwoDim_new. now rewrite post_init_run.
Qed.

(** The constructor establishes the class invariant. *)
Lemma construction_gives_dataset (w : world) (t0 pump0 probe0 spec0 : loc) :
  let ta := array_at w t0 in
  let ra := array_at w probe0 in
  let pa := array_at w pump0 in
  let sa := array_at w spec0 in
  valid_ref w t0 -> valid_ref w pump0 -> valid_ref w probe0 ->
  valid_ref w spec0 ->
  is_1d ta -> is_1d pa -> is_1d ra -> wf_array sa ->
  shape sa = [size ta; size ra; size pa] ->
  exists ds w',
    TwoDim_new t0 pump0 probe0 spec0 w = (Returns ds, w') /\ dataset_ok w' ds.
Proof.
  intros ta ra pa sa Vt Vp Vr Vs Ht Hp Hr Wsa Hs.
  set (L := length (arrays w)).
  exists (mkTwoDim (L + 3) (L + 4) (L + 5) (L + 6) None None).
  exists (extend w (constructed ta ra pa sa)).
  split; [unfold TwoDim_new; now rewrite post_init_run|].
  unfold dataset_ok. cbn [t pump_wn probe_wn spec2d].
  unfold valid_ref. rewrite extend_length. unfold L.
  rewrite !array_at_new. cbn [nth constructed length].
  repeat (split; [lia|]).
  split; [exact Ht|].
  split; [apply array1_is_1d|].
  split; [apply array1_is_1d|].
  split; [now apply (constructed_wf ta ra pa sa)|].
  rewrite (constructed_shape ta ra pa sa) by assumption.
  unfold size at 5 6. cbn [shape array1 prod_dims fold_right].
  rewrite !sorted_values_length, !Nat.mul_1_r.
  now rewrite (size_1d Hp), (size_1d Hr).
Qed.

(** C8: on a dataset, [select_range] without [invert] and with ranges that
    cover both wavenumber axes returns a dataset of new array objects whose
    axes and data equal those of [copy()]. *)
Theorem select_full_range_is_copy (w : world) (self : TwoDim)
        (pump_range probe_range : Q * Q) :
  dataset_ok w self ->
  covers pump_range (data (array_at w (pump_wn self))) ->
  covers probe_range (data (array_at w (probe_wn self))) ->
  exists c w1 d w2,
    copy self w = (Returns c, w1)
    /\ select_range self pump_range probe_range false w = (Returns d, w2)
    /\ array_at w2 (t d) = array_at w1 (t c)
    /\ array_at w2 (pump_wn d) = array_at w1 (pump_wn c)
    /\ array_at w2 (probe_wn d) = array_at w1 (probe_wn c)
    /\ array_at w2 (spec2d d) = array_at w1 (spec2d c)
    /\ (forall r, In r [t d; pump_wn d; probe_wn d; spec2d d] ->
          ~ valid_ref w r /\ valid_ref w2 r).
Proof.
  intros Hok Cp Cr.
  pose proof (copy_run w self Hok) as Hcopy. cbv zeta in Hcopy.
  destruct Hok as (Vt & Vp & Vr & Vs & Ht & Hp & Hr & Wsa & Hs).
  set (ta := array_at w (t self)) in *.
  set (ra := array_at w (probe_wn self)) in *.
  set (pa := array_at w (pump_wn self)) in *.
  set (sa := array_at w (spec2d self)) in *.
  set (L := length (arrays w)) in *.
  set (sc := taken 1 (argsort (data ra)) (taken 2 (argsort (data pa)) sa)).
  set (pc := array1 (sorted_values (data pa))).
  set (rc := array1 (sorted_values (data ra))).
  exists (mkTwoDim (L + 3) (L + 4) (L + 5) (L + 6) None None).
  exists (extend w (constructed ta ra pa sa)).
  exists (mkTwoDim (L + 3) (L + 8) (L + 9) (L + 7) None None).
  exists (extend w (constructed ta ra pa sa ++ [sc; pc; rc])).
  split; [exact Hcopy|].
  assert (Ssc : shape sc = [size ta; size ra; size pa])
    by now apply (constructed_shape ta ra pa sa).
  assert (Wsc : wf_array sc) by now apply (constructed_wf ta ra pa sa).
  split.
  { unfold select_range. do 2 step. fold pa ra.
    rewrite (inbetween_covers _ _ Cp), (inbetween_covers _ _ Cr).
    unfold lift at 1. unfold bind at 1. cbn [fst snd].
    rewrite (bind_returns _ _ _ _ _ Hcopy). cbn [t pump_wn probe_wn spec2d].
    step. unfold L. rewrite (array_at_new w _ 6). cbn [nth constructed].
    fold sc.
    assert (E1 : compress_axis 1 (repeat true (length (data ra))) sc = Returns sc).
    { replace (length (data ra)) with (dim_of 1 (shape sc))
        by (rewrite Ssc; unfold dim_of; simpl; now apply size_1d).
      apply compress_all; [assumption | rewrite Ssc; simpl; lia]. }
    assert (E2 : compress_axis 2 (repeat true (length (data pa))) sc = Returns sc).
    { replace (length (data pa)) with (dim_of 2 (shape sc))
        by (rewrite Ssc; unfold dim_of; simpl; now apply size_1d).
      apply compress_all; [assumption | rewrite Ssc; simpl; lia]. }
    rewrite (@bind_lift_returns _ _ _ sc)
      by (cbn [index_axis]; rewrite E1; cbn [obind]; exact E2).
    step. rewrite extend_extend, extend_length.
    step. rewrite (array_at_new w _ 4). cbn [nth constructed app]. fold pc.
    rewrite (@bind_lift_returns _ _ _ pc).
    2:{ cbn [index_axis].
        replace (length (data pa)) with (dim_of 0 (shape pc))
          by (unfold pc, dim_of; simpl; apply sorted_values_length).
        apply compress_all; [apply array1_wf | simpl; lia]. }
    step. rewrite extend_extend, extend_length.
    step. rewrite (array_at_new w _ 5). cbn [nth constructed app]. fold rc.
    rewrite (@bind_lift_returns _ _ _ rc).
    2:{ cbn [index_axis].
        replace (length (data ra)) with (dim_of 0 (shape rc))
          by (unfold rc, dim_of; simpl; apply sorted_values_length).
        apply compress_all; [apply array1_wf | simpl; lia]. }
    step. rewrite extend_extend, extend_length.
    unfold ret. cbn [length app constructed]. fold L sc pc rc.
    reflexivity. }
  cbn [t pump_wn probe_wn spec2d]. unfold L.
  rewrite !array_at_new. cbn [nth constructed app]. fold L.
  repeat (split; [reflexivity|]).
  intros r Hin. unfold valid_ref. rewrite extend_length. fold L.
  simpl in Hin. simpl length. lia.
Qed.

Lemma sorted_dataset_ok : dataset_ok sorted_world sorted_dataset.
Proof.
  unfold dataset_ok. vm_compute.
  repeat split; try reflexivity; lia.
Qed.

Ltac covers_by_computation :=
  unfold covers;
  repeat (constructor; [split; apply Qle_bool_iff; reflexivity|]);
  constructor.

Lemma select_full_range_is_copy_witness :
  exists c w1 d w2,
    copy sorted_dataset sorted_world = (Returns c, w1)
    /\ select_range sorted_dataset (10#1, 30#1)%Q (5#1, 4#1)%Q false sorted_world
       = (Returns d, w2)
    /\ array_at w2 (spec2d d) = array_at w1 (spec2d c).
Proof.
  destruct (select_full_range_is_copy sorted_world sorted_dataset
              (10#1, 30#1)%Q (5#1, 4#1)%Q)
    as (c & w1 & d & w2 & Hc & Hd & _ & _ & _ & Hs & _).
  - exact sorted_dataset_ok.
  - covers_by_computation.
  - covers_by_computation.
  - exists c, w1, d, w2. auto.
Defined.

Lemma inbetween_length (a : list Q) (lo hi : Q) :
  length (inbetween a lo hi) = length a.
Proof. apply length_map. Qed.

Lemma py_not_many (m : list bool) :
  1 < length m -> py_not m = Raises ambiguous_truth.
Proof.
  destruct m as [|b [|b' m]]; simpl; intros H; try lia. reflexivity.
Qed.

(** C2: with [invert=True] the code means to invert the two masks and
    slips: it hands them to Python's [not], which asks a whole array for
    its truth value, where [~] would invert it entry by entry.  On axes of
    more than one value that raises a [ValueError] at the pump mask: no
    dataset is returned and the store is as before. *)
Theorem select_range_invert_raises (w : world) (self : TwoDim)
        (pump_range probe_range : Q * Q) :
  1 < length (data (array_at w (pump_wn self))) ->
  1 < length (data (array_at w (probe_wn self))) ->
  select_range self pump_range probe_range true w
  = (Raises ambiguous_truth, w).
Proof.
  intros Hp _. unfold select_range. do 2 step.
  apply bind_lift_raises.
  rewrite py_not_many; [reflexivity|].
  now rewrite inbetween_length.
Qed.

Lemma select_range_invert_raises_witness :
  select_range sorted_dataset (10#1, 20#1)%Q (4#1, 4#1)%Q true sorted_world
  = (Raises ambiguous_truth, sorted_world).
Proof.
  apply select_range_invert_raises; vm_compute; lia.
Defined.

(** On a dataset with three pump and two probe values the call with
    [invert=False] returns the selected region, and the call with
    [invert=True] returns nothing at all. *)
Lemma select_range_invert_differs :
  (exists d w',
     select_range sorted_dataset (10#1, 20#1)%Q (4#1, 4#1)%Q false sorted_world
     = (Returns d, w')
     /\ data (array_at w' (spec2d d)) = [5#1; 6#1; 11#1; 12#1]%Q)
  /\ fst (select_range sorted_dataset (10#1, 20#1)%Q (4#1, 4#1)%Q true
                       sorted_world)
     = Raises ambiguous_truth
  /\ fst (select_range sorted_dataset (10#1, 20#1)%Q (4#1, 4#1)%Q true
                       sorted_world)
     <> fst (select_range sorted_dataset (10#1, 20#1)%Q (4#1, 4#1)%Q false
                          sorted_world).
Proof.
  split; [|split].
  - eexists. eexists. split; vm_compute; reflexivity.
  - vm_compute. reflexivity.
  - vm_compute. discriminate.
Qed.

(** ** Text export *)

Lemma is_file_not_directory (f : filesystem) (p : path) :
  is_file f p = true -> is_directory f p = false.
Proof.
  unfold is_file, is_directory. destruct p as [|x p]; [discriminate|].
  destruct (fs_lookup f (x :: p)) as [[|c]|]; congruence.
Qed.

(** The run of [save_txt] on a destination that is not a directory. *)
Lemma save_txt_not_dir (w : world) (self : TwoDim) (p : path) :
  is_directory (fs w) p = false ->
  save_txt self p w = (Raises (not_a_directory p), log_call (SysIsDir p) w).
Proof.
  intros H. unfold save_txt, bind, is_dir. rewrite H. reflexivity.
Qed.

Lemma appends_ret {A} (a : A) : appends_calls (ret a).
Proof. intros w. exists []. simpl. now rewrite app_nil_r. Qed.

Lemma appends_raise {A} (e : exn) : appends_calls (@raise A e).
Proof. intros w. exists []. simpl. now rewrite app_nil_r. Qed.

Lemma appends_lift {A} (o : outcome A) : appends_calls (lift o).
Proof. intros w. exists []. simpl. now rewrite app_nil_r. Qed.

Lemma appends_deref (l : loc) : appends_calls (deref l).
Proof. intros w. exists []. simpl. now rewrite app_nil_r. Qed.

Lemma appends_bind {A B} (c : M A) (k : A -> M B) :
  appends_calls c -> (forall a, appends_calls (k a)) -> appends_calls (bind c k).
Proof.
  intros Hc Hk w. unfold bind.
  destruct (Hc w) as [m1 E1]. destruct (c w) as [[a|e] w1]; simpl in *.
  - destruct (Hk a w1) as [m2 E2]. exists (m1 ++ m2).
    now rewrite E2, E1, app_assoc.
  - now exists m1.
Qed.

Lemma appends_savetxt (fname : path) (c : table_file) :
  appends_calls (savetxt fname c).
Proof.
  intros w. exists [SysWrite fname]. unfold savetxt.
  destruct (is_directory (fs w) fname); [reflexivity|].
  destruct (is_directory (fs w) (removelast fname)); [reflexivity|].
  destruct (is_file (fs w) (removelast fname)); reflexivity.
Qed.

Lemma appends_for_each {A} (l : list A) (body : A -> M unit) :
  (forall x, appends_calls (body x)) -> appends_calls (for_each l body).
Proof.
  intros Hb. induction l as [|x l IH]; simpl.
  - apply appends_ret.
  - apply appends_bind; [apply Hb | intros _; exact IH].
Qed.

Lemma appends_save_single_txt (self : TwoDim) (fname : path) (i : nat) :
  appends_calls (save_single_txt self fname i).
Proof.
  unfold save_single_txt.
  repeat (apply appends_bind; [apply appends_deref | intros ?]).
  apply appends_bind; [apply appends_lift | intros ?].
  apply appends_savetxt.
Qed.

(** The run of [save_txt] on an existing directory: [is_dir], then
    [mkdir], then the loop. *)
Lemma save_txt_dir (w : world) (self : TwoDim) (p : path) :
  is_directory (fs w) p = true ->
  exists more,
    calls (snd (save_txt self p w)) = calls w ++ SysIsDir p :: SysMkdir p :: more.
Proof.
  intros H.
  set (w2 := log_call (SysMkdir p) (log_call (SysIsDir p) w)).
  set (rest :=
    (sa <- deref (spec2d self) ;;
     ta <- deref (t self) ;;
     n <- lift (match shape sa with
                | [] => Raises IndexError
                | n :: _ => Returns n
                end) ;;
     for_each (seq 0 n) (fun i =>
       ti <- lift (if i <? length (data ta) then Returns (nth i (data ta) 0%Q)
                   else Raises IndexError) ;;
       save_single_txt self
         (p ++ [("wt_" ++ (format_3f ti ++ "ps") ++ ".txt")%string]) i))%py).
  assert (E : save_txt self p w = rest w2).
  { unfold save_txt, bind at 1, is_dir. rewrite H. cbn [negb].
    unfold bind at 1. unfold bind at 1. unfold mkdir_parents_exist_ok.
    cbn [fs log_call]. rewrite H. reflexivity. }
  assert (Hrest : appends_calls rest).
  { unfold rest.
    apply appends_bind; [apply appends_deref | intros sa].
    apply appends_bind; [apply appends_deref | intros ta].
    apply appends_bind; [apply appends_lift | intros n].
    apply appends_for_each. intros i.
    apply appends_bind; [apply appends_lift | intros ti].
    apply appends_save_single_txt. }
  destruct (Hrest w2) as [more Hmore]. exists more.
  rewrite E, Hmore. unfold w2; simpl. now rewrite <- !app_assoc.
Qed.

(** C9: when the destination exists and is a file, [save_txt] raises its
    [ValueError] right after the directory test: the file system is as it
    was and no file has been opened for writing. *)
Theorem save_txt_refuses_file (w : world) (self : TwoDim) (p : path) :
  is_file (fs w) p = true ->
  exists w',
    save_txt self p w = (Raises (not_a_directory p), w')
    /\ fs w' = fs w
    /\ arrays w' = arrays w
    /\ calls w' = calls w ++ [SysIsDir p].
Proof.
  intros H. exists (log_call (SysIsDir p) w).
  split; [|repeat split].
  apply save_txt_not_dir. now apply is_file_not_directory.
Qed.

Lemma save_txt_refuses_file_witness :
  exists w',
    save_txt sorted_dataset ["notes"] disk_world
    = (Raises (ValueError "notes is not a directory"), w')
    /\ fs w' = disk
    /\ arrays w' = arrays disk_world
    /\ calls w' = [SysIsDir ["notes"]].
Proof.
  apply (save_txt_refuses_file disk_world sorted_dataset ["notes"]).
  reflexivity.
Defined.

(** C10, as the code has it: a destination that is not an existing
    directory, missing or not, makes [save_txt] raise its [ValueError] with
    the file system untouched and [mkdir] not called; [save_txt] returns
    only when the directory already exists.  [mkdir] is the second operand
    of the [or]: it runs exactly when the directory exists, where it
    changes nothing. *)
Theorem save_txt_needs_directory (w : world) (self : TwoDim) (p : path) :
  (is_directory (fs w) p = false ->
   save_txt self p w = (Raises (not_a_directory p), log_call (SysIsDir p) w))
  /\ (fst (save_txt self p w) = Returns tt -> is_directory (fs w) p = true)
  /\ (is_directory (fs w) p = true ->
      mkdir_parents_exist_ok p w = (Returns tt, log_call (SysMkdir p) w)
      /\ exists more,
           calls (snd (save_txt self p w))
           = calls w ++ SysIsDir p :: SysMkdir p :: more).
Proof.
  split; [|split].
  - apply save_txt_not_dir.
  - intros Hret. destruct (is_directory (fs w) p) eqn:E; [reflexivity|].
    rewrite (save_txt_not_dir w self p E) in Hret. discriminate.
  - intros H. split.
    + unfold mkdir_parents_exist_ok. now rewrite H.
    + now apply save_txt_dir.
Qed.

Lemma save_txt_needs_directory_witness :
  save_txt sorted_dataset ["new"] disk_world
  = (Raises (ValueError "new is not a directory"),
     log_call (SysIsDir ["new"]) disk_world)
  /\ exists more,
       calls (snd (save_txt sorted_dataset ["out"] disk_world))
       = SysIsDir ["out"] :: SysMkdir ["out"] :: more.
Proof.
  split.
  - apply (proj1 (save_txt_needs_directory disk_world sorted_dataset ["new"])).
    reflexivity.
  - apply (proj2 (proj2 (save_txt_needs_directory disk_world sorted_dataset
                           ["out"]))).
    reflexivity.
Defined.

(** C10 as stated fails in its account of [mkdir]: on an existing
    directory [save_txt] does not raise, and [mkdir] has been called. *)
Lemma save_txt_calls_mkdir_when_it_returns :
  fst (save_txt sorted_dataset ["out"] disk_world) = Returns tt
  /\ In (SysMkdir ["out"]) (calls (snd (save_txt sorted_dataset ["out"] disk_world))).
Proof.
  split.
  - vm_compute. reflexivity.
  - vm_compute. right. left. reflexivity.
Qed.

(** ** The exponential fit of the slopes *)

Lemma np_min_nonempty (l : list Q) :
  l <> [] -> exists smin, np_min l = Returns smin.
Proof. destruct l as [|x l]; [congruence|]. intros _. simpl. eauto. Qed.

Ltac each_param H :=
  repeat (destruct H as [<-|H]); [..|destruct H].

Ltac by_length l H tac :=
  destruct l as [|? l];
  [ tac | simpl in H; try (exfalso; lia); by_length l H tac ].

Ltac check_request :=
  split; [left; reflexivity|];
  split; [reflexivity|];
  split; [intros p Hp; cbn in Hp; each_param Hp;
          solve [ left; reflexivity
                | right; cbn; repeat split; try reflexivity; discriminate ]|];
  repeat split.

(** The request [exp_fit] makes, for each number of exponentials the
    prefixes allow. *)
Lemma exp_fit_request_spec (self : FFCFResult) (start_taus : list Q)
        (use_const use_weights : bool) :
  length start_taus <= 7 ->
  (use_const = true -> slopes self <> []) ->
  exists req c0,
    exp_fit_request self start_taus use_const use_weights = Returns req
    /\ (if use_const
        then exists smin, np_min (slopes self) = Returns smin
                          /\ c0 = Qmax2 smin 0%Q
        else c0 = 0%Q)
    /\ In (mkparam "c" c0 None use_const) (req_params req)
    /\ length (req_params req) = 1 + 2 * length start_taus
    /\ (forall p, In p (req_params req) ->
          p = mkparam "c" c0 None use_const
          \/ (pname p <> "c"
              /\ (ends_with "amplitude" (pname p) || ends_with "decay" (pname p)
                  = true)
              /\ pmin p = Some 0%Q /\ pvary p = true))
    /\ req_weights req
       = match slope_errors self with
         | Some errs => if use_weights then Some (map fl_inv errs) else None
         | None => None
         end
    /\ req_data req = slopes self /\ req_x req = wt self.
Proof.
  intros Hlen Hne. destruct self as [wt0 sl errs cached].
  cbn [slopes slope_errors wt] in *.
  destruct use_const.
  - destruct (np_min_nonempty sl (Hne eq_refl)) as [smin Hmin].
    by_length start_taus Hlen
      ltac:(eexists; exists (Qmax2 smin 0%Q);
            unfold exp_fit_request; cbn [slopes slope_errors wt];
            rewrite Hmin; cbn -[Qmax2 fl_inv Qdiv];
            split; [reflexivity|]; cbn -[Qmax2 fl_inv Qdiv];
            split; [eauto|]; check_request).
  - by_length start_taus Hlen
      ltac:(eexists; exists 0%Q;
            unfold exp_fit_request; cbn [slopes slope_errors wt];
            cbn -[Qmax2 fl_inv Qdiv];
            split; [reflexivity|]; cbn -[Qmax2 fl_inv Qdiv];
            split; [reflexivity|]; check_request).
Qed.


(** C4, as the code has it: when [use_const] is requested the constant
    starts at the larger of the smallest slope and zero and is free to vary;
    otherwise it is fixed at zero.  Every other parameter is an amplitude
    or a decay constant with lower bound zero, and the weights, when the
    errors are there and weighting is asked for, are [1 / error]. *)
Theorem exp_fit_parameters (self : FFCFResult) (start_taus : list Q)
        (use_const use_weights : bool) :
  length start_taus <= 7 ->
  (use_const = true -> slopes self <> []) ->
  exists req c0,
    (forall minimize,
       exp_fit minimize self start_taus use_const use_weights
       = (best <~ minimize req ;
          Returns (mkresult req best,
                   mkFFCF (wt self) (slopes self) (slope_errors self)
                          (Some (mkresult req best))))%out)
    /\ (if use_const
        then exists smin, np_min (slopes self) = Returns smin
                          /\ c0 = Qmax2 smin 0%Q
        else c0 = 0%Q)
    /\ In (mkparam "c" c0 None use_const) (req_params req)
    /\ length (req_params req) = 1 + 2 * length start_taus
    /\ (forall p, In p (req_params req) ->
          p = mkparam "c" c0 None use_const
          \/ (pname p <> "c"
              /\ (ends_with "amplitude" (pname p) || ends_with "decay" (pname p)
                  = true)
              /\ pmin p = Some 0%Q /\ pvary p = true))
    /\ req_weights req
       = match slope_errors self with
         | Some errs => if use_weights then Some (map fl_inv errs) else None
         | None => None
         end
    /\ req_data req = slopes self /\ req_x req = wt self.
Proof.
  intros Hlen Hne.
  destruct (exp_fit_request_spec self start_taus use_const use_weights Hlen Hne)
    as (req & c0 & Hreq & Hrest).
  exists req, c0. split; [|exact Hrest].
  intros minimize. unfold exp_fit. now rewrite Hreq.
Qed.

Lemma exp_fit_parameters_witness :
  exists req,
    (forall minimize,
       exp_fit minimize decaying_slopes [3#1; 10#1]%Q true true
       = (best <~ minimize req ;
          Returns (mkresult req best,
                   mkFFCF (wt decaying_slopes) (slopes decaying_slopes)
                          (slope_errors decaying_slopes)
                          (Some (mkresult req best))))%out)
    /\ In (mkparam "c" 0%Q None true) (req_params req)
    /\ req_weights req = Some [Fin (2#1); Fin (4#1); Fin 0]%Q.
Proof.
  destruct (exp_fit_parameters decaying_slopes [3#1; 10#1]%Q true true)
    as (req & c0 & Hfit & (smin & Hmin & Hc0) & Hc & _ & _ & Hw & _).
  - simpl. lia.
  - discriminate.
  - exists req. split; [exact Hfit|].
    injection Hmin as <-. subst c0. split; [exact Hc|].
    rewrite Hw. reflexivity.
Defined.

(** C4 as stated fails for the constant: with slopes whose minimum is
    [-1] and [use_const] requested, the constant starts at [0], not at the
    minimum, and it is free to vary. *)
Lemma exp_fit_constant_is_free :
  exists req p,
    exp_fit_request decaying_slopes [3#1; 10#1]%Q true true = Returns req
    /\ (forall minimize,
          exp_fit minimize decaying_slopes [3#1; 10#1]%Q true true
          = (best <~ minimize req ;
             Returns (mkresult req best,
                      mkFFCF (wt decaying_slopes) (slopes decaying_slopes)
                             (slope_errors decaying_slopes)
                             (Some (mkresult req best))))%out)
    /\ np_min (slopes decaying_slopes) = Returns (-1#1)%Q
    /\ In p (req_params req)
    /\ pname p = "c"
    /\ pvary p = true
    /\ ~ (pvalue p == -1#1)%Q.
Proof.
  eexists. eexists.
  split; [vm_compute; reflexivity|].
  split; [intros minimize; reflexivity|].
  split; [vm_compute; reflexivity|].
  split; [left; reflexivity|].
  repeat split. vm_compute. discriminate.
Qed.

(** ** The centre line slope *)

Lemma bind_inv {A B} (c : M A) (k : A -> M B) (w w' : world) (b : B) :
  bind c k w = (Returns b, w') ->
  exists a w1, c w = (Returns a, w1) /\ k a w1 = (Returns b, w').
Proof.
  unfold bind. destruct (c w) as [[a|e] w1]; intros H.
  - eauto.
  - discriminate.
Qed.

Lemma lift_inv {A} (o : outcome A) (w w' : world) (a : A) :
  lift o w = (Returns a, w') -> o = Returns a /\ w' = w.
Proof. unfold lift. intros H. injection H as -> ->. auto. Qed.

Lemma obind_inv {A B} (o : outcome A) (k : A -> outcome B) (b : B) :
  obind o k = Returns b -> exists a, o = Returns a /\ k a = Returns b.
Proof. destruct o as [a|e]; simpl; intros H; [eauto | discriminate]. Qed.

Lemma cls_regression_estimator (B : backend) (x y : list Q) (yerr : list fl) :
  cls_regression B x y yerr
  = (design <~ add_constant x ;
     fit_model B (mkreg y design (estimator_for yerr)))%out.
Proof.
  unfold cls_regression, estimator_for.
  destruct (add_constant x) as [design|e]; simpl; [|reflexivity].
  now destruct (forallb isfinite yerr).
Qed.

Lemma fit_model_keeps_model (B : backend) (m : reg_model) (r : RegressionResults) :
  fit_model B m = Returns r -> model r = m.
Proof.
  unfold fit_model. intros H. apply obind_inv in H as (nums & _ & H).
  injection H as <-. reflexivity.
Qed.

Lemma silent_fit_run :
  exists res self' w',
    single_cls example_backend tilted_dataset 0%Q (Half (9#1)%Q) (Half (7#1)%Q)
               neg fit tilted_world
    = (Returns (res, self'), w')
    /\ SingleCLSResult.max_pos_err res = [NaN; NaN; NaN].
Proof. do 3 eexists. split; vm_compute; reflexivity. Qed.

Lemma bind_t_idx {A} (self : TwoDim) (x : Q) (k : nat -> M A) (w : world) (i : nat) :
  fi (data (array_at w (t self))) x = Returns i ->
  bind (t_idx self x) k w = k i w.
Proof.
  intros H. unfold t_idx, bind, deref, lift. now rewrite H.
Qed.

(** The line [2 + 1 x] fits the centre line of [tilted_dataset] exactly,
    so no other coefficients do better. *)
Lemma wssr_nonneg_tilted (b : list Q) : (0 <= wssr tilted_request b)%Q.
Proof.
  unfold wssr, weights_of, tilted_request. cbn [est endog exog map combine].
  cbn [Qsum fold_right weight_of fst snd].
  set (r1 := (_ - dot _ b)%Q). set (r2 := (_ - dot _ b)%Q). set (r3 := (_ - dot _ b)%Q).
  nra.
Qed.

Lemma tilted_line_least_squares : least_squares tilted_request [2#1; 1#1]%Q.
Proof.
  split; [reflexivity|].
  intros b' _. apply Qle_trans with 0%Q.
  - vm_compute. discriminate.
  - apply wssr_nonneg_tilted.
Qed.

Lemma tilted_solution (b : list Q) :
  least_squares tilted_request b ->
  exists b0 b1, b = [b0; b1] /\ (b0 == 2#1)%Q /\ (b1 == 1#1)%Q.
Proof.
  intros [Hlen Hmin].
  destruct b as [|b0 [|b1 [|? ?]]]; try discriminate Hlen.
  exists b0, b1. split; [reflexivity|].
  specialize (Hmin [2#1; 1#1]%Q eq_refl).
  assert (Hz : (wssr tilted_request [2#1; 1#1] == 0)%Q) by reflexivity.
  rewrite Hz in Hmin. clear Hz.
  unfold wssr, weights_of, tilted_request, dot in Hmin.
  cbn [est endog exog map combine Qsum fold_right weight_of fst snd] in Hmin.
  remember ((1#1) - ((1#1) * b0 + ((-1#1) * b1 + 0)))%Q as r1 eqn:E1.
  remember ((2#1) - ((1#1) * b0 + (0 * b1 + 0)))%Q as r2 eqn:E2.
  remember ((3#1) - ((1#1) * b0 + ((1#1) * b1 + 0)))%Q as r3 eqn:E3.
  assert (Z1 : (r1 == 0)%Q) by nra.
  assert (Z2 : (r2 == 0)%Q) by nra.
  assert (Z3 : (r3 == 0)%Q) by nra.
  subst r1 r2 r3. split; lra.
Qed.

(** C1, at the failing input: on [tilted_dataset] the located maxima
    [1, 2, 3] are regressed against the recentred pump values [-1, 0, 1]
    with the constant column first.  For every solver that answers the
    request with its least-squares coefficients, these are the intercept 2
    and the slope 1, and the [slope] field of the result is the first of
    them: the intercept, not the slope. *)
Theorem single_cls_slope_field_is_intercept (B : backend) (nums : reg_numbers) :
  regress B tilted_request = Returns nums ->
  least_squares tilted_request (sol_params nums) ->
  exists res self' w' b0 b1,
    single_cls B tilted_dataset 0%Q (Half (9#1)%Q) (Half (7#1)%Q) neg com
               tilted_world
    = (Returns (res, self'), w')
    /\ single_cls_result_ self' = Some res
    /\ SingleCLSResult.recentered_pump_wn res = [-1#1; 0#1; 1#1]%Q
    /\ SingleCLSResult.max_pos res = [1#1; 2#1; 3#1]%Q
    /\ model (SingleCLSResult.reg_result res) = tilted_request
    /\ params (SingleCLSResult.reg_result res) = [b0; b1]
    /\ (b0 == 2#1)%Q /\ (b1 == 1#1)%Q
    /\ SingleCLSResult.slope res = b0
    /\ ~ (SingleCLSResult.slope res == b1)%Q.
Proof.
  intros Hreg Hls.
  destruct (tilted_solution _ Hls) as (b0 & b1 & Hb & H0 & H1).
  destruct nums as [ps bs]. cbn [sol_params] in *. subst ps.
  assert (Hloc : locate_maxima B [10#1; 11#1; 12#1]%Q [1#1; 2#1; 3#1]%Q
                   (array_at tilted_world 3) 0 (Half (9#1)%Q) (Half (7#1)%Q)
                   neg com
                 = Returns ([-1#1; 0#1; 1#1]%Q, (11#1)%Q,
                            [((1#1)%Q, Fin 1); ((2#1)%Q, Fin 1); ((3#1)%Q, Fin 1)]))
    by (vm_compute; reflexivity).
  assert (Hfit : cls_regression B [-1#1; 0#1; 1#1]%Q [1#1; 2#1; 3#1]%Q
                   [Fin 1; Fin 1; Fin 1]
                 = Returns (mkregres tilted_request [b0; b1] bs)).
  { rewrite cls_regression_estimator.
    change (add_constant [-1#1; 0#1; 1#1]%Q)
      with (Returns [[1; -1#1]; [1; 0]; [1; 1]]%Q).
    cbn [obind]. unfold fit_model.
    change (mkreg _ _ _) with tilted_request. now rewrite Hreg. }
  eexists. eexists. eexists. exists b0, b1.
  split.
  { unfold single_cls. do 2 step.
    rewrite (@bind_t_idx _ _ _ _ _ 0) by reflexivity.
    step.
    rewrite (@bind_lift_returns _ _ _ _ _ _ Hloc). cbn [fst snd].
    rewrite (@bind_lift_returns _ _ _
               ([1#1; 2#1; 3#1]%Q, [Fin 1; Fin 1; Fin 1])) by reflexivity.
    cbn [fst snd].
    rewrite (@bind_lift_returns _ _ _ _ _ _ Hfit).
    rewrite (@bind_lift_returns _ _ _ b0) by reflexivity.
    reflexivity. }
  cbn [single_cls_result_ SingleCLSResult.recentered_pump_wn
       SingleCLSResult.max_pos SingleCLSResult.reg_result SingleCLSResult.slope
       model params].
  repeat (split; [reflexivity || assumption|]).
  rewrite H0, H1. discriminate.
Qed.

Lemma single_cls_slope_field_is_intercept_witness :
  exists res self' w',
    single_cls example_backend tilted_dataset 0%Q (Half (9#1)%Q) (Half (7#1)%Q)
               neg com tilted_world
    = (Returns (res, self'), w')
    /\ (SingleCLSResult.slope res == 2#1)%Q
    /\ ~ (SingleCLSResult.slope res == 1#1)%Q.
Proof.
  destruct (single_cls_slope_field_is_intercept example_backend
              (mknumbers [2#1; 1#1]%Q [Fin 0; Fin 0]) eq_refl
              tilted_line_least_squares)
    as (res & self' & w' & b0 & b1 & Hrun & _ & _ & _ & _ & _ & H0 & H1 & Hs & Hn).
  exists res, self', w'. split; [exact Hrun|].
  rewrite Hs. split; [exact H0|].
  rewrite H0. discriminate.
Defined.

(** On the same dataset and with the same solver, [cls] takes the second
    coefficient for the slope and the first for the intercept, wherever
    joblib runs the calls. *)
Lemma cls_reports_the_slope (in_process : bool) :
  exists out self' w',
    cls example_backend in_process tilted_dataset (Half (9#1)%Q) (Half (7#1)%Q)
        neg com tilted_world
    = (Returns (out, self'), w')
    /\ slopes (ffcf out) = [1#1]%Q
    /\ intercepts out = [2#1]%Q.
Proof.
  destruct in_process; do 3 eexists; (split; [|split]); vm_compute; reflexivity.
Qed.

(** ** Polynomials *)

Section Polynomials.
Local Open Scope Q_scope.

Lemma polyval_snoc (p : list Q) (c x : Q) :
  polyval (p ++ [c]) x = polyval p x * x + c.
Proof. unfold polyval. now rewrite fold_left_app. Qed.

(** Dividing by [x - r]: the remainder is the value at [r]. *)
Lemma poly_factor (p : list Q) (r : Q) :
  exists q, length q = pred (length p)
            /\ forall x, polyval p x == (x - r) * polyval q x + polyval p r.
Proof.
  induction p as [|c p IH] using rev_ind.
  - exists []. split; [reflexivity|]. intros x. unfold polyval; simpl. ring.
  - destruct IH as (q & Hlen & Hq).
    destruct p as [|a p].
    + exists []. split; [reflexivity|]. intros x. unfold polyval; simpl. ring.
    + exists (q ++ [polyval (a :: p) r]). split.
      * rewrite !length_app. simpl in *. lia.
      * intros x. rewrite !polyval_snoc, (Hq x). ring.
Qed.

(** A polynomial with more distinct roots than its degree is zero
    everywhere. *)
Lemma poly_roots (n : nat) :
  forall (p roots : list Q),
    (length p <= n)%nat -> (n <= length roots)%nat -> distinctQ roots ->
    Forall (fun r => polyval p r == 0) roots ->
    forall x, polyval p x == 0.
Proof.
  induction n as [|n IH]; intros p roots Hp Hn Hd Hz x.
  - destruct p; [reflexivity | simpl in Hp; lia].
  - destruct roots as [|r roots]; [simpl in Hn; lia|].
    destruct Hd as [Hr Hd]. inversion Hz as [|? ? Hzr Hz']; subst.
    destruct (poly_factor p r) as (q & Hlen & Hq).
    assert (Hqz : forall y, polyval q y == 0).
    { apply (IH q roots); [lia | simpl in Hn; lia | assumption |].
      rewrite Forall_forall in *. intros y Hy.
      specialize (Hz' y Hy). specialize (Hr y Hy).
      rewrite (Hq y), Hzr in Hz'.
      assert (Hne : ~ y - r == 0) by (intros E; apply Hr; lra).
      assert (Hm : (y - r) * polyval q y == 0) by lra.
      apply Qmult_integral in Hm. tauto. }
    rewrite (Hq x), Hzr, (Hqz x). ring.
Qed.

Lemma polyval_sub_acc (a b : list Q) (x ua ub u : Q) :
  length a = length b -> u == ua - ub ->
  fold_left (fun acc c => acc * x + c) (poly_sub a b) u
  == fold_left (fun acc c => acc * x + c) a ua
     - fold_left (fun acc c => acc * x + c) b ub.
Proof.
  revert b ua ub u. induction a as [|c a IH]; intros [|d b] ua ub u Hlen Hu;
    simpl in *; try discriminate.
  - exact Hu.
  - apply IH; [lia|]. rewrite Hu. ring.
Qed.

Lemma polyval_sub (a b : list Q) (x : Q) :
  length a = length b ->
  polyval (poly_sub a b) x == polyval a x - polyval b x.
Proof. intros H. unfold polyval. apply polyval_sub_acc; [assumption | ring]. Qed.

Lemma poly_sub_length (a b : list Q) :
  length a = length b -> length (poly_sub a b) = length a.
Proof.
  revert b; induction a as [|c a IH]; intros [|d b] H; simpl in *;
    try discriminate; [reflexivity|]. f_equal. apply IH. lia.
Qed.

(** Two polynomials of the same length that agree on more distinct
    points than their degree agree everywhere. *)
Lemma poly_agree (a b points : list Q) :
  length a = length b -> (length a <= length points)%nat ->
  distinctQ points ->
  Forall (fun r => polyval a r == polyval b r) points ->
  forall x, polyval a x == polyval b x.
Proof.
  intros Hlen Hn Hd Hz x.
  assert (H : polyval (poly_sub a b) x == 0).
  { apply (poly_roots (length a) (poly_sub a b) points); try assumption.
    - now rewrite poly_sub_length.
    - eapply Forall_impl; [|exact Hz]. intros r Hr. simpl in Hr.
      rewrite polyval_sub by assumption. lra. }
  rewrite polyval_sub in H by assumption. lra.
Qed.

Lemma Qsum_squares_nonneg {A} (f : A -> Q) (l : list A) :
  0 <= Qsum (map (fun z => f z * f z) l).
Proof.
  induction l as [|z l IH]; simpl; [lra|].
  assert (0 <= f z * f z) by nra. lra.
Qed.

Lemma Qsum_squares_zero {A} (f : A -> Q) (l : list A) :
  Qsum (map (fun z => f z * f z) l) <= 0 ->
  Forall (fun z => f z == 0) l.
Proof.
  induction l as [|z l IH]; simpl; intros H; constructor.
  - pose proof (Qsum_squares_nonneg f l). nra.
  - apply IH. pose proof (Qsum_squares_nonneg f l).
    assert (0 <= f z * f z) by nra. lra.
Qed.

Lemma Qsum_squares_of_zeros {A} (f : A -> Q) (l : list A) :
  Forall (fun z => f z == 0) l ->
  Qsum (map (fun z => f z * f z) l) == 0.
Proof.
  induction 1 as [|z l Hz _ IH]; simpl; [reflexivity|].
  rewrite IH, Hz. ring.
Qed.

Lemma poly_ssr_nonneg (xs ys p : list Q) : 0 <= poly_ssr xs ys p.
Proof.
  unfold poly_ssr.
  apply (Qsum_squares_nonneg (fun xy : Q * Q => snd xy - polyval p (fst xy))).
Qed.
End Polynomials.

(** ** Background correction *)

Lemma nth_map_seq {A} (f : nat -> A) (n i : nat) (d : A) :
  i < n -> nth i (map f (seq 0 n)) d = f i.
Proof.
  intros H. rewrite (nth_indep _ d (f 0)) by (now rewrite length_map, length_seq).
  rewrite map_nth. now rewrite seq_nth.
Qed.

Lemma get3_subtract (a : ndarray Q) (ti pi : nat) (v : list Q)
      (n m k i j c : nat) :
  shape a = [n; m; k] -> i < n -> j < m -> c < k ->
  get3 0%Q (subtract_from_column a ti pi v) i j c
  = if (i =? ti) && (c =? pi)
    then Qred (get3 0%Q a i j c - nth j v 0%Q)
    else get3 0%Q a i j c.
Proof.
  intros Hs Hi Hj Hc.
  unfold get3 at 1. unfold subtract_from_column. cbn [shape data].
  rewrite Hs. unfold dim_of. cbn [nth].
  replace ((i * m + j) * k + c) with (i * (m * k) + (j * k + c)) by lia.
  rewrite nth_flat_map_uniform with (c := m * k) (y := 0).
  - rewrite seq_nth by assumption. cbn [Nat.add].
    rewrite nth_flat_map_uniform with (c := k) (y := 0).
    + rewrite seq_nth by assumption. cbn [Nat.add].
      now rewrite nth_map_seq.
    + intros b _. now rewrite length_map, length_seq.
    + now rewrite length_seq.
    + assumption.
  - intros b _. rewrite flat_map_constant_length with (c := k).
    + now rewrite length_seq.
    + intros b' _. now rewrite length_map, length_seq.
  - now rewrite length_seq.
  - nia.
Qed.

Lemma select_combine {A B} (mask : list bool) (xs : list A) (ys : list B) :
  combine (select mask xs) (select mask ys) = select mask (combine xs ys).
Proof.
  revert xs ys. induction mask as [|b mask IH]; intros xs ys.
  - destruct xs, ys; reflexivity.
  - destruct xs as [|x xs].
    + simpl. reflexivity.
    + destruct ys as [|y ys].
      * simpl. destruct b; [|destruct (select mask xs); reflexivity].
        reflexivity.
      * simpl. destruct b; simpl; now rewrite IH.
Qed.

Lemma In_select {A} (mask : list bool) (l : list A) (z : A) :
  In z (select mask l) -> In z l.
Proof.
  revert l. induction mask as [|b mask IH]; intros [|x l] H; simpl in *;
    try contradiction.
  destruct b; simpl in H; intuition.
Qed.

Lemma Forall_select {A} (P : A -> Prop) (mask : list bool) (l : list A) :
  Forall P l -> Forall P (select mask l).
Proof.
  rewrite !Forall_forall. intros H z Hz. apply H. eapply In_select, Hz.
Qed.

Lemma distinctQ_select (mask : list bool) (l : list Q) :
  distinctQ l -> distinctQ (select mask l).
Proof.
  revert l. induction mask as [|b mask IH]; intros [|x l] H; simpl in *;
    try exact I.
  destruct H as [Hx Hd]. destruct b; simpl; auto.
  split; [now apply Forall_select | auto].
Qed.

Lemma for_each_seq_inv (I : nat -> world -> Prop) (body : nat -> M unit)
      (n : nat) :
  forall (s : nat) (w : world),
    I s w ->
    (forall i w1, s <= i < s + n -> I i w1 ->
                  exists w2, body i w1 = (Returns tt, w2) /\ I (S i) w2) ->
    exists w', for_each (seq s n) body w = (Returns tt, w') /\ I (s + n) w'.
Proof.
  induction n as [|n IH]; intros s w H0 Hstep.
  - exists w. rewrite Nat.add_0_r. split; [reflexivity | assumption].
  - destruct (Hstep s w) as (w2 & Hb & H2); [lia | assumption |].
    destruct (IH (S s) w2 H2) as (w' & Hrun & Hend).
    + intros i w1 Hi. apply Hstep. lia.
    + exists w'. split.
      * cbn [seq for_each]. unfold bind. rewrite Hb. exact Hrun.
      * now replace (s + S n) with (S s + n) by lia.
Qed.

Lemma store_length (w : world) (l : loc) (a : ndarray Q) :
  valid_ref w l -> length (arrays (snd (store l a w))) = length (arrays w).
Proof.
  unfold valid_ref, store. intros H. cbn [snd arrays].
  rewrite length_app, firstn_length_le by lia. cbn [length].
  rewrite length_skipn. lia.
Qed.

Section Correction.
Variables (B : backend) (w : world) (self : TwoDim).
Variables (excluded_range : Q * Q) (deg : nat).
Variable (P : nat -> nat -> list Q).

Let ra := array_at w (probe_wn self).
Let sa := array_at w (spec2d self).
Let n := size (array_at w (t self)).
Let m := size ra.
Let k := size (array_at w (pump_wn self)).
Let wn_range :=
  map negb (inbetween (data ra) (fst excluded_range) (snd excluded_range)).

Hypothesis Hok : dataset_ok w self.
Hypothesis Hfit : forall ti pi, ti < n -> pi < k ->
  polyfit B (select wn_range (data ra)) (select wn_range (column sa ti pi)) deg
  = Returns (P ti pi).

Ltac name_sizes :=
  repeat match goal with
         | H : context [size (array_at w (t self))] |- _ =>
             progress change (size (array_at w (t self))) with n in H
         | H : context [size (array_at w (probe_wn self))] |- _ =>
             progress change (size (array_at w (probe_wn self))) with m in H
         | H : context [size (array_at w (pump_wn self))] |- _ =>
             progress change (size (array_at w (pump_wn self))) with k in H
         end;
  try change (size (array_at w (t self))) with n;
  try change (size (array_at w (probe_wn self))) with m;
  try change (size (array_at w (pump_wn self))) with k.

Lemma partly_corrected_ext (D D' : nat -> nat -> bool) (w1 : world) :
  (forall i c, i < n -> c < k -> D i c = D' i c) ->
  partly_corrected_by w self P D w1 -> partly_corrected_by w self P D' w1.
Proof.
  intros HD (Hl & Hf & Hc & Hr & Hs & Hg). repeat split; try assumption.
  intros i j c Hi Hj Hc'. name_sizes. rewrite <- HD by assumption. now apply Hg.
Qed.

Lemma shape_sa : shape sa = [n; m; k].
Proof. destruct Hok as (_ & _ & _ & _ & _ & _ & _ & _ & Hs). exact Hs. Qed.

Lemma probe_length : length (data ra) = m.
Proof.
  destruct Hok as (_ & _ & _ & _ & _ & _ & Hr & _). symmetry.
  now apply size_1d.
Qed.

Lemma probe_is_not_data : probe_wn self <> spec2d self.
Proof.
  intros E. destruct Hok as (_ & _ & _ & _ & _ & _ & Hr & _ & Hs).
  rewrite <- E in Hs. unfold is_1d in Hr. rewrite Hr in Hs. discriminate.
Qed.

Lemma data_ref_valid : valid_ref w (spec2d self).
Proof. destruct Hok as (_ & _ & _ & Hv & _). exact Hv. Qed.

(** One pass of the inner loop body. *)
Lemma correct_one_column (D : nat -> nat -> bool) (ti pi : nat) (w1 : world) :
  ti < n -> pi < k -> D ti pi = false ->
  partly_corrected_by w self P D w1 ->
  exists w2,
    (sa1 <- deref (spec2d self) ;;
     let s := column sa1 ti pi in
     let back := select wn_range s in
     ra1 <- deref (probe_wn self) ;;
     p <- lift (polyfit B (select wn_range (data ra1)) back deg) ;;
     store (spec2d self)
           (subtract_from_column sa1 ti pi (map (polyval p) (data ra1))))%py w1
    = (Returns tt, w2)
    /\ partly_corrected_by w self P
         (fun i c => D i c || ((i =? ti) && (c =? pi))) w2.
Proof.
  intros Hti Hpi HD (Hl & Hf & Hc & Hr & Hs & Hg). name_sizes.
  set (a := array_at w1 (spec2d self)) in *.
  assert (Hcol : column a ti pi = column sa ti pi).
  { unfold column. rewrite Hs, shape_sa. unfold dim_of. cbn [nth].
    apply map_ext_in. intros j Hj. apply in_seq in Hj.
    rewrite Hg by (assumption || lia). now rewrite HD. }
  set (new := subtract_from_column a ti pi (map (polyval (P ti pi)) (data ra))).
  exists (snd (store (spec2d self) new w1)).
  assert (Hv : valid_ref w1 (spec2d self)).
  { unfold valid_ref. rewrite Hl. apply data_ref_valid. }
  split.
  - step. fold a. cbv zeta. step.
    rewrite (Hr _ probe_is_not_data). fold ra.
    rewrite Hcol.
    rewrite (@bind_lift_returns _ _ _ _ _ _ (Hfit ti pi Hti Hpi)).
    reflexivity.
  - split; [now rewrite store_length|].
    split; [exact Hf|]. split; [exact Hc|].
    split.
    { intros r Hne. rewrite array_at_store_other by assumption. now apply Hr. }
    rewrite array_at_store_same by assumption.
    split; [exact Hs|].
    intros i j c Hi Hj Hc'. name_sizes. unfold new.
    rewrite (get3_subtract a ti pi _ n m k) by assumption.
    fold a in Hg. rewrite Hg by assumption.
    destruct ((i =? ti) && (c =? pi)) eqn:E.
    + apply andb_prop in E as [Ei Ec].
      apply Nat.eqb_eq in Ei, Ec. subst i c. rewrite HD. cbn [orb].
      unfold corrected_entry. fold ra sa. f_equal. f_equal.
      rewrite (nth_indep _ 0%Q (polyval (P ti pi) 0%Q))
        by (rewrite length_map, probe_length; assumption).
      now rewrite map_nth.
    + now rewrite orb_false_r.
Qed.

(** The run of [background_correction]: it returns [None], allocates
    nothing and changes no array but the data, where every entry has
    had the value of its column's fitted polynomial subtracted. *)
Lemma background_correction_run :
  exists w',
    background_correction B self excluded_range deg w = (Returns tt, w')
    /\ partly_corrected_by w self P (fun _ _ => true) w'.
Proof.
  assert (Hstart : partly_corrected_by w self P (fun i _ => i <? 0) w).
  { repeat split; try reflexivity. exact shape_sa. }
  destruct (for_each_seq_inv
              (fun ti' => partly_corrected_by w self P (fun i _ => i <? ti'))
              (fun ti =>
                 (sa1 <- deref (spec2d self) ;;
                  k' <- lift (item 2 (shape sa1)) ;;
                  for_each (seq 0 k') (fun pi =>
                    sa2 <- deref (spec2d self) ;;
                    let s := column sa2 ti pi in
                    let back := select wn_range s in
                    ra1 <- deref (probe_wn self) ;;
                    p <- lift (polyfit B (select wn_range (data ra1)) back deg) ;;
                    store (spec2d self)
                          (subtract_from_column sa2 ti pi
                             (map (polyval p) (data ra1)))))%py)
              n 0 w Hstart) as (w' & Hrun & Hend).
  - intros ti w1 [_ Hti] H1. cbn [Nat.add] in Hti.
    destruct (for_each_seq_inv
                (fun pi' => partly_corrected_by w self P
                   (fun i c => (i <? ti) || ((i =? ti) && (c <? pi'))))
                (fun pi =>
                   (sa2 <- deref (spec2d self) ;;
                    let s := column sa2 ti pi in
                    let back := select wn_range s in
                    ra1 <- deref (probe_wn self) ;;
                    p <- lift (polyfit B (select wn_range (data ra1)) back deg) ;;
                    store (spec2d self)
                          (subtract_from_column sa2 ti pi
                             (map (polyval p) (data ra1))))%py)
                k 0 w1) as (w2 & Hin & Hend).
    + eapply partly_corrected_ext; [|exact H1].
      intros i c _ _. cbn. now rewrite andb_false_r, orb_false_r.
    + intros pi w3 [_ Hpi] H3. cbn [Nat.add] in Hpi.
      assert (HD : (ti <? ti) || ((ti =? ti) && (pi <? pi)) = false)
        by now rewrite !Nat.ltb_irrefl, Nat.eqb_refl.
      destruct (correct_one_column _ ti pi w3 Hti Hpi HD H3)
        as (w4 & Hb & H4).
      exists w4. split; [exact Hb|].
      { eapply partly_corrected_ext; [|exact H4].
        intros i c _ _. cbv beta.
        destruct (i <? ti) eqn:E1; [reflexivity|]. cbn [orb].
        destruct (i =? ti) eqn:E2; cbn [andb]; [|reflexivity].
        destruct (c <? pi) eqn:E3, (c =? pi) eqn:E4, (c <? S pi) eqn:E5;
          try reflexivity;
          rewrite ?Nat.ltb_lt, ?Nat.ltb_ge, ?Nat.eqb_eq, ?Nat.eqb_neq in *;
          lia. }
    + exists w2. split.
      * step. destruct H1 as (_ & _ & _ & _ & Hs1 & _). rewrite Hs1.
        rewrite (@bind_lift_returns _ _ _ k) by reflexivity. exact Hin.
      * eapply partly_corrected_ext; [|exact Hend].
        intros i c _ Hc. cbv beta. cbn [Nat.add].
        apply Nat.ltb_lt in Hc as Hc'. rewrite Hc', andb_true_r.
        destruct (i <? ti) eqn:E1, (i =? ti) eqn:E2, (i <? S ti) eqn:E3;
          try reflexivity;
          rewrite ?Nat.ltb_lt, ?Nat.ltb_ge, ?Nat.eqb_eq, ?Nat.eqb_neq in *;
          lia.
  - exists w'. split.
    + unfold background_correction. do 2 step. fold ra sa wn_range.
      rewrite shape_sa.
      rewrite (@bind_lift_returns _ _ _ n) by reflexivity. exact Hrun.
    + eapply partly_corrected_ext; [|exact Hend].
      intros i c Hi _. cbv beta. cbn [Nat.add]. now apply Nat.ltb_lt.
Qed.
End Correction.

Lemma select_length_eq {A B} (mask : list bool) (xs : list A) (ys : list B) :
  length xs = length ys ->
  length (select mask xs) = length (select mask ys).
Proof.
  revert xs ys. induction mask as [|b mask IH]; intros [|x xs] [|y ys] H;
    simpl in *; try discriminate; try reflexivity.
  destruct b; simpl; rewrite (IH xs ys); auto.
Qed.

Lemma Forall_fst_combine {A B} (P : A -> Prop) (xs : list A) (ys : list B) :
  length xs = length ys ->
  Forall (fun xy => P (fst xy)) (combine xs ys) -> Forall P xs.
Proof.
  revert ys. induction xs as [|x xs IH]; intros [|y ys] Hlen H; simpl in *;
    try discriminate; constructor.
  - now inversion H.
  - apply (IH ys); [lia | now inversion H].
Qed.

(** On the fitted points a least-squares polynomial reproduces data that
    is itself a polynomial of the degree, and then everywhere, if the
    points are more than the degree. *)
Lemma fit_of_polynomial (probe col : list Q) (mask : list bool) (deg : nat)
      (c0 p : list Q) :
  length probe = length col ->
  distinctQ probe ->
  deg + 1 <= length (select mask probe) ->
  length c0 = deg + 1 ->
  (forall j, j < length probe ->
             (nth j col 0 == polyval c0 (nth j probe 0))%Q) ->
  poly_least_squares (select mask probe) (select mask col) deg p ->
  forall x, (polyval c0 x == polyval p x)%Q.
Proof.
  intros Hlen Hd Hn Hc0 Hpoly [Hp Hmin].
  set (xs := select mask probe) in *. set (ys := select mask col) in *.
  assert (Hpairs : Forall (fun xy : Q * Q => (snd xy - polyval c0 (fst xy) == 0)%Q)
                          (combine xs ys)).
  { rewrite Forall_forall. intros [x y] Hin. unfold xs, ys in Hin.
    rewrite select_combine in Hin. apply In_select in Hin.
    apply (In_nth _ _ (0%Q, 0%Q)) in Hin as (j & Hj & E).
    rewrite length_combine, <- Hlen, Nat.min_id in Hj.
    rewrite combine_nth in E by assumption.
    injection E as <- <-. cbn [fst snd]. rewrite (Hpoly j Hj). ring. }
  assert (Hzero : (poly_ssr xs ys p <= 0)%Q).
  { eapply Qle_trans; [apply (Hmin c0 Hc0)|].
    unfold poly_ssr.
    rewrite (Qsum_squares_of_zeros
               (fun xy : Q * Q => (snd xy - polyval c0 (fst xy))%Q) _ Hpairs).
    apply Qle_refl. }
  apply (Qsum_squares_zero
           (fun xy : Q * Q => (snd xy - polyval p (fst xy))%Q)) in Hzero.
  apply (poly_agree c0 p xs).
  - lia.
  - lia.
  - now apply distinctQ_select.
  - apply (Forall_fst_combine _ xs ys).
    + unfold xs, ys. now apply select_length_eq.
    + rewrite Forall_forall in *. intros xy Hin.
      specialize (Hpairs xy Hin). specialize (Hzero xy Hin). cbv beta in *. lra.
Qed.

(** The mask of the probe values outside the excluded range. *)
Lemma qeq_zero_red (q : Q) : (q == 0)%Q -> Qred q = 0%Q.
Proof. intros H. now rewrite (Qred_complete _ _ H). Qed.

(** C5, as the code has it: on a dataset whose every fit returns,
    [background_correction] returns nothing and writes the data array in
    place; no array is allocated and no other array changes.  Every entry
    has had the value at its probe coordinate of the polynomial fitted to
    its column, outside the excluded range, subtracted.  If the probe
    values are distinct, more than [deg] of them lie outside the excluded
    range, each fit is a least-squares polynomial and each column is a
    polynomial of degree at most [deg] along the probe axis, the corrected
    array is zero. *)
Theorem background_correction_subtracts_fit (B : backend) (w : world)
        (self : TwoDim) (excluded_range : Q * Q) (deg : nat)
        (P : nat -> nat -> list Q) :
  let ra := array_at w (probe_wn self) in
  let sa := array_at w (spec2d self) in
  let n := size (array_at w (t self)) in
  let m := size ra in
  let k := size (array_at w (pump_wn self)) in
  let wn_range :=
    map negb (inbetween (data ra) (fst excluded_range) (snd excluded_range)) in
  let xs := select wn_range (data ra) in
  dataset_ok w self ->
  (forall ti pi, ti < n -> pi < k ->
     polyfit B xs (select wn_range (column sa ti pi)) deg = Returns (P ti pi)) ->
  exists w',
    background_correction B self excluded_range deg w = (Returns tt, w')
    /\ length (arrays w') = length (arrays w)
    /\ (forall r, r <> spec2d self -> array_at w' r = array_at w r)
    /\ shape (array_at w' (spec2d self)) = shape sa
    /\ (forall i j c, i < n -> j < m -> c < k ->
          get3 0%Q (array_at w' (spec2d self)) i j c
          = Qred (get3 0%Q sa i j c - polyval (P i c) (nth j (data ra) 0%Q)))
    /\ (distinctQ (data ra) ->
        deg + 1 <= length xs ->
        (forall ti pi, ti < n -> pi < k ->
           poly_least_squares xs (select wn_range (column sa ti pi)) deg (P ti pi)) ->
        (forall ti pi, ti < n -> pi < k ->
           exists c0, length c0 = deg + 1
                      /\ forall j, j < m ->
                           (get3 0%Q sa ti j pi
                            == polyval c0 (nth j (data ra) 0%Q))%Q) ->
        forall i j c, i < n -> j < m -> c < k ->
          get3 0%Q (array_at w' (spec2d self)) i j c = 0%Q).
Proof.
  intros ra sa n m k wn_range xs Hok Hfit.
  destruct (background_correction_run B w self excluded_range deg P Hok Hfit)
    as (w' & Hrun & Hl & _ & _ & Hr & Hs & Hg).
  assert (Hsa : shape sa = [n; m; k]).
  { destruct Hok as (_ & _ & _ & _ & _ & _ & _ & _ & H). exact H. }
  assert (Hm : length (data ra) = m).
  { destruct Hok as (_ & _ & _ & _ & _ & _ & H & _). symmetry. now apply size_1d. }
  exists w'. split; [exact Hrun|]. split; [exact Hl|]. split; [exact Hr|].
  split; [now rewrite Hs, Hsa|].
  split; [intros i j c Hi Hj Hc; now rewrite Hg|].
  intros Hd Hn Hls Hpoly i j c Hi Hj Hc.
  rewrite Hg by assumption. unfold corrected_entry. fold ra sa.
  destruct (Hpoly i c Hi Hc) as (c0 & Hc0 & Hcol).
  apply qeq_zero_red.
  assert (Hagree : forall x, (polyval c0 x == polyval (P i c) x)%Q).
  { apply (fit_of_polynomial (data ra) (column sa i c) wn_range deg).
    - unfold column. rewrite length_map, length_seq, Hsa, Hm. reflexivity.
    - exact Hd.
    - exact Hn.
    - exact Hc0.
    - intros j' Hj'. rewrite Hm in Hj'. unfold column.
      rewrite Hsa. unfold dim_of. cbn [nth].
      rewrite nth_map_seq by assumption. now apply Hcol.
    - now apply Hls. }
  rewrite (Hcol j Hj), (Hagree (nth j (data ra) 0%Q)). ring.
Qed.

Lemma line_dataset_ok : dataset_ok line_world line_dataset.
Proof.
  unfold dataset_ok. vm_compute. repeat split; try reflexivity; lia.
Qed.

Lemma line_is_least_squares (xs ys : list Q) :
  (poly_ssr xs ys [1#1; 0#1] == 0)%Q ->
  poly_least_squares xs ys 1 [1#1; 0#1]%Q.
Proof.
  intros H. split; [reflexivity|]. intros p' _. rewrite H.
  apply poly_ssr_nonneg.
Qed.

Lemma background_correction_subtracts_fit_witness :
  exists w',
    background_correction example_backend line_dataset (5#1, 6#1)%Q 1 line_world
    = (Returns tt, w')
    /\ data (array_at w' 3) = [0; 0; 0]%Q
    /\ get3 0%Q (array_at w' 3) 0 2 0 = 0%Q.
Proof.
  destruct (background_correction_subtracts_fit example_backend line_world
              line_dataset (5#1, 6#1)%Q 1 (fun _ _ => [1#1; 0#1]%Q)
              line_dataset_ok)
    as (w' & Hrun & _ & _ & _ & _ & Hzero).
  - intros ti pi _ _. reflexivity.
  - exists w'. split; [exact Hrun|]. split.
    + assert (E : fst (background_correction example_backend line_dataset
                         (5#1, 6#1)%Q 1 line_world) = Returns tt
                  /\ data (array_at (snd (background_correction example_backend
                         line_dataset (5#1, 6#1)%Q 1 line_world)) 3)
                     = [0; 0; 0]%Q)
        by (split; vm_compute; reflexivity).
      rewrite Hrun in E. exact (proj2 E).
    + apply Hzero.
      * vm_compute. repeat split; try constructor; try discriminate;
          repeat constructor; discriminate.
      * vm_compute. lia.
      * intros ti pi Hti Hpi.
        assert (ti = 0) by (vm_compute in Hti; lia).
        assert (pi = 0) by (vm_compute in Hpi; lia). subst.
        apply line_is_least_squares. vm_compute. reflexivity.
      * intros ti pi Hti Hpi.
        assert (ti = 0) by (vm_compute in Hti; lia).
        assert (pi = 0) by (vm_compute in Hpi; lia). subst.
        exists [1#1; 0#1]%Q. split; [reflexivity|].
        intros j Hj. vm_compute in Hj.
        destruct j as [|[|[|j]]]; try lia; vm_compute; reflexivity.
      * vm_compute. lia.
      * vm_compute. lia.
      * vm_compute. lia.
Defined.

(** C5 as stated fails when too few probe values lie outside the
    excluded range: with only the point [(1, 1)] left and degree 1, the
    polynomial [x / 2 + 1 / 2] is a least-squares fit, the data [1, 2, 3]
    is a polynomial of degree 1 along the probe axis, and the corrected
    column is [0, 1 / 2, 1]. *)
Lemma background_correction_leaves_signal :
  exists w',
    background_correction minimum_norm_backend line_dataset (2#1, 3#1)%Q 1
                          line_world
    = (Returns tt, w')
    /\ poly_least_squares [1#1]%Q [1#1]%Q 1 [1#2; 1#2]%Q
    /\ (forall j, j < 3 ->
          (get3 0 (array_at line_world 3%nat) 0%nat j 0%nat
           == polyval [1#1; 0#1] (nth j [1#1; 2#1; 3#1] 0))%Q)
    /\ data (array_at w' 3) = [0#1; 1#2; 1#1]%Q
    /\ ~ (get3 0 (array_at w' 3%nat) 0%nat 2%nat 0%nat == 0)%Q.
Proof.
  eexists. split; [vm_compute; reflexivity|].
  split.
  { split; [reflexivity|]. intros p' _.
    apply Qle_trans with 0%Q; [vm_compute; discriminate | apply poly_ssr_nonneg]. }
  split.
  { intros j Hj. destruct j as [|[|[|j]]]; try lia; vm_compute; reflexivity. }
  split; [reflexivity|].
  vm_compute. discriminate.
Qed.

(* ================================================================== *)
(** * More properties *)

(** ** Sorting what is sorted *)

Lemma insert_pair_first (p : Q * nat) (l : list (Q * nat)) :
  HdRel pair_le p l -> insert_pair p l = p :: l.
Proof.
  intros H. destruct l as [|q l]; [reflexivity|]. simpl.
  inversion H as [|? ? Hle]; subst. unfold pair_le in Hle.
  apply Qle_bool_iff in Hle. now rewrite Hle.
Qed.

Lemma sort_pairs_of_sorted (l : list (Q * nat)) :
  Sorted pair_le l -> sort_pairs l = l.
Proof.
  induction 1 as [|p l Hs IH Hp]; simpl; [reflexivity|].
  rewrite IH. now apply insert_pair_first.
Qed.

Lemma combine_seq_sorted (v : list Q) (s : nat) :
  Sorted Qle v -> Sorted pair_le (combine v (seq s (length v))).
Proof.
  intros H. revert s. induction H as [|x v Hs IH Hx]; intros s; simpl.
  - constructor.
  - constructor; [apply IH|].
    destruct Hx as [|y v' Hle]; simpl; constructor. exact Hle.
Qed.

Lemma argsort_of_sorted (v : list Q) :
  Sorted Qle v -> argsort v = seq 0 (length v).
Proof.
  intros H. unfold argsort.
  rewrite sort_pairs_of_sorted by now apply combine_seq_sorted.
  apply map_snd_combine_seq.
Qed.

Lemma map_nth_seq {A} (l : list A) (d : A) :
  map (fun i => nth i l d) (seq 0 (length l)) = l.
Proof.
  induction l as [|x l IH]; [reflexivity|].
  cbn [length seq map nth]. f_equal.
  rewrite <- seq_shift, map_map. exact IH.
Qed.

Lemma sorted_values_of_sorted (v : list Q) :
  Sorted Qle v -> sorted_values v = v.
Proof.
  intros H. unfold sorted_values. rewrite argsort_of_sorted by assumption.
  apply map_nth_seq.
Qed.

(** The arrays of a sorted dataset, constructed again, are the same. *)
Lemma constructed_of_sorted (ta ra pa sa : ndarray Q) :
  is_1d pa -> is_1d ra -> wf_array sa ->
  shape sa = [size ta; size ra; size pa] ->
  Sorted Qle (data pa) -> Sorted Qle (data ra) ->
  constructed ta ra pa sa = [sa; ra; pa; ta; pa; ra; sa].
Proof.
  intros Hp Hr Wsa Hs Sp Sr. unfold constructed.
  rewrite !sorted_values_of_sorted, !argsort_of_sorted by assumption.
  assert (E2 : taken 2 (seq 0 (length (data pa))) sa = sa).
  { replace (length (data pa)) with (dim_of 2 (shape sa))
      by (rewrite Hs; unfold dim_of; simpl; now apply size_1d).
    apply taken_all; [assumption | rewrite Hs; simpl; lia]. }
  rewrite E2.
  assert (E1 : taken 1 (seq 0 (length (data ra))) sa = sa).
  { replace (length (data ra)) with (dim_of 1 (shape sa))
      by (rewrite Hs; unfold dim_of; simpl; now apply size_1d).
    apply taken_all; [assumption | rewrite Hs; simpl; lia]. }
  rewrite E1.
  assert (Ep : array1 (data pa) = pa).
  { destruct pa as [s d]. unfold is_1d in Hp. simpl in *. now rewrite Hp. }
  assert (Er : array1 (data ra) = ra).
  { destruct ra as [s d]. unfold is_1d in Hr. simpl in *. now rewrite Hr. }
  now rewrite Ep, Er.
Qed.

(** *** Axes without repeated values *)

Lemma Sorted_Qlt_Qle (l : list Q) : Sorted Qlt l -> Sorted Qle l.
Proof.
  induction 1 as [|x l Hs IH Hx]; constructor; [exact IH|].
  destruct Hx as [|y l' Hlt]; constructor. now apply Qlt_le_weak.
Qed.

Lemma strictly_ascending_is_ascending (w : world) (ds : TwoDim) :
  strictly_ascending_dataset w ds -> ascending_dataset w ds.
Proof.
  intros (Hok & Sp & Sr). split; [exact Hok|].
  split; now apply Sorted_Qlt_Qle.
Qed.

Lemma strictly_sorted_nth (v : list Q) (i j : nat) :
  Sorted Qlt v -> i < j < length v -> (nth i v 0 < nth j v 0)%Q.
Proof.
  intros H. apply Sorted_StronglySorted in H;
    [|intros x y z; apply Qlt_trans].
  revert i j. induction H as [|x v Hs IH Hx]; intros i j Hij; simpl in Hij;
    [lia|].
  destruct j as [|j]; [lia|]. destruct i as [|i]; cbn [nth].
  - rewrite Forall_forall in Hx. apply Hx, nth_In. lia.
  - apply IH. lia.
Qed.

Lemma seq_strongly_sorted (s n : nat) : StronglySorted lt (seq s n).
Proof.
  revert s. induction n as [|n IH]; intros s; simpl; constructor; [apply IH|].
  apply Forall_forall. intros y Hy. apply in_seq in Hy. lia.
Qed.

(** Two ascending lists of the same numbers are the same list. *)
Lemma strongly_sorted_unique (l1 l2 : list nat) :
  StronglySorted lt l1 -> StronglySorted lt l2 -> Permutation l1 l2 ->
  l1 = l2.
Proof.
  intros H1. revert l2.
  induction H1 as [|x l1 Hs1 IH Hx]; intros l2 H2 Hp.
  - apply Permutation_nil in Hp. now subst.
  - destruct H2 as [|y l2 Hs2 Hy].
    + apply Permutation_sym, Permutation_nil in Hp. discriminate.
    + assert (Exy : x = y).
      { rewrite Forall_forall in Hx, Hy.
        assert (Hin1 : In x (y :: l2))
          by (eapply Permutation_in; [exact Hp | now left]).
        assert (Hin2 : In y (x :: l1))
          by (eapply Permutation_in;
              [apply Permutation_sym; exact Hp | now left]).
        destruct Hin1 as [E|Hin1]; [now symmetry|].
        destruct Hin2 as [E|Hin2]; [exact E|].
        specialize (Hx _ Hin2). specialize (Hy _ Hin1). lia. }
      subst y. f_equal. apply IH; [exact Hs2|].
      now apply Permutation_cons_inv in Hp.
Qed.

(** On values that ascend strictly there is one sorting permutation, the
    identity: what is proved below from such axes holds for every sort
    [np.argsort] may run, stable or not. *)
Lemma sorting_permutation_unique (v : list Q) (p : list nat) :
  Sorted Qlt v ->
  Permutation p (seq 0 (length v)) ->
  Sorted Qle (map (fun i => nth i v 0%Q) p) ->
  p = seq 0 (length v).
Proof.
  intros Hv Hp Hs.
  apply strongly_sorted_unique; [|apply seq_strongly_sorted|exact Hp].
  assert (Hnd : NoDup p).
  { eapply Permutation_NoDup; [apply Permutation_sym; exact Hp|].
    apply seq_NoDup. }
  assert (Hb : forall i, In i p -> i < length v).
  { intros i Hi. eapply Permutation_in in Hi; [|exact Hp].
    apply in_seq in Hi. lia. }
  apply Sorted_StronglySorted in Hs; [|intros x y z; apply Qle_trans].
  clear Hp. induction p as [|x p IH]; [constructor|].
  cbn [map] in Hs. inversion Hs as [|? ? Hs' Hx]; subst.
  inversion Hnd as [|? ? Hnx Hnd']; subst.
  constructor.
  - apply IH; [exact Hs' | exact Hnd' | intros i Hi; apply Hb; now right].
  - apply Forall_forall. intros y Hy.
    rewrite Forall_forall in Hx.
    assert (Hle : (nth x v 0 <= nth y v 0)%Q).
    { apply Hx. apply in_map_iff. now exists y. }
    destruct (Nat.lt_trichotomy x y) as [Hlt|[Heq|Hgt]]; [exact Hlt| |].
    + subst y. contradiction.
    + pose proof (strictly_sorted_nth v y x Hv) as Hc.
      assert (Hyx : y < x < length v) by (split; [exact Hgt | apply Hb; now left]).
      specialize (Hc Hyx). lra.
Qed.

(** On such values the permutation of the model is the one every sort
    returns. *)
Lemma argsort_unique_on_distinct (v : list Q) (p : list nat) :
  Sorted Qlt v ->
  Permutation p (seq 0 (length v)) ->
  Sorted Qle (map (fun i => nth i v 0%Q) p) ->
  p = argsort v.
Proof.
  intros Hv Hp Hs.
  rewrite (sorting_permutation_unique v p Hv Hp Hs).
  symmetry. apply argsort_of_sorted. now apply Sorted_Qlt_Qle.
Qed.

(** X1: [copy()] of a dataset whose wavenumber axes ascend strictly gives
    a dataset with the same waiting times, axes and data, held in four
    new array objects, with the result fields empty; its axes ascend
    strictly again, and the store keeps every array it had. *)
Theorem copy_of_sorted_dataset (w : world) (self : TwoDim) :
  strictly_ascending_dataset w self ->
  exists c w',
    copy self w = (Returns c, w')
    /\ array_at w' (t c) = array_at w (t self)
    /\ array_at w' (pump_wn c) = array_at w (pump_wn self)
    /\ array_at w' (probe_wn c) = array_at w (probe_wn self)
    /\ array_at w' (spec2d c) = array_at w (spec2d self)
    /\ single_cls_result_ c = None /\ cls_result_ c = None
    /\ strictly_ascending_dataset w' c
    /\ (forall r, valid_ref w r -> array_at w' r = array_at w r)
    /\ (forall r, In r [t c; pump_wn c; probe_wn c; spec2d c] ->
          ~ valid_ref w r).
Proof.
  intros (Hok & Sp' & Sr').
  pose proof (Sorted_Qlt_Qle _ Sp') as Sp.
  pose proof (Sorted_Qlt_Qle _ Sr') as Sr.
  pose proof (copy_run w self Hok) as Hcopy. cbv zeta in Hcopy.
  destruct Hok as (Vt & Vp & Vr & Vs & Ht & Hp & Hr & Wsa & Hs).
  rewrite constructed_of_sorted in Hcopy by assumption.
  set (L := length (arrays w)) in *.
  eexists. eexists. split; [exact Hcopy|].
  cbn [t pump_wn probe_wn spec2d single_cls_result_ cls_result_].
  unfold L. rewrite !array_at_new. cbn [nth].
  repeat (split; [reflexivity|]).
  split.
  { unfold strictly_ascending_dataset, dataset_ok.
    cbn [t pump_wn probe_wn spec2d].
    unfold valid_ref. rewrite extend_length.
    rewrite !array_at_new. cbn [nth length].
    repeat match goal with |- _ /\ _ => split end; try lia; assumption. }
  split; [intros r Vr'; now apply array_at_old|].
  intros r Hin. unfold valid_ref. simpl in Hin. lia.
Qed.



Ltac strictly_sorted_by_computation :=
  match goal with
  | |- Sorted Qlt ?l => let l' := eval vm_compute in l in change (Sorted Qlt l')
  end;
  repeat first
    [ apply Sorted_nil | apply HdRel_nil
    | apply Sorted_cons | apply HdRel_cons
    | apply Qlt_alt; reflexivity ].

Lemma sorted_dataset_strictly_ascending :
  strictly_ascending_dataset sorted_world sorted_dataset.
Proof.
  split; [exact sorted_dataset_ok|].
  split; strictly_sorted_by_computation.
Qed.

Lemma copy_of_sorted_dataset_witness :
  strictly_ascending_dataset sorted_world sorted_dataset
  /\ exists c w', copy sorted_dataset sorted_world = (Returns c, w')
       /\ array_at w' (spec2d c) = array_at sorted_world (spec2d sorted_dataset).
Proof.
  split; [exact sorted_dataset_strictly_ascending|].
  destruct (copy_of_sorted_dataset sorted_world sorted_dataset
              sorted_dataset_strictly_ascending)
    as (c & w' & Hrun & _ & _ & _ & Hs & _).
  exists c, w'. split; assumption.
Defined.

(** ** Masks and the indices they stand for *)

Lemma nonzero_from_bound (s : nat) (m : list bool) :
  Forall (fun i => s <= i < s + length m) (nonzero_from s m).
Proof.
  revert s. induction m as [|b m IH]; intros s; simpl; [constructor|].
  assert (H : Forall (fun i => s <= i < s + S (length m)) (nonzero_from (S s) m)).
  { eapply Forall_impl; [|apply IH]. simpl. intros i Hi. lia. }
  destruct b; [constructor; [lia|]|]; exact H.
Qed.

Lemma nonzero_bound (m : list bool) :
  Forall (fun i => i < length m) (nonzero m).
Proof.
  eapply Forall_impl; [|apply (nonzero_from_bound 0 m)].
  simpl. intros i Hi. lia.
Qed.

Lemma map_nth_nonzero_from {A} (s : nat) (m : list bool) (l : list A) (d : A) :
  length m = length l ->
  map (fun i => nth (i - s) l d) (nonzero_from s m) = select m l.
Proof.
  revert s l. induction m as [|b m IH]; intros s [|x l] H; simpl in *;
    try discriminate; [reflexivity|].
  injection H as H.
  assert (E : map (fun i => nth (i - s) (x :: l) d) (nonzero_from (S s) m)
              = select m l).
  { rewrite <- (IH (S s) l H). apply map_ext_in. intros i Hi.
    pose proof (nonzero_from_bound (S s) m) as Hb.
    rewrite Forall_forall in Hb. specialize (Hb i Hi).
    replace (i - s) with (S (i - S s)) by lia. reflexivity. }
  destruct b; simpl; [|exact E].
  rewrite Nat.sub_diag. simpl. f_equal. exact E.
Qed.

(** Taking the entries at the indices of a mask is selecting by the mask. *)
Lemma map_nth_nonzero {A} (m : list bool) (l : list A) (d : A) :
  length m = length l ->
  map (fun i => nth i l d) (nonzero m) = select m l.
Proof.
  intros H. rewrite <- (map_nth_nonzero_from 0 m l d H).
  apply map_ext. intros i. now rewrite Nat.sub_0_r.
Qed.

Lemma select_length {A} (m : list bool) (l : list A) (d : A) :
  length m = length l -> length (select m l) = length (nonzero m).
Proof.
  intros H. rewrite <- (map_nth_nonzero m l d H). apply length_map.
Qed.

Lemma compress_ok {A} (ax : nat) (mask : list bool) (a : ndarray A) :
  ax < length (shape a) -> length mask = dim_of ax (shape a) ->
  compress_axis ax mask a = Returns (taken ax (nonzero mask) a).
Proof.
  intros Hax Hlen. unfold compress_axis.
  apply Nat.ltb_lt in Hax as Hax'. rewrite Hax'. simpl negb. cbv iota.
  rewrite Hlen, Nat.eqb_refl. simpl negb. cbv iota.
  apply take_axis_ok; [assumption|].
  rewrite <- Hlen. apply nonzero_bound.
Qed.

(** [a[:, i2, :][:, :, i1]], entry by entry. *)
Lemma reindexed_get3_rows_first {A} (d : A) (sa : ndarray A) (n m k : nat)
      (i1 i2 : list nat) (i j c : nat) :
  wf_array sa -> shape sa = [n; m; k] ->
  Forall (fun x => x < k) i1 -> Forall (fun x => x < m) i2 ->
  i < n -> j < length i2 -> c < length i1 ->
  get3 d (taken 2 i1 (taken 1 i2 sa)) i j c
  = get3 d sa i (nth j i2 0) (nth c i1 0).
Proof.
  intros Hwf Hs H1 H2 Hi Hj Hc.
  set (sb := taken 1 i2 sa).
  assert (Hsb : shape sb = [n; length i2; k]).
  { unfold sb. now rewrite taken_shape, Hs. }
  assert (Wsb : wf_array sb).
  { apply taken_wf; rewrite ?Hs; simpl; auto. }
  assert (Hc1 : nth c i1 0 < k).
  { rewrite Forall_forall in H1. apply H1, nth_In, Hc. }
  assert (E1 : nth ((i * length i2 + j) * k + nth c i1 0) (data sb) d
               = nth ((i * m + nth j i2 0) * k + nth c i1 0) (data sa) d).
  { pose proof (@taken_nth A 1 i2 sa i j (nth c i1 0) d Hwf) as E.
    rewrite Hs in E. unfold dim_of, inner_of, outer_of in E.
    cbn [nth firstn skipn prod_dims fold_right length] in E.
    rewrite !Nat.mul_1_r in E.
    apply E; try assumption; lia. }
  clearbody sb.
  unfold get3. rewrite taken_shape, Hsb, Hs. unfold dim_of.
  cbn [nth firstn skipn app].
  pose proof (@taken_nth A 2 i1 sb (i * length i2 + j) c 0 d Wsb) as E2.
  rewrite Hsb in E2. unfold dim_of, inner_of, outer_of in E2.
  cbn [nth firstn skipn prod_dims fold_right length] in E2.
  rewrite !Nat.mul_1_r, !Nat.add_0_r in E2.
  rewrite E2; try assumption; try lia. nia.
Qed.

Lemma StronglySorted_select {A} (R : A -> A -> Prop) (m : list bool) (l : list A) :
  StronglySorted R l -> StronglySorted R (select m l).
Proof.
  intros H. revert m. induction H as [|x l Hl IH Hx]; intros [|b m]; simpl;
    try constructor.
  destruct b; [|apply IH].
  constructor; [apply IH | now apply Forall_select].
Qed.

Lemma Sorted_Qlt_select (m : list bool) (l : list Q) :
  Sorted Qlt l -> Sorted Qlt (select m l).
Proof.
  intros H. apply StronglySorted_Sorted, StronglySorted_select.
  apply Sorted_StronglySorted; [|exact H].
  intros x y z. apply Qlt_trans.
Qed.

Lemma Sorted_select (m : list bool) (l : list Q) :
  Sorted Qle l -> Sorted Qle (select m l).
Proof.
  intros H. apply StronglySorted_Sorted, StronglySorted_select.
  apply Sorted_StronglySorted; [|exact H].
  intros x y z. apply Qle_trans.
Qed.

(** ** [select_range] on any ranges *)

(** X2: on a dataset whose axes ascend strictly, [select_range] without
    [invert] returns a dataset whose pump and probe axes are the values
    of the old axes where the masks hold, in the old order, whose data at
    [(i, j, k)] is the old data at waiting time [i] and at the [j]-th kept
    probe and [k]-th kept pump position, and whose axes ascend strictly
    again.  The arrays of the store are as before. *)
Theorem select_range_keeps_masked (w : world) (self : TwoDim)
        (pump_range probe_range : Q * Q) :
  strictly_ascending_dataset w self ->
  let ta := array_at w (t self) in
  let pa := array_at w (pump_wn self) in
  let ra := array_at w (probe_wn self) in
  let sa := array_at w (spec2d self) in
  let pu_mask := inbetween (data pa) (py_min pump_range) (py_max pump_range) in
  let pr_mask := inbetween (data ra) (py_min probe_range) (py_max probe_range) in
  exists d w',
    select_range self pump_range probe_range false w = (Returns d, w')
    /\ array_at w' (t d) = ta
    /\ array_at w' (pump_wn d) = array1 (select pu_mask (data pa))
    /\ array_at w' (probe_wn d) = array1 (select pr_mask (data ra))
    /\ (forall i j k,
          i < size ta -> j < length (nonzero pr_mask) ->
          k < length (nonzero pu_mask) ->
          get3 0%Q (array_at w' (spec2d d)) i j k
          = get3 0%Q sa i (nth j (nonzero pr_mask) 0) (nth k (nonzero pu_mask) 0))
    /\ strictly_ascending_dataset w' d
    /\ (forall r, valid_ref w r -> array_at w' r = array_at w r).
Proof.
  intros (Hok & Sp' & Sr') ta pa ra sa pu_mask pr_mask.
  pose proof (Sorted_Qlt_Qle _ Sp') as Sp.
  pose proof (Sorted_Qlt_Qle _ Sr') as Sr.
  pose proof (copy_run w self Hok) as Hcopy. cbv zeta in Hcopy.
  destruct Hok as (Vt & Vp & Vr & Vs & Ht & Hp & Hr & Wsa & Hs).
  fold ta pa ra sa in Hcopy, Ht, Hp, Hr, Wsa, Hs, Sp, Sr, Sp', Sr'.
  rewrite constructed_of_sorted in Hcopy by assumption.
  set (L := length (arrays w)) in *.
  set (J := nonzero pr_mask). set (K := nonzero pu_mask).
  assert (Lpu : length pu_mask = length (data pa)) by apply inbetween_length.
  assert (Lpr : length pr_mask = length (data ra)) by apply inbetween_length.
  assert (BJ : Forall (fun x => x < size ra) J).
  { rewrite (size_1d Hr), <- Lpr. apply nonzero_bound. }
  assert (BK : Forall (fun x => x < size pa) K).
  { rewrite (size_1d Hp), <- Lpu. apply nonzero_bound. }
  set (s1 := taken 1 J sa).
  set (s2 := taken 2 K s1).
  assert (Hs1 : shape s1 = [size ta; length J; size pa]).
  { unfold s1. now rewrite taken_shape, Hs. }
  assert (Ws1 : wf_array s1).
  { apply taken_wf; rewrite ?Hs; simpl; auto. }
  assert (Hs2 : shape s2 = [size ta; length J; length K]).
  { unfold s2. now rewrite taken_shape, Hs1. }
  assert (Ws2 : wf_array s2).
  { apply taken_wf; rewrite ?Hs1; simpl; auto. }
  set (p2 := array1 (select pu_mask (data pa))).
  set (r2 := array1 (select pr_mask (data ra))).
  exists (mkTwoDim (L + 3) (L + 8) (L + 9) (L + 7) None None).
  exists (extend w ([sa; ra; pa; ta; pa; ra; sa] ++ [s2; p2; r2])).
  split.
  { unfold select_range. do 2 step. fold pa ra pu_mask pr_mask.
    unfold lift at 1. unfold bind at 1. cbn [fst snd].
    rewrite (bind_returns _ _ _ _ _ Hcopy). cbn [t pump_wn probe_wn spec2d].
    step. unfold L. rewrite (array_at_new w _ 6). cbn [nth].
    rewrite (@bind_lift_returns _ _ _ s2).
    2:{ cbn [index_axis].
        rewrite compress_ok
          by (rewrite Hs; unfold dim_of; cbn [length nth];
              first [lia | now rewrite (size_1d Hr)]).
        cbn [obind]. fold J s1.
        rewrite compress_ok
          by (rewrite Hs1; unfold dim_of; cbn [length nth];
              first [lia | now rewrite (size_1d Hp)]).
        reflexivity. }
    step. rewrite extend_extend, extend_length.
    step. rewrite (array_at_new w _ 4). cbn [nth app].
    rewrite (@bind_lift_returns _ _ _ p2).
    2:{ cbn [index_axis].
        rewrite compress_ok.
        - rewrite <- take_axis_ok.
          + rewrite (@take_1d pa) by
              (try assumption; rewrite <- Lpu; apply nonzero_bound).
            unfold p2. now rewrite map_nth_nonzero.
          + rewrite Hp. simpl. lia.
          + rewrite Hp. unfold dim_of. simpl. rewrite <- Lpu. apply nonzero_bound.
        - rewrite Hp. simpl. lia.
        - rewrite Hp. unfold dim_of. simpl. exact Lpu. }
    step. rewrite extend_extend, extend_length.
    step. rewrite (array_at_new w _ 5). cbn [nth app].
    rewrite (@bind_lift_returns _ _ _ r2).
    2:{ cbn [index_axis].
        rewrite compress_ok.
        - rewrite <- take_axis_ok.
          + rewrite (@take_1d ra) by
              (try assumption; rewrite <- Lpr; apply nonzero_bound).
            unfold r2. now rewrite map_nth_nonzero.
          + rewrite Hr. simpl. lia.
          + rewrite Hr. unfold dim_of. simpl. rewrite <- Lpr. apply nonzero_bound.
        - rewrite Hr. simpl. lia.
        - rewrite Hr. unfold dim_of. simpl. exact Lpr. }
    step. rewrite extend_extend, extend_length.
    unfold ret. cbn [length app]. fold L. reflexivity. }
  cbn [t pump_wn probe_wn spec2d]. unfold L.
  rewrite !array_at_new. cbn [nth app].
  split; [reflexivity|]. split; [reflexivity|]. split; [reflexivity|].
  split.
  { intros i j k Hi Hj Hk. unfold s2, s1.
    now apply (reindexed_get3_rows_first 0%Q sa (size ta) (size ra) (size pa)). }
  split.
  { unfold strictly_ascending_dataset, dataset_ok.
    cbn [t pump_wn probe_wn spec2d].
    unfold valid_ref. rewrite extend_length.
    rewrite !array_at_new. cbn [nth app length].
    repeat match goal with |- _ /\ _ => split end; try lia;
      try assumption; try apply array1_is_1d.
    - rewrite Hs2. unfold p2, r2, size. cbn [shape array1 prod_dims fold_right].
      rewrite !Nat.mul_1_r.
      now rewrite (select_length pu_mask (data pa) 0%Q Lpu),
                  (select_length pr_mask (data ra) 0%Q Lpr).
    - unfold p2. cbn [data array1]. now apply Sorted_Qlt_select.
    - unfold r2. cbn [data array1]. now apply Sorted_Qlt_select. }
  intros r Vr'. now apply array_at_old.
Qed.

Lemma select_range_keeps_masked_witness :
  exists d w',
    select_range sorted_dataset (10#1, 20#1)%Q (4#1, 4#1)%Q false sorted_world
    = (Returns d, w')
    /\ strictly_ascending_dataset w' d.
Proof.
  destruct (select_range_keeps_masked sorted_world sorted_dataset
              (10#1, 20#1)%Q (4#1, 4#1)%Q sorted_dataset_strictly_ascending)
    as (d & w' & Hrun & _ & _ & _ & _ & Hasc & _).
  exists d, w'. split; assumption.
Defined.

(** ** [select_t_range] *)


Lemma inbetween_fl_length (a : list Q) (lo hi : fl) :
  length (inbetween_fl a lo hi) = length a.
Proof. apply length_map. Qed.

(** [a[i0, :, :]], entry by entry. *)
Lemma reindexed_get3_times {A} (d : A) (sa : ndarray A) (n m k : nat)
      (i0 : list nat) (i j c : nat) :
  wf_array sa -> shape sa = [n; m; k] ->
  Forall (fun x => x < n) i0 ->
  i < length i0 -> j < m -> c < k ->
  get3 d (taken 0 i0 sa) i j c = get3 d sa (nth i i0 0) j c.
Proof.
  intros Hwf Hs H0 Hi Hj Hc.
  unfold get3. rewrite taken_shape, Hs. unfold dim_of.
  cbn [nth firstn skipn app].
  pose proof (@taken_nth A 0 i0 sa 0 i (j * k + c) d Hwf) as E.
  rewrite Hs in E. unfold dim_of, inner_of, outer_of in E.
  cbn [nth firstn skipn prod_dims fold_right length] in E.
  rewrite !Nat.mul_1_r, !Nat.mul_0_l, !Nat.add_0_l in E.
  replace ((i * m + j) * k + c) with (i * (m * k) + (j * k + c)) by ring.
  replace ((nth i i0 0 * m + j) * k + c)
    with (nth i i0 0 * (m * k) + (j * k + c)) by ring.
  apply E; try assumption; try lia. nia.
Qed.

(** What [select_t_range] returns and stores. *)
Lemma select_t_range_run (w : world) (self : TwoDim) (t_min t_max : fl) :
  ascending_dataset w self ->
  let ta := array_at w (t self) in
  let pa := array_at w (pump_wn self) in
  let ra := array_at w (probe_wn self) in
  let sa := array_at w (spec2d self) in
  let idx := inbetween_fl (data ta) t_min t_max in
  let L := length (arrays w) in
  select_t_range self t_min t_max w
  = (Returns (mkTwoDim (L + 7) (L + 4) (L + 5) (L + 8) None None),
     extend w ([sa; ra; pa; ta; pa; ra; sa]
               ++ [array1 (select idx (data ta)); taken 0 (nonzero idx) sa])).
Proof.
  intros (Hok & Sp & Sr) ta pa ra sa idx L.
  pose proof (copy_run w self Hok) as Hcopy. cbv zeta in Hcopy.
  destruct Hok as (Vt & Vp & Vr & Vs & Ht & Hp & Hr & Wsa & Hs).
  fold ta pa ra sa L in Hcopy, Ht, Hp, Hr, Wsa, Hs, Sp, Sr.
  rewrite constructed_of_sorted in Hcopy by assumption.
  assert (Lidx : length idx = length (data ta)) by apply inbetween_fl_length.
  set (s2 := taken 0 (nonzero idx) sa).
  set (t2 := array1 (select idx (data ta))).
  unfold select_t_range. step. fold ta idx.
  rewrite (bind_returns _ _ _ _ _ Hcopy). cbn [t pump_wn probe_wn spec2d].
  step. unfold L. rewrite (array_at_new w _ 3). cbn [nth].
  rewrite (@bind_lift_returns _ _ _ t2).
  2:{ rewrite compress_ok.
      - rewrite <- take_axis_ok.
        + rewrite (@take_1d ta) by
            (try assumption; rewrite <- Lidx; apply nonzero_bound).
          unfold t2. now rewrite map_nth_nonzero.
        + rewrite Ht. simpl. lia.
        + rewrite Ht. unfold dim_of. simpl. rewrite <- Lidx. apply nonzero_bound.
      - rewrite Ht. simpl. lia.
      - rewrite Ht. unfold dim_of. simpl. exact Lidx. }
  step. rewrite extend_extend, extend_length.
  step. rewrite (array_at_new w _ 6). cbn [nth app].
  rewrite (@bind_lift_returns _ _ _ s2).
  2:{ rewrite compress_ok; [reflexivity | rewrite Hs; simpl; lia |].
      rewrite Hs. unfold dim_of. cbn [nth]. now rewrite (size_1d Ht). }
  step. rewrite extend_extend, extend_length.
  unfold ret. cbn [length app]. reflexivity.
Qed.

(** X3: on a dataset whose axes ascend strictly, [select_t_range]
    returns a dataset whose waiting times are those where the mask holds,
    in the old order, whose wavenumber axes are the old ones, whose data
    at [(i, j, k)] is the old data at the [i]-th kept waiting time, and
    whose axes ascend strictly again.  The arrays of the store are as
    before. *)
Theorem select_t_range_keeps_masked (w : world) (self : TwoDim)
        (t_min t_max : fl) :
  strictly_ascending_dataset w self ->
  let ta := array_at w (t self) in
  let pa := array_at w (pump_wn self) in
  let ra := array_at w (probe_wn self) in
  let sa := array_at w (spec2d self) in
  let idx := inbetween_fl (data ta) t_min t_max in
  exists d w',
    select_t_range self t_min t_max w = (Returns d, w')
    /\ array_at w' (t d) = array1 (select idx (data ta))
    /\ array_at w' (pump_wn d) = pa
    /\ array_at w' (probe_wn d) = ra
    /\ (forall i j k,
          i < length (nonzero idx) -> j < size ra -> k < size pa ->
          get3 0%Q (array_at w' (spec2d d)) i j k
          = get3 0%Q sa (nth i (nonzero idx) 0) j k)
    /\ strictly_ascending_dataset w' d
    /\ (forall r, valid_ref w r -> array_at w' r = array_at w r).
Proof.
  intros Hstrict ta pa ra sa idx.
  pose proof (select_t_range_run w self t_min t_max
                (strictly_ascending_is_ascending w self Hstrict)) as Hrun.
  cbv zeta in Hrun. fold ta pa ra sa idx in Hrun.
  destruct Hstrict as ((Vt & Vp & Vr & Vs & Ht & Hp & Hr & Wsa & Hs) & Sp & Sr).
  fold ta pa ra sa in Ht, Hp, Hr, Wsa, Hs, Sp, Sr.
  set (L := length (arrays w)) in *.
  set (I := nonzero idx) in *.
  assert (Lidx : length idx = length (data ta)) by apply inbetween_fl_length.
  assert (BI : Forall (fun x => x < size ta) I).
  { rewrite (size_1d Ht), <- Lidx. apply nonzero_bound. }
  set (s2 := taken 0 I sa) in *.
  assert (Hs2 : shape s2 = [length I; size ra; size pa]).
  { unfold s2. now rewrite taken_shape, Hs. }
  assert (Ws2 : wf_array s2).
  { apply taken_wf; rewrite ?Hs; simpl; auto. }
  set (t2 := array1 (select idx (data ta))) in *.
  eexists. eexists. split; [exact Hrun|].
  cbn [t pump_wn probe_wn spec2d]. unfold L.
  rewrite !array_at_new. cbn [nth app].
  split; [reflexivity|]. split; [reflexivity|]. split; [reflexivity|].
  split.
  { intros i j k Hi Hj Hk. unfold s2.
    now apply (reindexed_get3_times 0%Q sa (size ta) (size ra) (size pa)). }
  split.
  { unfold strictly_ascending_dataset, dataset_ok.
    cbn [t pump_wn probe_wn spec2d].
    unfold valid_ref. rewrite extend_length.
    rewrite !array_at_new. cbn [nth app length].
    repeat match goal with |- _ /\ _ => split end; try lia;
      try assumption; try apply array1_is_1d.
    rewrite Hs2. unfold t2. rewrite (size_1d (array1_is_1d _)).
    cbn [data array1].
    now rewrite (select_length idx (data ta) 0%Q Lidx). }
  intros r Vr'. now apply array_at_old.
Qed.

Lemma select_t_range_keeps_masked_witness :
  exists d w',
    select_t_range sorted_dataset (Fin (2#1)) PInf sorted_world = (Returns d, w')
    /\ array_at w' (t d) = array1 [2#1]%Q.
Proof.
  destruct (select_t_range_keeps_masked sorted_world sorted_dataset
              (Fin (2#1)) PInf sorted_dataset_strictly_ascending)
    as (d & w' & Hrun & Ht & _).
  exists d, w'. split; [exact Hrun|]. rewrite Ht. reflexivity.
Defined.





(** ** What [save_single_txt] and [save_txt] write *)

Lemma path_eqb_refl (p : path) : path_eqb p p = true.
Proof. unfold path_eqb. now destruct (list_eq_dec string_dec p p). Qed.

Lemma path_eqb_neq (p q : path) : p <> q -> path_eqb p q = false.
Proof. intros H. unfold path_eqb. now destruct (list_eq_dec string_dec p q). Qed.

Lemma block_matrix_shape (pa ra sa : ndarray Q) (i : nat) :
  shape (block_matrix pa ra sa i) = [S (size ra); S (size pa)].
Proof. reflexivity. Qed.

(** The table of [save_single_txt], entry by entry. *)
Lemma block_matrix_entries (pa ra sa : ndarray Q) (n i : nat) :
  is_1d pa -> is_1d ra -> wf_array sa ->
  shape sa = [n; size ra; size pa] -> i < n ->
  let tbl := block_matrix pa ra sa i in
  wf_array tbl
  /\ get2 0%Q tbl 0 0 = 0%Q
  /\ (forall c, c < size pa -> get2 0%Q tbl 0 (S c) = nth c (data pa) 0%Q)
  /\ (forall j, j < size ra -> get2 0%Q tbl (S j) 0 = nth j (data ra) 0%Q)
  /\ (forall j c, j < size ra -> c < size pa ->
        get2 0%Q tbl (S j) (S c) = get3 0%Q sa i j c).
Proof.
  intros Hp Hr Wsa Hs Hi tbl.
  set (m := size ra) in *. set (k := size pa) in *.
  assert (Lp : length (data pa) = k) by (symmetry; now apply size_1d).
  assert (Lsa : length (data sa) = n * (m * k)).
  { unfold wf_array, size in Wsa. rewrite Wsa, Hs. simpl. lia. }
  set (row := fun j => nth j (data ra) 0%Q :: block k (data sa) (i * m + j)).
  assert (Lrow : forall j, In j (seq 0 m) -> length (row j) = S k).
  { intros j Hj. apply in_seq in Hj. unfold row. simpl. f_equal.
    apply block_length. rewrite Lsa, Nat.mul_assoc.
    apply Nat.mul_le_mono_r. nia. }
  assert (Hrows : forall j c, j < m -> c < S k ->
            get2 0%Q tbl (S j) c = nth c (row j) 0%Q).
  { intros j c Hj Hc. unfold get2, tbl, block_matrix. fold m k row.
    cbn [shape data dim_of nth].
    rewrite app_nth2 by (simpl; lia).
    cbn [length]. rewrite Lp.
    replace (S j * S k + c - S k) with (j * S k + c) by lia.
    rewrite (nth_flat_map_uniform row (seq 0 m) 0%Q 0 Lrow)
      by (rewrite ?length_seq; lia).
    now rewrite seq_nth by lia. }
  split.
  { unfold wf_array, size, tbl, block_matrix. fold m k row.
    cbn [shape data prod_dims fold_right]. rewrite length_app.
    rewrite (flat_map_constant_length (c := S k)) by exact Lrow.
    rewrite length_seq. simpl length. rewrite Lp. lia. }
  split; [reflexivity|].
  split.
  { intros c Hc. unfold get2, tbl, block_matrix. fold m k row.
    cbn [shape data dim_of nth]. rewrite Nat.mul_0_l, Nat.add_0_l.
    rewrite app_nth1 by (simpl; lia). reflexivity. }
  split.
  { intros j Hj. rewrite Hrows by lia. reflexivity. }
  intros j c Hj Hc. rewrite Hrows by lia. unfold row. cbn [nth].
  rewrite block_nth by assumption.
  unfold get3. rewrite Hs. unfold dim_of. cbn [nth]. reflexivity.
Qed.

Lemma save_single_txt_run (w : world) (self : TwoDim) (fname : path) (i : nat) :
  i < dim_of 0 (shape (array_at w (spec2d self))) ->
  is_directory (fs w) fname = false ->
  is_directory (fs w) (removelast fname) = true ->
  save_single_txt self fname i w
  = (Returns tt,
     set_fs ((fname,
              File (mktable_file txt_header
                      (block_matrix (array_at w (pump_wn self))
                                    (array_at w (probe_wn self))
                                    (array_at w (spec2d self)) i))) :: fs w)
            (log_call (SysWrite fname) w)).
Proof.
  intros Hi Hf Hd. unfold save_single_txt. do 3 step.
  apply Nat.ltb_lt in Hi. rewrite Hi.
  unfold lift at 1. unfold bind at 1.
  unfold savetxt. now rewrite Hf, Hd.
Qed.

(** X5: [save_single_txt] of the [i]-th spectrum of a dataset into an
    existing directory returns and leaves a file that holds a table of
    one more row and column than the spectrum: a 0 in the corner, the
    pump axis along the first row, the probe axis down the first column,
    and below and right of them the spectrum.  No array is changed. *)
Theorem save_single_txt_writes_table (w : world) (self : TwoDim)
        (fname : path) (i : nat) :
  dataset_ok w self ->
  i < size (array_at w (t self)) ->
  is_directory (fs w) fname = false ->
  is_directory (fs w) (removelast fname) = true ->
  let pa := array_at w (pump_wn self) in
  let ra := array_at w (probe_wn self) in
  let sa := array_at w (spec2d self) in
  exists tbl w',
    save_single_txt self fname i w = (Returns tt, w')
    /\ fs_lookup (fs w') fname = Some (File (mktable_file txt_header tbl))
    /\ arrays w' = arrays w
    /\ shape tbl = [S (size ra); S (size pa)]
    /\ wf_array tbl
    /\ get2 0%Q tbl 0 0 = 0%Q
    /\ (forall c, c < size pa -> get2 0%Q tbl 0 (S c) = nth c (data pa) 0%Q)
    /\ (forall j, j < size ra -> get2 0%Q tbl (S j) 0 = nth j (data ra) 0%Q)
    /\ (forall j c, j < size ra -> c < size pa ->
          get2 0%Q tbl (S j) (S c) = get3 0%Q sa i j c).
Proof.
  intros (Vt & Vp & Vr & Vs & Ht & Hp & Hr & Wsa & Hs) Hi Hf Hd pa ra sa.
  fold pa ra sa in Hp, Hr, Wsa, Hs.
  exists (block_matrix pa ra sa i). eexists.
  split.
  { apply save_single_txt_run; try assumption.
    fold sa. rewrite Hs. exact Hi. }
  split; [cbn [fs set_fs fs_lookup]; now rewrite path_eqb_refl|].
  split; [reflexivity|].
  split; [reflexivity|].
  exact (block_matrix_entries pa ra sa _ i Hp Hr Wsa Hs Hi).
Qed.

Lemma save_single_txt_writes_table_witness :
  exists tbl w',
    save_single_txt sorted_dataset ["out"; "first.txt"] 0 disk_world
    = (Returns tt, w')
    /\ fs_lookup (fs w') ["out"; "first.txt"]
       = Some (File (mktable_file txt_header tbl))
    /\ get2 0%Q tbl 1 1
       = get3 0%Q (array_at disk_world (spec2d sorted_dataset)) 0 0 0.
Proof.
  destruct (save_single_txt_writes_table disk_world sorted_dataset
              ["out"; "first.txt"] 0)
    as (tbl & w' & Hrun & Hfile & _ & _ & _ & _ & _ & _ & Hin).
  - exact sorted_dataset_ok.
  - vm_compute. lia.
  - reflexivity.
  - reflexivity.
  - exists tbl, w'. split; [exact Hrun|]. split; [exact Hfile|].
    apply Hin; vm_compute; lia.
Defined.

(** *** The loop of [save_txt] *)

Lemma written_snoc (name : nat -> path) (tbl : nat -> table_file)
      (l : list nat) (i : nat) (f : filesystem) :
  written name tbl (l ++ [i]) f = (name i, File (tbl i)) :: written name tbl l f.
Proof. unfold written. now rewrite fold_left_app. Qed.

Lemma written_app (name : nat -> path) (tbl : nat -> table_file)
      (l1 l2 : list nat) (f : filesystem) :
  written name tbl (l1 ++ l2) f = written name tbl l2 (written name tbl l1 f).
Proof. unfold written. apply fold_left_app. Qed.

(** A path that is not written to is as before. *)
Lemma written_other (name : nat -> path) (tbl : nat -> table_file)
      (l : list nat) (f : filesystem) (q : path) :
  (forall i, In i l -> name i <> q) ->
  fs_lookup (written name tbl l f) q = fs_lookup f q.
Proof.
  revert f. induction l as [|x l IH]; intros f H; [reflexivity|].
  change (written name tbl (x :: l) f)
    with (written name tbl l ((name x, File (tbl x)) :: f)).
  rewrite IH by (intros i Hi; apply H; now right).
  cbn [fs_lookup]. rewrite path_eqb_neq; [reflexivity|].
  intros E. apply (H x); [now left | now symmetry].
Qed.

(** A file holds what was written to it last. *)
Lemma written_last (name : nat -> path) (tbl : nat -> table_file)
      (l1 l2 : list nat) (i : nat) (f : filesystem) :
  (forall j, In j l2 -> name j <> name i) ->
  fs_lookup (written name tbl (l1 ++ i :: l2) f) (name i)
  = Some (File (tbl i)).
Proof.
  intros H. rewrite written_app.
  change (written name tbl (i :: l2) (written name tbl l1 f))
    with (written name tbl l2 ((name i, File (tbl i)) :: written name tbl l1 f)).
  rewrite written_other by assumption.
  cbn [fs_lookup]. now rewrite path_eqb_refl.
Qed.

(** Every path written to holds a file. *)
Lemma written_is_file (name : nat -> path) (tbl : nat -> table_file)
      (l : list nat) (f : filesystem) (i : nat) :
  In i l -> name i <> [] -> is_file (written name tbl l f) (name i) = true.
Proof.
  intros Hin Hne. revert f.
  induction l as [|x l IH] using rev_ind; intros f; [destruct Hin|].
  rewrite written_snoc.
  destruct (list_eq_dec string_dec (name i) (name x)) as [Ex|Nx].
  - rewrite Ex. unfold is_file.
    destruct (name x) as [|a q] eqn:E; [congruence|].
    cbn [fs_lookup]. now rewrite path_eqb_refl.
  - apply in_app_or in Hin. destruct Hin as [Hin|[->|[]]]; [|congruence].
    specialize (IH Hin f). unfold is_file in *.
    destruct (name i) as [|a q] eqn:E; [congruence|].
    cbn [fs_lookup]. rewrite path_eqb_neq by assumption. exact IH.
Qed.

Lemma txt_path_not_dir (p : path) (ti : Q) : txt_path p ti <> p.
Proof.
  unfold txt_path. intros E. apply (f_equal (@length string)) in E.
  rewrite length_app in E. simpl in E. lia.
Qed.

Lemma txt_path_nonempty (p : path) (ti : Q) : txt_path p ti <> [].
Proof. unfold txt_path. intros E. now apply app_eq_nil in E as [_ E]. Qed.

Lemma is_directory_written (name : nat -> path) (tbl : nat -> table_file)
      (i : nat) (f : filesystem) (q : path) :
  is_directory ((name i, File (tbl i)) :: f) q
  = if path_eqb q (name i) then match q with [] => true | _ => false end
    else is_directory f q.
Proof.
  unfold is_directory. destruct q as [|a q]; [now destruct (path_eqb _ _)|].
  cbn [fs_lookup]. now destruct (path_eqb (a :: q) (name i)).
Qed.

(** The loop of [save_txt] over the indices [l]. *)
Lemma save_txt_loop (self : TwoDim) (p : path) (ts : list Q) (l : list nat)
      (w : world) :
  let name := fun i => txt_path p (nth i ts 0%Q) in
  let tbl := fun i =>
    mktable_file txt_header
      (block_matrix (array_at w (pump_wn self)) (array_at w (probe_wn self))
                    (array_at w (spec2d self)) i) in
  (forall i, In i l -> i < length ts) ->
  (forall i, In i l -> i < dim_of 0 (shape (array_at w (spec2d self)))) ->
  is_directory (fs w) p = true ->
  (forall i, In i l -> is_directory (fs w) (name i) = false) ->
  for_each l (fun i =>
    ti <- lift (if i <? length ts then Returns (nth i ts 0%Q)
                else Raises IndexError) ;;
    save_single_txt self
      (p ++ [("wt_" ++ (format_3f ti ++ "ps") ++ ".txt")%string]) i)%py w
  = (Returns tt,
     mkworld (arrays w) (written name tbl l (fs w))
             (calls w ++ map (fun i => SysWrite (name i)) l)).
Proof.
  intros name tbl. revert w tbl.
  induction l as [|x l IH]; intros w tbl Hl Hd0 Hp Hn.
  - cbn [for_each written fold_left map]. rewrite app_nil_r.
    unfold ret. now destruct w.
  - cbn [for_each]. unfold bind at 1. unfold bind at 1.
    assert (Hx : (x <? length ts) = true)
      by (apply Nat.ltb_lt, Hl; now left).
    rewrite Hx. cbn [lift fst snd].
    change (p ++ [("wt_" ++ (format_3f (nth x ts 0%Q) ++ "ps") ++ ".txt")%string])
      with (name x).
    rewrite save_single_txt_run.
    2:{ apply Hd0. now left. }
    2:{ apply Hn. now left. }
    2:{ unfold name, txt_path. now rewrite removelast_last. }
    fold (tbl x).
    set (w1 := set_fs ((name x, File (tbl x)) :: fs w)
                      (log_call (SysWrite (name x)) w)).
    rewrite (IH w1).
    + unfold w1. cbn [arrays fs calls set_fs log_call map].
      change (written name tbl (x :: l) (fs w))
        with (written name tbl l ((name x, File (tbl x)) :: fs w)).
      now rewrite <- app_assoc.
    + intros i Hi. apply Hl. now right.
    + intros i Hi. apply Hd0. now right.
    + unfold w1. cbn [fs set_fs]. rewrite is_directory_written.
      rewrite path_eqb_neq; [exact Hp|].
      intros E. symmetry in E. now apply txt_path_not_dir in E.
    + intros i Hi. unfold w1. cbn [fs set_fs]. rewrite is_directory_written.
      destruct (path_eqb (name i) (name x)) eqn:E.
      * destruct (name i) as [|a q] eqn:E'; [|reflexivity].
        now apply txt_path_nonempty in E'.
      * apply Hn. now right.
Qed.

(** X6: on a dataset and an existing directory none of whose entries of
    the names to be written is a directory, [save_txt] returns; it asks
    whether the destination is a directory, calls [mkdir] on it and writes
    one file for each waiting time, in order; afterwards each of these
    names is a file, every other path is as before, and the file of a
    waiting time holds the table of its spectrum unless a later waiting
    time has the same name.  No array is changed. *)
Theorem save_txt_writes_each_spectrum (w : world) (self : TwoDim) (p : path) :
  dataset_ok w self ->
  let ta := array_at w (t self) in
  let pa := array_at w (pump_wn self) in
  let ra := array_at w (probe_wn self) in
  let sa := array_at w (spec2d self) in
  let n := size ta in
  let name := fun i => txt_path p (nth i (data ta) 0%Q) in
  is_directory (fs w) p = true ->
  (forall i, i < n -> is_directory (fs w) (name i) = false) ->
  exists w',
    save_txt self p w = (Returns tt, w')
    /\ arrays w' = arrays w
    /\ calls w' = calls w ++ SysIsDir p :: SysMkdir p
                          :: map (fun i => SysWrite (name i)) (seq 0 n)
    /\ (forall i, i < n -> is_file (fs w') (name i) = true)
    /\ (forall q, (forall i, i < n -> name i <> q) ->
          fs_lookup (fs w') q = fs_lookup (fs w) q)
    /\ (forall i, i < n ->
          (forall j, i < j < n -> name j <> name i) ->
          fs_lookup (fs w') (name i)
          = Some (File (mktable_file txt_header (block_matrix pa ra sa i)))).
Proof.
  intros (Vt & Vp & Vr & Vs & Ht & Hp & Hr & Wsa & Hs) ta pa ra sa n name Hd Hn.
  fold ta pa ra sa n in Ht, Hp, Hr, Wsa, Hs.
  set (tbl := fun i => mktable_file txt_header (block_matrix pa ra sa i)).
  set (w2 := log_call (SysMkdir p) (log_call (SysIsDir p) w)).
  assert (Ln : length (data ta) = n) by (symmetry; now apply size_1d).
  assert (E : save_txt self p w
              = (Returns tt,
                 mkworld (arrays w2) (written name tbl (seq 0 n) (fs w2))
                         (calls w2 ++ map (fun i => SysWrite (name i)) (seq 0 n)))).
  { unfold save_txt, bind at 1, is_dir. rewrite Hd. cbn [negb].
    unfold bind at 1. unfold bind at 1. unfold mkdir_parents_exist_ok.
    cbn [fs log_call]. rewrite Hd. cbn [ret fst snd]. fold w2.
    do 2 step.
    change (array_at w2 (spec2d self)) with sa.
    change (array_at w2 (t self)) with ta.
    rewrite Hs. cbn [lift]. unfold bind at 1. cbn [fst snd].
    apply (save_txt_loop self p (data ta) (seq 0 n) w2).
    - intros i Hi. apply in_seq in Hi. lia.
    - intros i Hi. apply in_seq in Hi.
      change (array_at w2 (spec2d self)) with sa. rewrite Hs.
      unfold dim_of. cbn [nth]. lia.
    - exact Hd.
    - intros i Hi. apply in_seq in Hi. apply Hn. lia. }
  eexists. split; [exact E|].
  cbn [arrays fs calls]. unfold w2. cbn [arrays fs calls log_call].
  split; [reflexivity|].
  split; [now rewrite <- !app_assoc|].
  split.
  { intros i Hi. apply written_is_file; [apply in_seq; lia|].
    apply txt_path_nonempty. }
  split.
  { intros q Hq. apply written_other. intros i Hi. apply in_seq in Hi.
    apply Hq. lia. }
  intros i Hi Hlast.
  replace (seq 0 n) with (seq 0 i ++ i :: seq (S i) (n - S i)).
  - apply (written_last name tbl). intros j Hj. apply in_seq in Hj.
    apply Hlast. lia.
  - change (i :: seq (S i) (n - S i)) with (seq i (S (n - S i))).
    rewrite <- seq_app. f_equal. lia.
Qed.

Lemma save_txt_writes_each_spectrum_witness :
  exists w',
    save_txt sorted_dataset ["out"] disk_world = (Returns tt, w')
    /\ arrays w' = arrays disk_world
    /\ is_file (fs w') ["out"; "wt_2.000ps.txt"] = true.
Proof.
  destruct (save_txt_writes_each_spectrum disk_world sorted_dataset ["out"])
    as (w' & Hrun & Harr & _ & Hfile & _).
  - exact sorted_dataset_ok.
  - reflexivity.
  - intros i Hi. vm_compute in Hi.
    destruct i as [|[|i]]; [reflexivity | reflexivity | lia].
  - exists w'. split; [exact Hrun|]. split; [exact Harr|].
    apply (Hfile 0). vm_compute. lia.
Defined.

(** ** The exponential fit at its limits *)

Lemma prefix_letter (i : nat) :
  i < 7 -> exists ch, String.get i "abcdefg" = Some ch.
Proof.
  intros H. do 7 (destruct i as [|i]; [simpl; eauto|]). lia.
Qed.

Lemma no_prefix_letter (i : nat) : 7 <= i -> String.get i "abcdefg" = None.
Proof.
  intros H. do 7 (destruct i as [|i]; [lia|]). reflexivity.
Qed.

(** The first loop of [exp_fit] runs out of prefixes at the eighth
    exponential. *)
Lemma add_exponentials_raises (taus : list Q) (i n : nat) (m : lmfit_model)
      (vals : list (string * Q)) :
  7 < i + length taus ->
  taus <> [] ->
  add_exponentials i taus n m vals = Raises IndexError.
Proof.
  revert i m vals. induction taus as [|v taus IH]; intros i m vals H Hne;
    [congruence|].
  cbn [add_exponentials].
  destruct (Nat.lt_ge_cases i 7) as [Hi|Hi].
  - destruct (prefix_letter i Hi) as [ch ->].
    apply IH; [simpl in H; lia|].
    destruct taus; [simpl in H; lia | discriminate].
  - now rewrite no_prefix_letter.
Qed.

Lemma add_exponentials_returns (taus : list Q) (i n : nat) (m : lmfit_model)
      (vals : list (string * Q)) :
  i + length taus <= 7 ->
  exists mv, add_exponentials i taus n m vals = Returns mv.
Proof.
  revert i m vals. induction taus as [|v taus IH]; intros i m vals H.
  - simpl. eauto.
  - cbn [add_exponentials]. simpl in H.
    destruct (prefix_letter i) as [ch ->]; [lia|].
    apply IH. lia.
Qed.

(** X7: with more than seven start values [exp_fit] raises an
    [IndexError], whatever the other arguments are: the prefixes run out
    before the minimiser is called, and no result is kept. *)
Theorem exp_fit_more_than_seven_taus
        (minimize : fit_request -> outcome (list (string * Q)))
        (self : FFCFResult) (start_taus : list Q)
        (use_const use_weights : bool) :
  7 < length start_taus ->
  exp_fit minimize self start_taus use_const use_weights = Raises IndexError.
Proof.
  intros H. unfold exp_fit, exp_fit_request.
  rewrite add_exponentials_raises; [reflexivity | simpl; lia |].
  destruct start_taus; [simpl in H; lia | discriminate].
Qed.

Lemma exp_fit_more_than_seven_taus_witness :
  exp_fit (fun _ => Returns []) decaying_slopes
          [1; 2; 3; 4; 5; 6; 7; 8]%Q true true
  = Raises IndexError.
Proof.
  apply exp_fit_more_than_seven_taus. simpl. lia.
Defined.

(** X8: with [use_const] and no slopes, [exp_fit] on at most seven start
    values raises the [ValueError] of [np.min] on an empty array, before
    the minimiser is called. *)
Theorem exp_fit_without_slopes
        (minimize : fit_request -> outcome (list (string * Q)))
        (self : FFCFResult) (start_taus : list Q) (use_weights : bool) :
  length start_taus <= 7 ->
  slopes self = [] ->
  exp_fit minimize self start_taus true use_weights
  = Raises (zero_size "minimum").
Proof.
  intros H Hs. unfold exp_fit, exp_fit_request.
  destruct (add_exponentials_returns start_taus 0 (length start_taus)
              ConstantModel [] H) as [mv ->].
  cbn [obind]. now rewrite Hs.
Qed.

Lemma exp_fit_without_slopes_witness :
  exp_fit (fun _ => Returns []) (mkFFCF [] [] None None) [1]%Q true true
  = Raises (ValueError
      "zero-size array to reduction operation minimum which has no identity").
Proof.
  apply (exp_fit_without_slopes (fun _ => Returns []) (mkFFCF [] [] None None)
           [1]%Q true); [simpl; lia | reflexivity].
Defined.

(** ** The centre line slope: what is read and what is kept *)

Lemma reads_ret {A} (a : A) : reads_only (ret a).
Proof. intros w. reflexivity. Qed.

Lemma reads_lift {A} (o : outcome A) : reads_only (lift o).
Proof. intros w. reflexivity. Qed.

Lemma reads_deref (l : loc) : reads_only (deref l).
Proof. intros w. reflexivity. Qed.

Lemma reads_bind {A B} (c : M A) (k : A -> M B) :
  reads_only c -> (forall a, reads_only (k a)) -> reads_only (bind c k).
Proof.
  intros Hc Hk w. unfold bind. specialize (Hc w).
  destruct (c w) as [[a|e] w1]; simpl in *; subst w1; [apply Hk | reflexivity].
Qed.

Lemma reads_t_idx (self : TwoDim) (x : Q) : reads_only (t_idx self x).
Proof.
  unfold t_idx. apply reads_bind; [apply reads_deref | intros ?; apply reads_lift].
Qed.

Ltac reads :=
  repeat first
    [ apply reads_ret | apply reads_lift | apply reads_deref
    | apply reads_t_idx
    | apply reads_bind; [|intros ?] ].

Lemma reads_single_cls (B : backend) (self : TwoDim) (t0 : Q)
      (pr_range pu_range : range_arg) (mode : cls_mode) (method : cls_method) :
  reads_only (single_cls B self t0 pr_range pu_range mode method).
Proof. unfold single_cls. reads. Qed.

Lemma reads_cls_workers (B : backend) (in_process : bool) (ts : list Q)
      (pr_range pu_range : range_arg) (mode : cls_mode) (method : cls_method) :
  forall self,
    reads_only (cls_workers B in_process self ts pr_range pu_range mode method).
Proof.
  induction ts as [|t0 ts IH]; intros self; cbn [cls_workers];
    [apply reads_ret|].
  apply reads_bind; [apply reads_single_cls | intros c].
  apply reads_bind; [apply IH | intros cs; apply reads_ret].
Qed.

Lemma reads_inv {A} (c : M A) (w w' : world) (o : outcome A) :
  reads_only c -> c w = (o, w') -> w' = w.
Proof. intros H E. specialize (H w). rewrite E in H. exact H. Qed.

(** What a returned result of [single_cls] holds. *)
Lemma single_cls_inv (B : backend) (self : TwoDim) (t0 : Q)
      (pr_range pu_range : range_arg) (mode : cls_mode) (method : cls_method)
      (w w' : world) (res : SingleCLSResult.t) (self' : TwoDim) :
  single_cls B self t0 pr_range pu_range mode method w
  = (Returns (res, self'), w') ->
  item 0 (params (SingleCLSResult.reg_result res))
  = Returns (SingleCLSResult.slope res)
  /\ SingleCLSResult.linear_fit res = predict (SingleCLSResult.reg_result res)
  /\ self' = mkTwoDim (t self) (pump_wn self) (probe_wn self) (spec2d self)
                      (Some res) (cls_result_ self).
Proof.
  intros Hrun. unfold single_cls in Hrun.
  apply bind_inv in Hrun as (pa & w1 & _ & Hrun).
  apply bind_inv in Hrun as (ra & w2 & _ & Hrun).
  apply bind_inv in Hrun as (ti & w3 & _ & Hrun).
  apply bind_inv in Hrun as (sa & w4 & _ & Hrun).
  apply bind_inv in Hrun as (located & w5 & _ & Hrun).
  apply bind_inv in Hrun as (yy & w6 & _ & Hrun).
  apply bind_inv in Hrun as (r & w7 & _ & Hrun).
  apply bind_inv in Hrun as (sl & w8 & Hsl & Hrun).
  apply lift_inv in Hsl as [Hsl _].
  unfold ret in Hrun. injection Hrun as <- <- _.
  cbn [SingleCLSResult.reg_result SingleCLSResult.slope
       SingleCLSResult.linear_fit].
  auto.
Qed.

(** [single_cls] does not look at the results the dataset holds. *)
Lemma single_cls_ext (B : backend) (a b : TwoDim) (t0 : Q)
      (pr_range pu_range : range_arg) (mode : cls_mode) (method : cls_method)
      (w : world) :
  t a = t b -> pump_wn a = pump_wn b -> probe_wn a = probe_wn b ->
  spec2d a = spec2d b -> cls_result_ a = cls_result_ b ->
  single_cls B a t0 pr_range pu_range mode method w
  = single_cls B b t0 pr_range pu_range mode method w.
Proof.
  destruct a, b. cbn [t pump_wn probe_wn spec2d cls_result_].
  intros -> -> -> -> ->. reflexivity.
Qed.

Lemma last_cons_default {A} (l : list A) (x d : A) :
  last (x :: l) d = last l x.
Proof.
  revert x d. induction l as [|y l IH]; intros x d; [reflexivity|].
  change (last (x :: y :: l) d) with (last (y :: l) d).
  now rewrite (IH y d), (IH y x).
Qed.

(** What the workers of [cls] return: the result of [single_cls] at each
    waiting time, on the store as it was. *)
Lemma cls_workers_inv (B : backend) (in_process : bool) (ts : list Q)
      (pr_range pu_range : range_arg) (mode : cls_mode) (method : cls_method)
      (w : world) :
  forall (self : TwoDim) (w' : world) (res : list SingleCLSResult.t)
         (self1 : TwoDim),
    cls_workers B in_process self ts pr_range pu_range mode method w
    = (Returns (res, self1), w') ->
    w' = w
    /\ self1 = after_calls in_process self res
    /\ Forall2 (fun t0 c =>
                  exists self2,
                    single_cls B self t0 pr_range pu_range mode method w
                    = (Returns (c, self2), w))
               ts res.
Proof.
  induction ts as [|t0 ts IH]; intros self w' res self1 Hrun.
  - injection Hrun as <- <- <-. split; [reflexivity|].
    split; [|constructor].
    unfold after_calls. destruct self, in_process; reflexivity.
  - cbn [cls_workers] in Hrun.
    apply bind_inv in Hrun as ([c self2] & w1 & Hc & Hrun).
    apply bind_inv in Hrun as ([cs self3] & w2 & Hcs & Hrun).
    injection Hrun as <- <- <-.
    pose proof (reads_inv _ _ _ _ (reads_single_cls _ _ _ _ _ _ _) Hc) as ->.
    destruct (single_cls_inv _ _ _ _ _ _ _ _ _ _ _ Hc) as (_ & _ & Hself2).
    cbn [fst snd] in Hcs.
    destruct (IH _ _ _ _ Hcs) as (-> & -> & Hall).
    split; [reflexivity|]. split.
    + unfold after_calls. destruct in_process; [|reflexivity].
      rewrite Hself2. cbn [t pump_wn probe_wn spec2d single_cls_result_
                             cls_result_ map].
      f_equal. symmetry. apply last_cons_default.
    + constructor; [now exists self2|].
      destruct in_process; [|exact Hall].
      eapply Forall2_impl; [|exact Hall].
      intros t1 c1 [s Hs]. exists s. rewrite <- Hs.
      apply single_cls_ext; rewrite Hself2; reflexivity.
Qed.

(** What the loop of [cls] adds to the lists it has. *)
Lemma cls_collect_inv (res : list SingleCLSResult.t) (acc out : CLSResult)
      (es ies : list fl) :
  slope_errors (ffcf acc) = Some es ->
  intercept_errors acc = Some ies ->
  cls_collect res acc = Returns out ->
  exists ss ses is_ ises ls,
    wt (ffcf out) = wt (ffcf acc)
    /\ slopes (ffcf out) = slopes (ffcf acc) ++ ss
    /\ slope_errors (ffcf out) = Some (es ++ ses)
    /\ intercepts out = intercepts acc ++ is_
    /\ intercept_errors out = Some (ies ++ ises)
    /\ lines out = lines acc ++ ls
    /\ Forall2 (fun c s =>
         item 1 (params (SingleCLSResult.reg_result c)) = Returns s) res ss
    /\ Forall2 (fun c e =>
         item 1 (bse (SingleCLSResult.reg_result c)) = Returns e) res ses
    /\ Forall2 (fun c i =>
         item 0 (params (SingleCLSResult.reg_result c)) = Returns i) res is_
    /\ Forall2 (fun c e =>
         item 0 (bse (SingleCLSResult.reg_result c)) = Returns e) res ises
    /\ Forall2 (fun c l =>
         l = column_stack (SingleCLSResult.pump_wn c)
                          (SingleCLSResult.max_pos c)
                          (SingleCLSResult.max_pos_err c)
                          (predict (SingleCLSResult.reg_result c))) res ls.
Proof.
  revert acc es ies. induction res as [|c res IH]; intros acc es ies He Hie Hrun.
  - injection Hrun as <-. exists [], [], [], [], [].
    rewrite !app_nil_r. repeat split; auto; constructor.
  - cbn [cls_collect] in Hrun.
    apply obind_inv in Hrun as (s & Hs & Hrun).
    apply obind_inv in Hrun as (se & Hse & Hrun).
    apply obind_inv in Hrun as (i & Hi & Hrun).
    apply obind_inv in Hrun as (ie & Hie' & Hrun).
    rewrite He, Hie in Hrun.
    apply (IH _ (es ++ [se]) (ies ++ [ie])) in Hrun; [|reflexivity|reflexivity].
    destruct Hrun as (ss & ses & is_ & ises & ls & H1 & H2 & H3 & H5 & H6
                      & H7 & F1 & F2 & F3 & F4 & F5).
    cbn [ffcf wt slopes slope_errors exp_fit_result_ intercepts
         intercept_errors lines] in *.
    exists (s :: ss), (se :: ses), (i :: is_), (ie :: ises).
    exists (column_stack (SingleCLSResult.pump_wn c)
                         (SingleCLSResult.max_pos c)
                         (SingleCLSResult.max_pos_err c)
                         (predict (SingleCLSResult.reg_result c)) :: ls).
    rewrite <- !app_assoc in *. cbn [app] in *.
    repeat split; try assumption; constructor; auto.
Qed.

(** X9: [single_cls] only reads: the arrays, the file system and the calls
    made are as before, whether it returns or raises.  When it returns,
    the dataset object is the same but for [single_cls_result_], which
    holds the result; the [slope] of the result is the first coefficient
    of its regression and [linear_fit] is the prediction of that
    regression. *)
Theorem single_cls_reads_only (B : backend) (self : TwoDim) (t0 : Q)
        (pr_range pu_range : range_arg) (mode : cls_mode)
        (method : cls_method) :
  reads_only (single_cls B self t0 pr_range pu_range mode method)
  /\ forall w res self' w',
       single_cls B self t0 pr_range pu_range mode method w
       = (Returns (res, self'), w') ->
       self' = mkTwoDim (t self) (pump_wn self) (probe_wn self) (spec2d self)
                        (Some res) (cls_result_ self)
       /\ item 0 (params (SingleCLSResult.reg_result res))
          = Returns (SingleCLSResult.slope res)
       /\ SingleCLSResult.linear_fit res
          = predict (SingleCLSResult.reg_result res).
Proof.
  split; [apply reads_single_cls|].
  intros w res self' w' Hrun.
  destruct (single_cls_inv _ _ _ _ _ _ _ _ _ _ _ Hrun) as (H1 & H2 & H3).
  auto.
Qed.

Lemma tilted_com_run :
  exists res self' w',
    single_cls example_backend tilted_dataset 0%Q (Half (9#1)%Q) (Half (7#1)%Q)
               neg com tilted_world
    = (Returns (res, self'), w').
Proof. do 3 eexists. vm_compute. reflexivity. Qed.

Lemma single_cls_reads_only_witness :
  exists res self' w',
    single_cls example_backend tilted_dataset 0%Q (Half (9#1)%Q) (Half (7#1)%Q)
               neg com tilted_world
    = (Returns (res, self'), w')
    /\ single_cls_result_ self' = Some res
    /\ w' = tilted_world.
Proof.
  destruct tilted_com_run as (res & self' & w' & Hrun).
  exists res, self', w'. split; [exact Hrun|].
  destruct (single_cls_reads_only example_backend tilted_dataset 0%Q
              (Half (9#1)%Q) (Half (7#1)%Q) neg com) as [Hread Hret].
  destruct (Hret _ _ _ _ Hrun) as (-> & _ & _).
  split; [reflexivity|].
  specialize (Hread tilted_world). rewrite Hrun in Hread. exact Hread.
Defined.

Lemma Forall2_length_eq {A B} (R : A -> B -> Prop) (l : list A) (l' : list B) :
  Forall2 R l l' -> length l = length l'.
Proof. induction 1; simpl; congruence. Qed.

(** X10: when [cls] returns, the store is as before and the dataset
    object holds the result in [cls_result_].  Its [single_cls_result_]
    is as it was when joblib has run the calls in worker processes; when
    it has run them in the calling process, it is the result for the last
    waiting time.  There is a result of [single_cls] for each waiting
    time, in order, computed on the store as it was; the slopes are the
    second coefficients of their regressions and the intercepts the first
    ones, which are what [single_cls] calls [slope]; the errors are the
    standard errors of these coefficients, and the lines stack pump
    values, positions, errors and predictions. *)
Theorem cls_collects_single_cls (B : backend) (in_process : bool)
        (self : TwoDim) (pr_range pu_range : range_arg) (mode : cls_mode)
        (method : cls_method) (w w' : world) (out : CLSResult)
        (self' : TwoDim) :
  cls B in_process self pr_range pu_range mode method w
  = (Returns (out, self'), w') ->
  let ts := data (array_at w (t self)) in
  w' = w
  /\ wt (ffcf out) = ts
  /\ exists res ses ises,
       self' = mkTwoDim (t self) (pump_wn self) (probe_wn self) (spec2d self)
                        (if in_process
                         then last (map Some res) (single_cls_result_ self)
                         else single_cls_result_ self)
                        (Some out)
       /\ Forall2 (fun t0 c =>
                  exists self1,
                    single_cls B self t0 pr_range pu_range mode method w
                    = (Returns (c, self1), w))
               ts res
       /\ Forall2 (fun c s =>
            item 1 (params (SingleCLSResult.reg_result c)) = Returns s)
            res (slopes (ffcf out))
       /\ Forall2 (fun c i =>
            item 0 (params (SingleCLSResult.reg_result c)) = Returns i
            /\ SingleCLSResult.slope c = i)
            res (intercepts out)
       /\ slope_errors (ffcf out) = Some ses
       /\ Forall2 (fun c e =>
            item 1 (bse (SingleCLSResult.reg_result c)) = Returns e) res ses
       /\ intercept_errors out = Some ises
       /\ Forall2 (fun c e =>
            item 0 (bse (SingleCLSResult.reg_result c)) = Returns e) res ises
       /\ Forall2 (fun c l =>
            l = column_stack (SingleCLSResult.pump_wn c)
                             (SingleCLSResult.max_pos c)
                             (SingleCLSResult.max_pos_err c)
                             (SingleCLSResult.linear_fit c))
            res (lines out).
Proof.
  intros Hrun ts. unfold cls in Hrun.
  apply bind_inv in Hrun as (ta & w1 & Hta & Hrun).
  injection Hta as <- <-. fold ts in Hrun.
  apply bind_inv in Hrun as ([res self1] & w2 & Hres & Hrun).
  cbn [fst snd] in Hrun.
  apply bind_inv in Hrun as (out' & w3 & Hout & Hrun).
  apply lift_inv in Hout as [Hout ->].
  injection Hrun as <- <- <-.
  apply cls_workers_inv in Hres as (-> & -> & Hall).
  apply (cls_collect_inv _ _ _ [] []) in Hout; [|reflexivity|reflexivity].
  destruct Hout as (ss & ses & is_ & ises & ls & H1 & H2 & H3 & H5 & H6
                    & H7 & F1 & F2 & F3 & F4 & F5).
  cbn [ffcf wt slopes slope_errors intercepts intercept_errors lines app] in *.
  split; [reflexivity|]. split; [exact H1|].
  exists res, ses, ises.
  rewrite H2, H5, H7.
  split; [reflexivity|].
  repeat split; try assumption.
  - clear - Hall F3. revert is_ F3.
    induction Hall as [|t0 c ts res [self1 Hc] Hall IH]; intros is_ F3;
      inversion F3; subst; constructor; [|now apply IH].
    split; [assumption|].
    destruct (single_cls_inv _ _ _ _ _ _ _ _ _ _ _ Hc) as (Hi & _).
    congruence.
  - clear - Hall F5. revert ls F5.
    induction Hall as [|t0 c ts res [self1 Hc] Hall IH]; intros ls F5;
      inversion F5; subst; constructor; [|now apply IH].
    destruct (single_cls_inv _ _ _ _ _ _ _ _ _ _ _ Hc) as (_ & -> & _).
    reflexivity.
Qed.

Lemma cls_collects_single_cls_witness :
  exists out self' w' res,
    cls example_backend true tilted_dataset (Half (9#1)%Q) (Half (7#1)%Q)
        neg com tilted_world
    = (Returns (out, self'), w')
    /\ w' = tilted_world
    /\ cls_result_ self' = Some out
    /\ single_cls_result_ self' = Some res.
Proof.
  destruct (cls_reports_the_slope true) as (out & self' & w' & Hrun & _).
  destruct (cls_collects_single_cls _ _ _ _ _ _ _ _ _ _ _ Hrun)
    as (Hw & _ & res & ses & ises & -> & Hall & _).
  apply Forall2_length_eq in Hall.
  destruct res as [|c [|c' res]]; try discriminate Hall.
  exists out, (mkTwoDim 0 1 2 3 (Some c) (Some out)), w', c.
  split; [exact Hrun|]. split; [exact Hw|]. split; reflexivity.
Defined.

(** ** [single_cls] on an empty pump window *)

Lemma select_none {A} (mask : list bool) (l : list A) :
  Forall (fun b => b = false) mask -> select mask l = [].
Proof.
  intros H. revert l. induction H as [|b mask -> _ IH]; intros [|x l];
    simpl; auto.
Qed.

Lemma around_empty (axis : list Q) (center width : Q) :
  (width <= 0)%Q -> Forall (fun b => b = false) (around axis center width).
Proof.
  intros Hw. unfold around. apply Forall_forall. intros b Hb.
  apply in_map_iff in Hb as (v & <- & _).
  apply andb_false_iff.
  destruct (Qlt_bool v (center + width)) eqn:E1; [right | now left].
  unfold Qlt_bool in *. apply negb_true_iff in E1. apply negb_false_iff.
  apply Qle_bool_iff.
  assert (H1 : ~ (center + width <= v)%Q).
  { intros H. apply Qle_bool_iff in H. congruence. }
  lra.
Qed.

Lemma inbetween_empty (axis : list Q) (lower upper : Q) :
  Forall (fun v => ~ ((lower <= v)%Q /\ (v <= upper)%Q)) axis ->
  Forall (fun b => b = false) (inbetween axis lower upper).
Proof.
  intros H. unfold inbetween. apply Forall_forall. intros b Hb.
  apply in_map_iff in Hb as (v & <- & Hv).
  rewrite Forall_forall in H. specialize (H v Hv).
  destruct (Qle_bool lower v) eqn:E1; [|reflexivity].
  destruct (Qle_bool v upper) eqn:E2; [|reflexivity].
  exfalso. apply H. split; now apply Qle_bool_iff.
Qed.

Lemma row_minima_returns (rows : list (list Q)) :
  Forall (fun r => r <> []) rows ->
  exists ms, row_minima rows = Returns ms /\ length ms = length rows.
Proof.
  induction 1 as [|r rows Hr _ (ms & Hms & Hlen)]; simpl; [eauto|].
  destruct r as [|x r]; [congruence|]. simpl. rewrite Hms. simpl.
  eexists. split; [reflexivity|]. simpl. congruence.
Qed.

Lemma argmin_returns (l : list Q) : l <> [] -> exists i, argmin l = Returns i.
Proof. destruct l; [congruence|]. simpl. eauto. Qed.

Lemma fi_returns (axis : list Q) (x : Q) :
  axis <> [] -> exists i, fi axis x = Returns i.
Proof.
  intros H. unfold fi. apply argmin_returns.
  destruct axis; [congruence | discriminate].
Qed.

(** X11: on a dataset with at least one waiting time, probe value and
    pump value, [single_cls] with a pump window that holds no pump value,
    as every half width that is not positive gives, raises the
    [ValueError] of unpacking an empty array, for every mode, method and
    probe range; nothing is fitted and the store is as before. *)
Theorem single_cls_empty_pump_window (B : backend) (self : TwoDim) (t0 : Q)
        (pr_range pu_range : range_arg) (mode : cls_mode)
        (method : cls_method) (w : world) :
  dataset_ok w self ->
  0 < size (array_at w (t self)) ->
  0 < size (array_at w (probe_wn self)) ->
  0 < size (array_at w (pump_wn self)) ->
  empty_window (data (array_at w (pump_wn self))) pu_range ->
  single_cls B self t0 pr_range pu_range mode method w
  = (Raises (ValueError "not enough values to unpack (expected 2, got 0)"), w).
Proof.
  intros (Vt & Vp & Vr & Vs & Ht & Hp & Hr & Wsa & Hs) Nt Nr Np Hempty.
  set (ta := array_at w (t self)) in *.
  set (ra := array_at w (probe_wn self)) in *.
  set (pa := array_at w (pump_wn self)) in *.
  set (sa := array_at w (spec2d self)) in *.
  destruct (fi_returns (data ta) t0) as [ti Hti].
  { rewrite (size_1d Ht) in Nt. destruct (data ta); [simpl in Nt; lia|discriminate]. }
  unfold single_cls. do 2 step.
  rewrite (bind_t_idx self t0 _ w ti) by exact Hti.
  step. fold pa ra sa.
  assert (Hloc : exists x center,
             locate_maxima B (data pa) (data ra) sa ti pr_range pu_range
                           mode method
             = Returns (x, center, [])).
  { unfold locate_maxima.
    set (spec := match mode with
                 | pos => map (map Qopp) (pump_rows sa ti)
                 | neg => pump_rows sa ti
                 end).
    assert (Hd1 : dim_of 1 (shape sa) = size ra) by now rewrite Hs.
    assert (Hd2 : dim_of 2 (shape sa) = size pa) by now rewrite Hs.
    assert (Hrows : Forall (fun r => r <> []) spec /\ length spec = size pa).
    { assert (H0 : Forall (fun r : list Q => r <> []) (pump_rows sa ti)
                   /\ length (pump_rows sa ti) = size pa).
      { unfold pump_rows. rewrite Hd1, Hd2. split.
        - apply Forall_forall. intros r Hin.
          apply in_map_iff in Hin as (c & <- & _).
          destruct (size ra); [lia | discriminate].
        - now rewrite length_map, length_seq. }
      destruct H0 as [H0 L0]. unfold spec. destruct mode; [auto|].
      split; [|now rewrite length_map].
      apply Forall_forall. intros r Hin.
      apply in_map_iff in Hin as (r0 & <- & Hin).
      rewrite Forall_forall in H0. specialize (H0 r0 Hin).
      destruct r0; [congruence | discriminate]. }
    destruct Hrows as [Hne Hlen].
    destruct (row_minima_returns spec Hne) as (mins & Hmins & Lmins).
    replace (dim_of 1 (shape sa) =? 0) with false
      by (symmetry; apply Nat.eqb_neq; lia).
    rewrite Hmins. cbn [obind].
    destruct (argmin_returns mins) as [imax ->].
    { destruct mins; [simpl in Lmins; lia | discriminate]. }
    cbn [obind].
    set (pu_idx := match pu_range with
                   | Half width => around (data pa) (nth imax (data pa) 0%Q) width
                   | Bounds lower upper => inbetween (data pa) lower upper
                   end).
    assert (Hnone : Forall (fun b => b = false) pu_idx).
    { unfold pu_idx. destruct pu_range as [width|lower upper]; simpl in Hempty.
      - now apply around_empty.
      - now apply inbetween_empty. }
    rewrite (select_none pu_idx spec Hnone).
    cbn [locate_all obind]. eauto. }
  destruct Hloc as (x & center & Hloc).
  rewrite (@bind_lift_returns _ _ _ _ _ w Hloc). cbn [fst snd].
  apply bind_lift_raises. reflexivity.
Qed.

Lemma single_cls_empty_pump_window_witness :
  single_cls example_backend tilted_dataset 0%Q (Half (9#1)%Q) (Half 0%Q)
             neg com tilted_world
  = (Raises (ValueError "not enough values to unpack (expected 2, got 0)"),
     tilted_world).
Proof.
  apply single_cls_empty_pump_window.
  - unfold dataset_ok. vm_compute. repeat split; try reflexivity; lia.
  - vm_compute. lia.
  - vm_compute. lia.
  - vm_compute. lia.
  - simpl. apply Qle_refl.
Defined.

(** ** The regression of [single_cls] *)

Lemma Qnat_S (n : nat) : (Qnat (S n) == Qnat n + 1)%Q.
Proof.
  unfold Qnat. rewrite Nat2Z.inj_succ, <- Z.add_1_r, inject_Z_plus. reflexivity.
Qed.

Lemma Qnat_pos (n : nat) : 0 < n -> (0 < Qnat n)%Q.
Proof.
  intros H. unfold Qnat. change 0%Q with (inject_Z 0).
  rewrite <- Zlt_Qlt. lia.
Qed.

Lemma Qsum_recentred (l : list Q) (c : Q) :
  (Qsum (map (fun v => Qred (v - c)) l) == Qsum l - Qnat (length l) * c)%Q.
Proof.
  induction l as [|v l IH].
  - unfold Qnat. simpl. ring.
  - cbn [map Qsum fold_right length]. fold (Qsum (map (fun v => Qred (v - c)) l)).
    fold (Qsum l). rewrite IH, Qred_correct, Qnat_S. ring.
Qed.

(** Subtracting the mean leaves values that sum to zero. *)
Lemma Qsum_mean_subtracted (l : list Q) :
  l <> [] -> (Qsum (map (fun v => Qred (v - mean l)) l) == 0)%Q.
Proof.
  intros H. rewrite Qsum_recentred. unfold mean. rewrite Qred_correct.
  assert (Hn : (0 < Qnat (length l))%Q).
  { apply Qnat_pos. destruct l; [congruence | simpl; lia]. }
  field. lra.
Qed.

Lemma Qmin2_le_l (a b : Q) : (Qmin2 a b <= a)%Q.
Proof.
  unfold Qmin2. destruct (Qle_bool a b) eqn:E; [lra|].
  assert (~ (a <= b)%Q) by (intros H; apply Qle_bool_iff in H; congruence).
  lra.
Qed.

Lemma Qmin2_le_r (a b : Q) : (Qmin2 a b <= b)%Q.
Proof.
  unfold Qmin2. destruct (Qle_bool a b) eqn:E; [|lra].
  now apply Qle_bool_iff.
Qed.

Lemma Qmax2_ge_l (a b : Q) : (a <= Qmax2 a b)%Q.
Proof.
  unfold Qmax2. destruct (Qle_bool b a) eqn:E; [lra|].
  assert (~ (b <= a)%Q) by (intros H; apply Qle_bool_iff in H; congruence).
  lra.
Qed.

Lemma Qmax2_ge_r (a b : Q) : (b <= Qmax2 a b)%Q.
Proof.
  unfold Qmax2. destruct (Qle_bool b a) eqn:E; [|lra].
  now apply Qle_bool_iff.
Qed.

Lemma fold_Qmin2_le (l : list Q) (a : Q) :
  (fold_left Qmin2 l a <= a)%Q
  /\ Forall (fun v => (fold_left Qmin2 l a <= v)%Q) l.
Proof.
  revert a. induction l as [|x l IH]; intros a; simpl.
  - split; [lra | constructor].
  - destruct (IH (Qmin2 a x)) as [H1 H2].
    pose proof (Qmin2_le_l a x). pose proof (Qmin2_le_r a x).
    split; [lra|]. constructor; [lra | exact H2].
Qed.

Lemma fold_Qmax2_ge (l : list Q) (a : Q) :
  (a <= fold_left Qmax2 l a)%Q
  /\ Forall (fun v => (v <= fold_left Qmax2 l a)%Q) l.
Proof.
  revert a. induction l as [|x l IH]; intros a; simpl.
  - split; [lra | constructor].
  - destruct (IH (Qmax2 a x)) as [H1 H2].
    pose proof (Qmax2_ge_l a x). pose proof (Qmax2_ge_r a x).
    split; [lra|]. constructor; [lra | exact H2].
Qed.

Lemma np_min_below (l : list Q) (lo : Q) :
  np_min l = Returns lo -> Forall (fun v => (lo <= v)%Q) l.
Proof.
  destruct l as [|x l]; [discriminate|]. simpl. intros H. injection H as <-.
  destruct (fold_Qmin2_le l x) as [H1 H2]. now constructor.
Qed.

Lemma np_max_above (l : list Q) (hi : Q) :
  np_max l = Returns hi -> Forall (fun v => (v <= hi)%Q) l.
Proof.
  destruct l as [|x l]; [discriminate|]. simpl. intros H. injection H as <-.
  destruct (fold_Qmax2_ge l x) as [H1 H2]. now constructor.
Qed.

Lemma Qsum_constant (l : list Q) (c : Q) :
  Forall (fun v => (v == c)%Q) l -> (Qsum l == Qnat (length l) * c)%Q.
Proof.
  induction 1 as [|v l Hv _ IH].
  - unfold Qnat. simpl. ring.
  - cbn [Qsum fold_right length]. fold (Qsum l). rewrite IH, Hv, Qnat_S. ring.
Qed.

(** Values that sum to zero get the column of ones from
    [add_constant]: they are not a constant other than zero. *)
Lemma add_constant_of_centred (x : list Q) :
  x <> [] -> (Qsum x == 0)%Q ->
  add_constant x = Returns (map (fun v => [1%Q; v]) x).
Proof.
  intros Hne Hsum. unfold add_constant.
  destruct (np_max x) as [hi|e] eqn:Ehi; [|destruct x; [congruence|discriminate]].
  destruct (np_min x) as [lo|e] eqn:Elo; [|destruct x; [congruence|discriminate]].
  cbn [obind].
  destruct (Qeq_bool (hi - lo) 0 && forallb (fun v => negb (Qeq_bool v 0)) x)
    eqn:E; [|reflexivity].
  exfalso. apply andb_true_iff in E as [E1 E2].
  apply Qeq_bool_iff in E1.
  pose proof (np_min_below x lo Elo) as Hlo.
  pose proof (np_max_above x hi Ehi) as Hhi.
  assert (Hall : Forall (fun v => (v == hi)%Q) x).
  { rewrite Forall_forall in *. intros v Hv.
    specialize (Hlo v Hv). specialize (Hhi v Hv). lra. }
  pose proof (Qsum_constant x hi Hall) as Hc. rewrite Hsum in Hc.
  assert (Hn : (0 < Qnat (length x))%Q).
  { apply Qnat_pos. destruct x; [congruence | simpl; lia]. }
  assert (Hz : (hi == 0)%Q) by nra.
  destruct x as [|v x]; [congruence|].
  simpl in E2. apply andb_true_iff in E2 as [E2 _].
  apply negb_true_iff in E2.
  inversion Hall as [|? ? Hv _]; subst.
  assert (Hv0 : (v == 0)%Q) by lra.
  apply Qeq_bool_iff in Hv0. congruence.
Qed.

Lemma locate_all_length (B : backend) (method : cls_method)
      (pr_range : range_arg) (pr : list Q) (spec : list (list Q))
      (l : list (Q * fl)) :
  locate_all B method pr_range pr spec = Returns l -> length l = length spec.
Proof.
  revert l. induction spec as [|s spec IH]; intros l H.
  - injection H as <-. reflexivity.
  - cbn [locate_all] in H.
    apply obind_inv in H as (p & _ & H).
    apply obind_inv in H as (l' & Hl' & H).
    injection H as <-. simpl. f_equal. now apply IH.
Qed.

Lemma deref_inv (l : loc) (w w' : world) (a : ndarray Q) :
  deref l w = (Returns a, w') -> a = array_at w l /\ w' = w.
Proof. unfold deref. intros H. injection H as <- <-. auto. Qed.

(** X12: when [single_cls] returns on a dataset, some pump values are in
    the window, the recentred pump values sum to zero, and there is one
    located position and one error for each of them; the regression has
    the positions as [endog], a column of ones before the recentred pump
    values as [exog], and the estimator the errors call for.  In exact
    arithmetic, as here, values with mean zero are never a constant
    other than zero, so [add_constant] always adds its column; the first
    coefficient, which the result calls [slope], belongs to it. *)
Theorem single_cls_regression_design (B : backend) (self : TwoDim) (t0 : Q)
        (pr_range pu_range : range_arg) (mode : cls_mode)
        (method : cls_method) (w w' : world) (res : SingleCLSResult.t)
        (self' : TwoDim) :
  dataset_ok w self ->
  single_cls B self t0 pr_range pu_range mode method w
  = (Returns (res, self'), w') ->
  let x := SingleCLSResult.recentered_pump_wn res in
  let r := SingleCLSResult.reg_result res in
  x <> []
  /\ (Qsum x == 0)%Q
  /\ length (SingleCLSResult.pump_wn res) = length x
  /\ length (SingleCLSResult.max_pos res) = length x
  /\ length (SingleCLSResult.max_pos_err res) = length x
  /\ endog (model r) = SingleCLSResult.max_pos res
  /\ exog (model r) = map (fun v => [1%Q; v]) x
  /\ est (model r) = estimator_for (SingleCLSResult.max_pos_err res).
Proof.
  intros (Vt & Vp & Vr & Vs & Ht & Hp & Hr & Wsa & Hs) Hrun.
  unfold single_cls in Hrun.
  apply bind_inv in Hrun as (pa & w1 & Hpa & Hrun).
  apply deref_inv in Hpa as [-> ->].
  apply bind_inv in Hrun as (ra & w2 & Hra & Hrun).
  apply deref_inv in Hra as [-> ->].
  apply bind_inv in Hrun as (ti & w3 & Hti & Hrun).
  pose proof (reads_inv _ _ _ _ (reads_t_idx _ _) Hti) as ->.
  apply bind_inv in Hrun as (sa & w4 & Hsa & Hrun).
  apply deref_inv in Hsa as [-> ->].
  apply bind_inv in Hrun as (located & w5 & Hloc & Hrun).
  apply lift_inv in Hloc as [Hloc ->].
  apply bind_inv in Hrun as (yy & w6 & Hyy & Hrun).
  apply lift_inv in Hyy as [Hyy ->].
  apply bind_inv in Hrun as (r & w7 & Hreg & Hrun).
  apply lift_inv in Hreg as [Hreg ->].
  apply bind_inv in Hrun as (sl & w8 & _ & Hrun).
  unfold ret in Hrun.
  match type of Hrun with
  | (Returns (?r0, _), _) = _ => assert (Hres : res = r0) by congruence
  end.
  clear Hrun. subst res.
  cbv beta iota zeta
      delta [SingleCLSResult.reg_result SingleCLSResult.recentered_pump_wn
             SingleCLSResult.pump_wn SingleCLSResult.max_pos
             SingleCLSResult.max_pos_err].
  set (pa := array_at w (pump_wn self)) in *.
  set (ra := array_at w (probe_wn self)) in *.
  set (sa := array_at w (spec2d self)) in *.
  (* what was located *)
  unfold locate_maxima in Hloc.
  apply obind_inv in Hloc as (mins & _ & Hloc).
  apply obind_inv in Hloc as (imax & _ & Hloc).
  apply obind_inv in Hloc as (l & Hl & Hloc).
  match type of Hloc with
  | Returns ?v = _ => assert (Hv : located = v) by congruence
  end.
  clear Hloc. subst located. cbn [fst snd] in Hyy, Hreg |- *.
  set (spec := match mode with
               | pos => map (map Qopp) (pump_rows sa ti)
               | neg => pump_rows sa ti
               end) in *.
  set (pu_idx := match pu_range with
                 | Half width => around (data pa) (nth imax (data pa) 0%Q) width
                 | Bounds lower upper => inbetween (data pa) lower upper
                 end) in *.
  set (sel := select pu_idx (data pa)) in *.
  assert (Lspec : length (data pa) = length spec).
  { rewrite <- (size_1d Hp). unfold spec.
    destruct mode; rewrite ?length_map; unfold pump_rows;
      rewrite length_map, length_seq, Hs; reflexivity. }
  apply locate_all_length in Hl.
  rewrite <- (select_length_eq pu_idx (data pa) spec Lspec) in Hl. fold sel in Hl.
  assert (Hl0 : l <> []).
  { destruct l; [discriminate Hyy | discriminate]. }
  assert (Hsel : sel <> []).
  { destruct sel; [destruct l; [congruence | discriminate] | discriminate]. }
  assert (Hy : yy = (map fst l, map snd l)).
  { destruct l; [congruence|]. simpl in Hyy. now injection Hyy as <-. }
  subst yy. cbn [fst snd] in Hreg |- *.
  set (x := map (fun v => Qred (v - mean sel)) sel) in *.
  assert (Hx : x <> []).
  { unfold x. destruct sel; [congruence | discriminate]. }
  assert (Hsum : (Qsum x == 0)%Q) by now apply Qsum_mean_subtracted.
  rewrite cls_regression_estimator in Hreg.
  rewrite (add_constant_of_centred x Hx Hsum) in Hreg. cbn [obind] in Hreg.
  apply fit_model_keeps_model in Hreg. rewrite Hreg. cbn [endog exog est].
  assert (Lx : length x = length sel) by apply length_map.
  rewrite !length_map, Lx.
  repeat split; auto.
Qed.

Lemma single_cls_regression_design_witness :
  exists res self' w',
    single_cls example_backend tilted_dataset 0%Q (Half (9#1)%Q) (Half (7#1)%Q)
               neg com tilted_world
    = (Returns (res, self'), w')
    /\ exog (model (SingleCLSResult.reg_result res))
       = map (fun v => [1%Q; v]) (SingleCLSResult.recentered_pump_wn res).
Proof.
  destruct tilted_com_run as (res & self' & w' & Hrun).
  exists res, self', w'. split; [exact Hrun|].
  assert (Hok : dataset_ok tilted_world tilted_dataset).
  { unfold dataset_ok. vm_compute. repeat split; try reflexivity; lia. }
  exact (proj1 (proj2 (proj2 (proj2 (proj2 (proj2 (proj2
           (single_cls_regression_design _ _ _ _ _ _ _ _ _ _ _ Hok Hrun)))))))).
Defined.

(** ** Background correction when a fit fails *)

(** A loop whose body raises at [i0] stops there. *)
Lemma for_each_seq_raises (I : nat -> world -> Prop) (J : world -> Prop)
      (body : nat -> M unit) (e : exn) (i0 n : nat) :
  forall (s : nat) (w : world),
    s <= i0 < s + n ->
    I s w ->
    (forall i w1, s <= i < i0 -> I i w1 ->
                  exists w2, body i w1 = (Returns tt, w2) /\ I (S i) w2) ->
    (forall w1, I i0 w1 -> exists w2, body i0 w1 = (Raises e, w2) /\ J w2) ->
    exists w', for_each (seq s n) body w = (Raises e, w') /\ J w'.
Proof.
  induction n as [|n IH]; intros s w Hi0 H0 Hstep Hfail; [lia|].
  cbn [seq for_each]. unfold bind.
  destruct (Nat.eq_dec s i0) as [->|Hne].
  - destruct (Hfail w H0) as (w2 & Hb & HJ). rewrite Hb. eauto.
  - destruct (Hstep s w) as (w2 & Hb & H2); [lia | assumption |].
    rewrite Hb. apply IH; [lia | assumption | | assumption].
    intros i w1 Hi. apply Hstep. lia.
Qed.

Section FailedFit.
Variables (B : backend) (w : world) (self : TwoDim).
Variables (excluded_range : Q * Q) (deg : nat).
Variable (P : nat -> nat -> list Q).

Let ra := array_at w (probe_wn self).
Let sa := array_at w (spec2d self).
Let n := size (array_at w (t self)).
Let m := size ra.
Let k := size (array_at w (pump_wn self)).
Let wn_range :=
  map negb (inbetween (data ra) (fst excluded_range) (snd excluded_range)).

Hypothesis Hok : dataset_ok w self.

Ltac sizes :=
  repeat match goal with
         | H : context [size (array_at w (t self))] |- _ =>
             progress change (size (array_at w (t self))) with n in H
         | H : context [size (array_at w (probe_wn self))] |- _ =>
             progress change (size (array_at w (probe_wn self))) with m in H
         | H : context [size (array_at w (pump_wn self))] |- _ =>
             progress change (size (array_at w (pump_wn self))) with k in H
         end;
  try change (size (array_at w (t self))) with n;
  try change (size (array_at w (probe_wn self))) with m;
  try change (size (array_at w (pump_wn self))) with k.

Lemma start_shape : shape sa = [n; m; k].
Proof. exact (shape_sa w self Hok). Qed.

Lemma start_probe_length : length (data ra) = m.
Proof. exact (probe_length w self Hok). Qed.

(** The column a pass of the inner loop reads is the one of the start:
    it has not been corrected yet. *)
Lemma untouched_column (D : nat -> nat -> bool) (ti pi : nat) (w1 : world) :
  ti < n -> pi < k -> D ti pi = false ->
  partly_corrected_by w self P D w1 ->
  column (array_at w1 (spec2d self)) ti pi = column sa ti pi.
Proof.
  intros Hti Hpi HD (Hl & Hf & Hc & Hr & Hs & Hg). sizes.
  unfold column. rewrite Hs, start_shape. unfold dim_of. cbn [nth].
  apply map_ext_in. intros j Hj. apply in_seq in Hj.
  rewrite Hg by (assumption || (sizes; lia)). now rewrite HD.
Qed.

(** One pass of the inner loop body whose fit returns. *)
Lemma correct_column_at (D : nat -> nat -> bool) (ti pi : nat) (w1 : world) :
  ti < n -> pi < k -> D ti pi = false ->
  polyfit B (select wn_range (data ra)) (select wn_range (column sa ti pi)) deg
  = Returns (P ti pi) ->
  partly_corrected_by w self P D w1 ->
  exists w2,
    (sa1 <- deref (spec2d self) ;;
     let s := column sa1 ti pi in
     let back := select wn_range s in
     ra1 <- deref (probe_wn self) ;;
     p <- lift (polyfit B (select wn_range (data ra1)) back deg) ;;
     store (spec2d self)
           (subtract_from_column sa1 ti pi (map (polyval p) (data ra1))))%py w1
    = (Returns tt, w2)
    /\ partly_corrected_by w self P
         (fun i c => D i c || ((i =? ti) && (c =? pi))) w2.
Proof.
  intros Hti Hpi HD Hfit H1.
  pose proof (untouched_column D ti pi w1 Hti Hpi HD H1) as Hcol.
  destruct H1 as (Hl & Hf & Hc & Hr & Hs & Hg). sizes.
  set (a := array_at w1 (spec2d self)) in *.
  set (new := subtract_from_column a ti pi (map (polyval (P ti pi)) (data ra))).
  exists (snd (store (spec2d self) new w1)).
  assert (Hv : valid_ref w1 (spec2d self)).
  { unfold valid_ref. rewrite Hl. apply (data_ref_valid w self Hok). }
  split.
  - step. fold a. cbv zeta. step.
    rewrite (Hr _ (probe_is_not_data w self Hok)). fold ra.
    rewrite Hcol.
    rewrite (@bind_lift_returns _ _ _ _ _ _ Hfit).
    reflexivity.
  - split; [now rewrite store_length|].
    split; [exact Hf|]. split; [exact Hc|].
    split.
    { intros r Hne. rewrite array_at_store_other by assumption. now apply Hr. }
    rewrite array_at_store_same by assumption.
    split; [exact Hs|].
    intros i j c Hi Hj Hc'. sizes. unfold new.
    rewrite (get3_subtract a ti pi _ n m k) by assumption.
    fold a in Hg. rewrite Hg by assumption.
    destruct ((i =? ti) && (c =? pi)) eqn:E.
    + apply andb_prop in E as [Ei Ec].
      apply Nat.eqb_eq in Ei, Ec. subst i c. rewrite HD. cbn [orb].
      unfold corrected_entry. fold ra sa. f_equal. f_equal.
      rewrite (nth_indep _ 0%Q (polyval (P ti pi) 0%Q))
        by (rewrite length_map, start_probe_length; assumption).
      now rewrite map_nth.
    + now rewrite orb_false_r.
Qed.

(** One pass of the inner loop body whose fit raises: the store is as
    the pass found it. *)
Lemma failed_column_at (D : nat -> nat -> bool) (ti pi : nat) (w1 : world)
      (e : exn) :
  ti < n -> pi < k -> D ti pi = false ->
  polyfit B (select wn_range (data ra)) (select wn_range (column sa ti pi)) deg
  = Raises e ->
  partly_corrected_by w self P D w1 ->
  (sa1 <- deref (spec2d self) ;;
   let s := column sa1 ti pi in
   let back := select wn_range s in
   ra1 <- deref (probe_wn self) ;;
   p <- lift (polyfit B (select wn_range (data ra1)) back deg) ;;
   store (spec2d self)
         (subtract_from_column sa1 ti pi (map (polyval p) (data ra1))))%py w1
  = (Raises e, w1).
Proof.
  intros Hti Hpi HD Hfit H1.
  pose proof (untouched_column D ti pi w1 Hti Hpi HD H1) as Hcol.
  destruct H1 as (Hl & Hf & Hc & Hr & Hs & Hg).
  step. cbv zeta. step.
  rewrite (Hr _ (probe_is_not_data w self Hok)). fold ra.
  rewrite Hcol. now apply bind_lift_raises.
Qed.

Variables (ti0 pi0 : nat) (e : exn).
Hypothesis Hti0 : ti0 < n.
Hypothesis Hpi0 : pi0 < k.
Hypothesis Hbefore : forall ti pi,
  pi < k -> ti < ti0 \/ (ti = ti0 /\ pi < pi0) ->
  polyfit B (select wn_range (data ra)) (select wn_range (column sa ti pi)) deg
  = Returns (P ti pi).
Hypothesis Hfails :
  polyfit B (select wn_range (data ra)) (select wn_range (column sa ti0 pi0)) deg
  = Raises e.

Lemma background_correction_fails :
  exists w',
    background_correction B self excluded_range deg w = (Raises e, w')
    /\ partly_corrected_by w self P
         (fun i c => (i <? ti0) || ((i =? ti0) && (c <? pi0))) w'.
Proof.
  set (inner := fun ti pi =>
         (sa2 <- deref (spec2d self) ;;
          let s := column sa2 ti pi in
          let back := select wn_range s in
          ra1 <- deref (probe_wn self) ;;
          p <- lift (polyfit B (select wn_range (data ra1)) back deg) ;;
          store (spec2d self)
                (subtract_from_column sa2 ti pi
                   (map (polyval p) (data ra1))))%py).
  set (outer := fun ti =>
         (sa1 <- deref (spec2d self) ;;
          k' <- lift (item 2 (shape sa1)) ;;
          for_each (seq 0 k') (inner ti))%py).
  set (Dcol := fun ti pi' (i c : nat) =>
         (i <? ti) || ((i =? ti) && (c <? pi'))).
  assert (Hstart : partly_corrected_by w self P (fun i _ => i <? 0) w).
  { repeat split; try reflexivity. exact start_shape. }
  assert (Hnext : forall ti pi i c,
            Dcol ti pi i c || ((i =? ti) && (c =? pi)) = Dcol ti (S pi) i c).
  { intros ti pi i c. unfold Dcol.
    destruct (i <? ti) eqn:E1; [reflexivity|]. cbn [orb].
    destruct (i =? ti) eqn:E2; cbn [andb]; [|reflexivity].
    destruct (c <? pi) eqn:E3, (c =? pi) eqn:E4, (c <? S pi) eqn:E5;
      try reflexivity;
      rewrite ?Nat.ltb_lt, ?Nat.ltb_ge, ?Nat.eqb_eq, ?Nat.eqb_neq in *;
      lia. }
  assert (Hfresh : forall ti pi, Dcol ti pi ti pi = false).
  { intros ti pi. unfold Dcol. now rewrite !Nat.ltb_irrefl, Nat.eqb_refl. }
  assert (Hrow0 : forall ti w1,
            partly_corrected_by w self P (fun i _ => i <? ti) w1 ->
            partly_corrected_by w self P (Dcol ti 0) w1).
  { intros ti w1. apply (partly_corrected_ext w self P).
    intros i c _ _. unfold Dcol. cbn. now rewrite andb_false_r, orb_false_r. }
  assert (Houter_run : forall ti w1 r w2,
            partly_corrected_by w self P (fun i _ => i <? ti) w1 ->
            for_each (seq 0 k) (inner ti) w1 = (r, w2) ->
            outer ti w1 = (r, w2)).
  { intros ti w1 r w2 H1 Hin. unfold outer. step.
    destruct H1 as (_ & _ & _ & _ & Hs1 & _). rewrite Hs1.
    rewrite (@bind_lift_returns _ _ _ k) by reflexivity. exact Hin. }
  destruct (for_each_seq_raises
              (fun ti' => partly_corrected_by w self P (fun i _ => i <? ti'))
              (partly_corrected_by w self P (Dcol ti0 pi0))
              outer e ti0 n 0 w) as (w' & Hrun & Hend).
  - cbn [Nat.add]. lia.
  - exact Hstart.
  - intros ti w1 [_ Hti] H1.
    assert (Htin : ti < n) by lia.
    destruct (for_each_seq_inv
                (fun pi' => partly_corrected_by w self P (Dcol ti pi'))
                (inner ti) k 0 w1 (Hrow0 ti w1 H1)) as (w2 & Hin & Hend).
    + intros pi w3 [_ Hpi] H3. cbn [Nat.add] in Hpi.
      destruct (correct_column_at _ ti pi w3 Htin Hpi (Hfresh ti pi)) as (w4 & Hb & H4);
        [apply Hbefore; [assumption | now left] | exact H3 |].
      exists w4. split; [exact Hb|].
      eapply (partly_corrected_ext w self P); [|exact H4].
      intros i c _ _. apply Hnext.
    + exists w2. split; [now apply Houter_run|].
      eapply (partly_corrected_ext w self P); [|exact Hend].
      intros i c _ Hc. unfold Dcol. cbn [Nat.add].
      change (size (array_at w (pump_wn self))) with k in Hc.
      apply Nat.ltb_lt in Hc as Hc'. rewrite Hc', andb_true_r.
      destruct (i <? ti) eqn:E1, (i =? ti) eqn:E2, (i <? S ti) eqn:E3;
        try reflexivity;
        rewrite ?Nat.ltb_lt, ?Nat.ltb_ge, ?Nat.eqb_eq, ?Nat.eqb_neq in *;
        lia.
  - intros w1 H1.
    destruct (for_each_seq_raises
                (fun pi' => partly_corrected_by w self P (Dcol ti0 pi'))
                (partly_corrected_by w self P (Dcol ti0 pi0))
                (inner ti0) e pi0 k 0 w1) as (w2 & Hin & Hend).
    + cbn [Nat.add]. lia.
    + now apply Hrow0.
    + intros pi w3 [_ Hpi] H3.
      assert (Hpik : pi < k) by lia.
      destruct (correct_column_at _ ti0 pi w3 Hti0 Hpik (Hfresh ti0 pi))
        as (w4 & Hb & H4);
        [apply Hbefore; [assumption | now right] | exact H3 |].
      exists w4. split; [exact Hb|].
      eapply (partly_corrected_ext w self P); [|exact H4].
      intros i c _ _. apply Hnext.
    + intros w3 H3. exists w3. split; [|exact H3].
      now apply (failed_column_at (Dcol ti0 pi0)).
    + exists w2. split; [now apply Houter_run | exact Hend].
  - exists w'. split; [|exact Hend].
    unfold background_correction. do 2 step. fold ra sa wn_range.
    rewrite start_shape.
    rewrite (@bind_lift_returns _ _ _ n) by reflexivity. exact Hrun.
Qed.
End FailedFit.

(** X13: when the fit of a column raises, [background_correction] raises
    the same error and stops: the columns before it, in the order of the
    loops, have had their fitted polynomials subtracted and stay so, the
    failing column and those after it are as they were.  No array is
    allocated, no other array changes, and the file system is as
    before. *)
Theorem background_correction_stops_at_failed_fit (B : backend) (w : world)
        (self : TwoDim) (excluded_range : Q * Q) (deg : nat)
        (P : nat -> nat -> list Q) (ti0 pi0 : nat) (e : exn) :
  let ra := array_at w (probe_wn self) in
  let sa := array_at w (spec2d self) in
  let n := size (array_at w (t self)) in
  let m := size ra in
  let k := size (array_at w (pump_wn self)) in
  let wn_range :=
    map negb (inbetween (data ra) (fst excluded_range) (snd excluded_range)) in
  let xs := select wn_range (data ra) in
  dataset_ok w self ->
  ti0 < n -> pi0 < k ->
  (forall ti pi, pi < k -> ti < ti0 \/ (ti = ti0 /\ pi < pi0) ->
     polyfit B xs (select wn_range (column sa ti pi)) deg = Returns (P ti pi)) ->
  polyfit B xs (select wn_range (column sa ti0 pi0)) deg = Raises e ->
  exists w',
    background_correction B self excluded_range deg w = (Raises e, w')
    /\ length (arrays w') = length (arrays w)
    /\ fs w' = fs w
    /\ (forall r, r <> spec2d self -> array_at w' r = array_at w r)
    /\ (forall i j c, i < n -> j < m -> c < k ->
          get3 0%Q (array_at w' (spec2d self)) i j c
          = if (i <? ti0) || ((i =? ti0) && (c <? pi0))
            then Qred (get3 0%Q sa i j c - polyval (P i c) (nth j (data ra) 0%Q))
            else get3 0%Q sa i j c).
Proof.
  intros ra sa n m k wn_range xs Hok Hti0 Hpi0 Hbefore Hfails.
  destruct (background_correction_fails B w self excluded_range deg P Hok
              ti0 pi0 e Hti0 Hpi0 Hbefore Hfails)
    as (w' & Hrun & Hl & Hf & _ & Hr & _ & Hg).
  exists w'. repeat split; assumption.
Qed.

Lemma background_correction_stops_at_failed_fit_witness :
  exists w',
    background_correction failing_backend tilted_dataset (5#1, 6#1)%Q 0
                          tilted_world
    = (Raises (ValueError "SVD did not converge in Linear Least Squares"), w')
    /\ get3 0%Q (array_at w' 3) 0 0 0 = (-2#1)%Q
    /\ get3 0%Q (array_at w' 3) 0 1 1 = (-1#1)%Q.
Proof.
  destruct (background_correction_stops_at_failed_fit failing_backend
              tilted_world tilted_dataset (5#1, 6#1)%Q 0
              (fun _ _ => [1#1]%Q) 0 1
              (ValueError "SVD did not converge in Linear Least Squares"))
    as (w' & Hrun & _ & _ & _ & Hg).
  - unfold dataset_ok. vm_compute. repeat split; try reflexivity; lia.
  - vm_compute. lia.
  - vm_compute. lia.
  - intros ti pi Hpi [Hti|[-> Hlt]]; [lia|].
    destruct pi as [|pi]; [reflexivity | lia].
  - reflexivity.
  - exists w'. split; [exact Hrun|].
    split; rewrite (Hg 0 _ _) by (vm_compute; lia); reflexivity.
Defined.

(** ** The pump slice amplitude *)

Lemma np_max_ge_min (l : list Q) (hi lo : Q) :
  np_max l = Returns hi -> np_min l = Returns lo -> (lo <= hi)%Q.
Proof.
  intros Hhi Hlo.
  pose proof (np_max_above l hi Hhi) as H1.
  pose proof (np_min_below l lo Hlo) as H2.
  destruct l as [|x l]; [discriminate|].
  inversion H1; inversion H2; subst. lra.
Qed.

Lemma ptp_rows_returns (rows : list (list Q)) :
  Forall (fun r => r <> []) rows ->
  exists vs, ptp_rows rows = Returns vs
             /\ length vs = length rows
             /\ Forall (fun v => (0 <= v)%Q) vs.
Proof.
  induction 1 as [|r rows Hr _ (vs & Hvs & Hlen & Hpos)]; simpl.
  - exists []. auto.
  - unfold np_ptp.
    destruct (np_max r) as [hi|e] eqn:Ehi; [|destruct r; [congruence|discriminate]].
    destruct (np_min r) as [lo|e] eqn:Elo; [|destruct r; [congruence|discriminate]].
    cbn [obind]. rewrite Hvs. cbn [obind].
    eexists. split; [reflexivity|]. split; [simpl; congruence|].
    constructor; [|exact Hpos].
    rewrite Qred_correct. pose proof (np_max_ge_min r hi lo Ehi Elo). lra.
Qed.

Lemma item_last {A} (l : list A) (d : A) :
  l <> [] -> item (length l - 1) l = Returns (last l d).
Proof.
  intros H. unfold item.
  destruct (exists_last H) as (l' & x & ->).
  rewrite length_app, last_last. simpl.
  replace (length l' + 1 - 1) with (length l') by lia.
  rewrite nth_error_app2 by lia. now rewrite Nat.sub_diag.
Qed.

Lemma fold_Qmax2_in (l : list Q) (a : Q) : In (fold_left Qmax2 l a) (a :: l).
Proof.
  revert a. induction l as [|x l IH]; intros a; [now left|].
  cbn [fold_left]. destruct (IH (Qmax2 a x)) as [E|Hin].
  - rewrite <- E. unfold Qmax2. destruct (Qle_bool x a); [now left|].
    right. now left.
  - right. now right.
Qed.

Lemma fold_Qmin2_in (l : list Q) (a : Q) : In (fold_left Qmin2 l a) (a :: l).
Proof.
  revert a. induction l as [|x l IH]; intros a; [now left|].
  cbn [fold_left]. destruct (IH (Qmin2 a x)) as [E|Hin].
  - rewrite <- E. unfold Qmin2. destruct (Qle_bool a x); [now left|].
    right. now left.
  - right. now right.
Qed.

Lemma np_max_in (l : list Q) (hi : Q) : np_max l = Returns hi -> In hi l.
Proof.
  destruct l as [|x l]; [discriminate|]. simpl. intros H. injection H as <-.
  apply fold_Qmax2_in.
Qed.

Lemma np_min_in (l : list Q) (lo : Q) : np_min l = Returns lo -> In lo l.
Proof.
  destruct l as [|x l]; [discriminate|]. simpl. intros H. injection H as <-.
  apply fold_Qmin2_in.
Qed.

(** Each value of [np.ptp] is that of its own row. *)
Lemma ptp_rows_nth (rows : list (list Q)) (vs : list Q) (k : nat) :
  ptp_rows rows = Returns vs -> k < length rows ->
  np_ptp (nth k rows []) = Returns (nth k vs 0%Q).
Proof.
  revert vs k. induction rows as [|r rows IH]; intros vs k H Hk;
    [simpl in Hk; lia|].
  cbn [ptp_rows] in H.
  apply obind_inv in H as (v & Hv & H).
  apply obind_inv in H as (vs' & Hvs' & H).
  injection H as <-.
  destruct k as [|k]; cbn [nth]; [exact Hv|].
  apply IH; [exact Hvs' | simpl in Hk; lia].
Qed.

(** X14: on a dataset with at least one waiting time, probe value and
    pump value, [pump_slice_amp] returns a value for each pump position
    and leaves the store as it was.  Without the background correction
    the value at a pump position is the largest entry minus the smallest
    entry, along the probe axis, of the spectrum at the waiting time
    nearest to [t]; no value is negative.  With the correction, half the
    sum of the first and the last of these values has been subtracted
    from each: the first and the last value then sum to zero, and the
    values differ from each other as before. *)
Theorem pump_slice_amp_values (self : TwoDim) (t0 : Q) (w : world) :
  dataset_ok w self ->
  let ta := array_at w (t self) in
  let ra := array_at w (probe_wn self) in
  let pa := array_at w (pump_wn self) in
  let sa := array_at w (spec2d self) in
  0 < size ta -> 0 < size ra -> 0 < size pa ->
  exists ti raw corrected,
    fi (data ta) t0 = Returns ti
    /\ pump_slice_amp self t0 false w = (Returns raw, w)
    /\ pump_slice_amp self t0 true w = (Returns corrected, w)
    /\ length raw = size pa
    /\ length corrected = length raw
    /\ (forall k, k < size pa ->
          exists jmax jmin,
            jmax < size ra /\ jmin < size ra
            /\ (forall j, j < size ra ->
                  (get3 0%Q sa ti jmin k <= get3 0%Q sa ti j k)%Q
                  /\ (get3 0%Q sa ti j k <= get3 0%Q sa ti jmax k)%Q)
            /\ nth k raw 0%Q
               = Qred (get3 0%Q sa ti jmax k - get3 0%Q sa ti jmin k))
    /\ (forall k, k < size pa ->
          nth k corrected 0%Q
          = Qred (nth k raw 0%Q - (hd 0%Q raw + last raw 0%Q) / (2 # 1)))
    /\ Forall (fun v => (0 <= v)%Q) raw
    /\ (hd 0%Q corrected + last corrected 0%Q == 0)%Q
    /\ (forall i j, i < length raw -> j < length raw ->
          (nth i corrected 0 - nth j corrected 0
           == nth i raw 0 - nth j raw 0)%Q).
Proof.
  intros (Vt & Vp & Vr & Vs & Ht & Hp & Hr & Wsa & Hs) ta ra pa sa Nt Nr Np.
  fold ta ra pa sa in Ht, Hp, Hr, Wsa, Hs.
  destruct (fi_returns (data ta) t0) as [ti Hti].
  { rewrite (size_1d Ht) in Nt. destruct (data ta); [simpl in Nt; lia|discriminate]. }
  assert (Hd1 : dim_of 1 (shape sa) = size ra) by now rewrite Hs.
  assert (Hd2 : dim_of 2 (shape sa) = size pa) by now rewrite Hs.
  destruct (ptp_rows_returns (pump_rows sa ti)) as (raw & Hraw & Lraw & Hpos).
  { unfold pump_rows. rewrite Hd1, Hd2.
    apply Forall_forall. intros r Hin.
    apply in_map_iff in Hin as (c & <- & _).
    destruct (size ra); [lia | discriminate]. }
  assert (Lrows : length (pump_rows sa ti) = size pa).
  { unfold pump_rows. now rewrite length_map, length_seq. }
  assert (Lraw' : length raw = size pa) by congruence.
  assert (Hne : raw <> []) by (destruct raw; [simpl in Lraw'; lia | discriminate]).
  assert (Hdiag : (if dim_of 1 (shape sa) =? 0 then Raises (zero_size "maximum")
                   else ptp_rows (pump_rows sa ti)) = Returns raw).
  { replace (dim_of 1 (shape sa) =? 0) with false
      by (symmetry; apply Nat.eqb_neq; lia).
    exact Hraw. }
  set (mid := ((hd 0%Q raw + last raw 0%Q) / (2 # 1))%Q).
  exists ti, raw, (map (fun v => Qred (v - mid)) raw).
  split; [exact Hti|].
  split.
  { unfold pump_slice_amp.
    rewrite (bind_t_idx self t0 _ w ti) by exact Hti.
    step. fold sa.
    rewrite (@bind_lift_returns _ _ _ _ _ w Hdiag). reflexivity. }
  split.
  { unfold pump_slice_amp.
    rewrite (bind_t_idx self t0 _ w ti) by exact Hti.
    step. fold sa.
    rewrite (@bind_lift_returns _ _ _ _ _ w Hdiag).
    rewrite (@bind_lift_returns _ _ _ (hd 0%Q raw))
      by (destruct raw; [congruence | reflexivity]).
    rewrite (@bind_lift_returns _ _ _ (last raw 0%Q))
      by now apply item_last.
    reflexivity. }
  split; [exact Lraw'|].
  split; [apply length_map|].
  split.
  { intros k Hk.
    pose proof (ptp_rows_nth _ _ k Hraw) as Hptp.
    rewrite Lrows in Hptp. specialize (Hptp Hk).
    set (col := map (fun j => get3 0%Q sa ti j k) (seq 0 (size ra))).
    assert (Hrow : nth k (pump_rows sa ti) [] = col).
    { unfold pump_rows. rewrite Hd1, Hd2.
      rewrite (nth_indep _ [] (map (fun j => get3 0%Q sa ti j 0) (seq 0 (size ra))))
        by (now rewrite length_map, length_seq).
      rewrite (map_nth (fun c => map (fun j => get3 0%Q sa ti j c)
                                     (seq 0 (size ra)))).
      now rewrite seq_nth by assumption. }
    rewrite Hrow in Hptp. unfold np_ptp in Hptp.
    apply obind_inv in Hptp as (hi & Hhi & Hptp).
    apply obind_inv in Hptp as (lo & Hlo & Hptp).
    injection Hptp as Hv.
    pose proof (np_max_in _ _ Hhi) as Ihi.
    pose proof (np_min_in _ _ Hlo) as Ilo.
    apply in_map_iff in Ihi as (jmax & Ejmax & Hjmax).
    apply in_map_iff in Ilo as (jmin & Ejmin & Hjmin).
    apply in_seq in Hjmax, Hjmin.
    exists jmax, jmin.
    split; [lia|]. split; [lia|]. split.
    - intros j Hj.
      pose proof (np_max_above _ _ Hhi) as Ahi.
      pose proof (np_min_below _ _ Hlo) as Alo.
      rewrite Forall_forall in Ahi, Alo.
      assert (Hin : In (get3 0%Q sa ti j k) col).
      { apply in_map_iff. exists j. split; [reflexivity|]. apply in_seq. lia. }
      rewrite Ejmax, Ejmin. split; [now apply Alo | now apply Ahi].
    - rewrite Ejmax, Ejmin. now symmetry. }
  split.
  { intros k Hk.
    rewrite (nth_indep _ 0%Q (Qred (0 - mid)))
      by (rewrite length_map; lia).
    now rewrite (map_nth (fun v => Qred (v - mid))). }
  split; [exact Hpos|].
  split.
  { destruct (exists_last Hne) as (l' & x & El).
    assert (Hlast : last (map (fun v => Qred (v - mid)) raw) 0%Q
                    = Qred (last raw 0%Q - mid)).
    { rewrite El, map_app. cbn [map]. now rewrite !last_last. }
    rewrite Hlast.
    destruct raw as [|v raw']; [congruence|].
    cbn [map hd]. rewrite !Qred_correct. unfold mid. cbn [hd]. field. }
  intros i j Hi Hj.
  rewrite (nth_indep _ 0%Q (Qred (0 - mid))) by (now rewrite length_map).
  rewrite (nth_indep _ 0%Q (Qred (0 - mid)) (n := j)) by (now rewrite length_map).
  rewrite !(map_nth (fun v => Qred (v - mid))), !Qred_correct. ring.
Qed.

Lemma pump_slice_amp_values_witness :
  exists raw corrected,
    pump_slice_amp tilted_dataset 0%Q false tilted_world
    = (Returns raw, tilted_world)
    /\ pump_slice_amp tilted_dataset 0%Q true tilted_world
       = (Returns corrected, tilted_world)
    /\ Forall (fun v => (0 <= v)%Q) raw
    /\ (hd 0%Q corrected + last corrected 0%Q == 0)%Q.
Proof.
  destruct (pump_slice_amp_values tilted_dataset 0%Q tilted_world)
    as (ti & raw & corrected & _ & H1 & H2 & _ & _ & _ & _ & H3 & H4 & _).
  - unfold dataset_ok. vm_compute. repeat split; try reflexivity; lia.
  - vm_compute. lia.
  - vm_compute. lia.
  - vm_compute. lia.
  - exists raw, corrected. auto.
Defined.

(** ** Integrating a region *)

Lemma trapz_constant (y x : list Q) (c : Q) :
  Forall (fun v => (v == c)%Q) y -> length y = length x ->
  (trapz y x == c * (last x 0 - hd 0 x))%Q.
Proof.
  intros Hy. revert x. induction Hy as [|y0 y Hy0 Hy IH]; intros x Hlen.
  - destruct x; [|discriminate]. simpl. ring.
  - destruct x as [|x0 x]; [discriminate|]. injection Hlen as Hlen.
    destruct y as [|y1 y].
    + destruct x; [|discriminate]. simpl. ring.
    + destruct x as [|x1 x]; [discriminate|].
      change (trapz (y0 :: y1 :: y) (x0 :: x1 :: x))
        with (Qred ((x1 - x0) * (y0 + y1) / (2 # 1)
                    + trapz (y1 :: y) (x1 :: x))).
      rewrite Qred_correct, (IH (x1 :: x) Hlen).
      inversion Hy as [|? ? Hy1 _]; subst.
      change (last (x0 :: x1 :: x) 0%Q) with (last (x1 :: x) 0%Q).
      cbn [hd]. rewrite Hy0, Hy1. field.
Qed.

Lemma trapz_short (y x : list Q) : length x < 2 -> trapz y x = 0%Q.
Proof.
  intros H. destruct x as [|x0 [|x1 x]]; simpl in H; try lia;
    destruct y as [|y0 [|y1 y]]; reflexivity.
Qed.

Lemma trapz_short_y (y x : list Q) : length y < 2 -> trapz y x = 0%Q.
Proof.
  intros H. destruct y as [|y0 [|y1 y]]; simpl in H; try lia;
    destruct x as [|x0 [|x1 x]]; reflexivity.
Qed.

(** X15: on a dataset, [integrate_reg] returns one value for each
    waiting time and leaves the store as it was.  When fewer than two
    pump values or fewer than two probe values lie in their ranges,
    every value is zero.  When the data equals [v] wherever both
    coordinates lie in their ranges, every value is [v] times the
    distance from the first to the last pump value in range times the
    distance from the first to the last probe value in range. *)
Theorem integrate_reg_of_region (self : TwoDim) (pump_range : Q * Q)
        (probe_range : option (Q * Q)) (w : world) :
  dataset_ok w self ->
  let pa := array_at w (pump_wn self) in
  let ra := array_at w (probe_wn self) in
  let sa := array_at w (spec2d self) in
  let r := match probe_range with None => pump_range | Some r => r end in
  let pu := inbetween (data pa) (py_min pump_range) (py_max pump_range) in
  let pr := inbetween (data ra) (py_min r) (py_max r) in
  let xs := select pu (data pa) in
  let ys := select pr (data ra) in
  exists res,
    integrate_reg self pump_range probe_range w = (Returns res, w)
    /\ length res = size (array_at w (t self))
    /\ (length xs < 2 \/ length ys < 2 -> Forall (fun s => (s == 0)%Q) res)
    /\ (forall v,
          (forall i j c, i < size (array_at w (t self)) ->
                         In j (nonzero pr) -> In c (nonzero pu) ->
                         (get3 0%Q sa i j c == v)%Q) ->
          Forall (fun s => (s == v * (last xs 0 - hd 0 xs)
                                  * (last ys 0 - hd 0 ys))%Q) res).
Proof.
  intros (Vt & Vp & Vr & Vs & Ht & Hp & Hr & Wsa & Hs) pa ra sa r pu pr xs ys.
  fold pa ra sa in Hp, Hr, Wsa, Hs.
  set (n := size (array_at w (t self))) in *.
  set (J := nonzero pr). set (K := nonzero pu).
  assert (Lpu : length pu = length (data pa)) by apply inbetween_length.
  assert (Lpr : length pr = length (data ra)) by apply inbetween_length.
  assert (BJ : Forall (fun x => x < size ra) J).
  { rewrite (size_1d Hr), <- Lpr. apply nonzero_bound. }
  assert (BK : Forall (fun x => x < size pa) K).
  { rewrite (size_1d Hp), <- Lpu. apply nonzero_bound. }
  set (s1 := taken 1 J sa).
  set (s2 := taken 2 K s1).
  assert (Hs1 : shape s1 = [n; length J; size pa]).
  { unfold s1. now rewrite taken_shape, Hs. }
  assert (Hs2 : shape s2 = [n; length J; length K]).
  { unfold s2. now rewrite taken_shape, Hs1. }
  assert (LK : length K = length xs).
  { symmetry. apply (select_length pu (data pa) 0%Q Lpu). }
  assert (LJ : length J = length ys).
  { symmetry. apply (select_length pr (data ra) 0%Q Lpr). }
  assert (Hxs : compress_axis 0 pu pa = Returns (array1 xs)).
  { rewrite compress_ok.
    - rewrite <- take_axis_ok.
      + rewrite (@take_1d pa) by
          (try assumption; rewrite <- Lpu; apply nonzero_bound).
        unfold xs. now rewrite map_nth_nonzero.
      + rewrite Hp. simpl. lia.
      + rewrite Hp. unfold dim_of. simpl. rewrite <- Lpu. apply nonzero_bound.
    - rewrite Hp. simpl. lia.
    - rewrite Hp. unfold dim_of. simpl. exact Lpu. }
  assert (Hys : compress_axis 0 pr ra = Returns (array1 ys)).
  { rewrite compress_ok.
    - rewrite <- take_axis_ok.
      + rewrite (@take_1d ra) by
          (try assumption; rewrite <- Lpr; apply nonzero_bound).
        unfold ys. now rewrite map_nth_nonzero.
      + rewrite Hr. simpl. lia.
      + rewrite Hr. unfold dim_of. simpl. rewrite <- Lpr. apply nonzero_bound.
    - rewrite Hr. simpl. lia.
    - rewrite Hr. unfold dim_of. simpl. exact Lpr. }
  set (line := fun i j => map (fun c => get3 0%Q s2 i j c) (seq 0 (length K))).
  set (rows := fun i => map (fun j => trapz (line i j) xs) (seq 0 (length J))).
  exists (map (fun i => trapz (rows i) ys) (seq 0 n)).
  split.
  { unfold integrate_reg. fold r. step. fold ra pr.
    step. fold sa.
    rewrite (@bind_lift_returns _ _ _ s1).
    2:{ apply compress_ok; rewrite Hs; unfold dim_of; cbn [length nth];
          [lia | now rewrite (size_1d Hr)]. }
    step. fold pa pu.
    rewrite (@bind_lift_returns _ _ _ s2).
    2:{ apply compress_ok; rewrite Hs1; unfold dim_of; cbn [length nth];
          [lia | now rewrite (size_1d Hp)]. }
    rewrite (@bind_lift_returns _ _ _ _ _ w Hxs).
    rewrite (@bind_lift_returns _ _ _ _ _ w Hys).
    unfold ret, trapz_last_axis. rewrite Hs2. unfold dim_of.
    cbn [nth data array1]. rewrite map_map. reflexivity. }
  split; [now rewrite length_map, length_seq|].
  assert (Hline : forall i j c, i < n -> j < length J -> c < length K ->
            nth c (line i j) 0%Q
            = get3 0%Q sa i (nth j J 0) (nth c K 0)).
  { intros i j c Hi Hj Hc. unfold line.
    rewrite (nth_map_seq (fun c => get3 0%Q s2 i j c)) by assumption.
    unfold s2, s1.
    now apply (reindexed_get3_rows_first 0%Q sa n (size ra) (size pa)). }
  split.
  { intros Hshort. apply Forall_forall. intros s Hin.
    apply in_map_iff in Hin as (i & <- & Hi).
    destruct Hshort as [Hx|Hy].
    - assert (Hz : Forall (fun v => (v == 0)%Q) (rows i)).
      { apply Forall_forall. intros v Hv. unfold rows in Hv.
        apply in_map_iff in Hv as (j & <- & _).
        now rewrite trapz_short. }
      rewrite (trapz_constant (rows i) ys 0%Q Hz).
      + ring.
      + unfold rows. now rewrite length_map, length_seq.
    - now rewrite trapz_short. }
  intros v Hv. apply Forall_forall. intros s Hin.
  apply in_map_iff in Hin as (i & <- & Hi). apply in_seq in Hi.
  assert (Hrow : Forall (fun s => (s == v * (last xs 0 - hd 0 xs))%Q) (rows i)).
  { apply Forall_forall. intros s Hs'. unfold rows in Hs'.
    apply in_map_iff in Hs' as (j & <- & Hj). apply in_seq in Hj.
    apply trapz_constant.
    - apply Forall_forall. intros e He.
      destruct (In_nth _ _ 0%Q He) as (c & Hc & <-).
      unfold line in Hc. rewrite length_map, length_seq in Hc.
      rewrite Hline by lia.
      apply Hv; [lia | apply nth_In; lia | apply nth_In; lia].
    - unfold line. now rewrite length_map, length_seq. }
  rewrite (trapz_constant (rows i) ys _ Hrow).
  - reflexivity.
  - unfold rows. now rewrite length_map, length_seq.
Qed.

Lemma integrate_reg_of_region_witness :
  exists res,
    integrate_reg tilted_dataset (10#1, 12#1)%Q (Some (1#1, 3#1)%Q) tilted_world
    = (Returns res, tilted_world)
    /\ length res = 1.
Proof.
  destruct (integrate_reg_of_region tilted_dataset (10#1, 12#1)%Q
              (Some (1#1, 3#1)%Q) tilted_world)
    as (res & Hrun & Hlen & _).
  - unfold dataset_ok. vm_compute. repeat split; try reflexivity; lia.
  - exists res. split; [exact Hrun | exact Hlen].
Defined.

(** ** The bounds of a range in either order *)

Lemma Qle_bool_left (a b v : Q) : (a == b)%Q -> Qle_bool a v = Qle_bool b v.
Proof.
  intros H. destruct (Qle_bool b v) eqn:E.
  - apply Qle_bool_iff. apply Qle_bool_iff in E. lra.
  - destruct (Qle_bool a v) eqn:E'; [|reflexivity].
    apply Qle_bool_iff in E'.
    assert (Qle_bool b v = true) by (apply Qle_bool_iff; lra). congruence.
Qed.

Lemma Qle_bool_right (a b v : Q) : (a == b)%Q -> Qle_bool v a = Qle_bool v b.
Proof.
  intros H. destruct (Qle_bool v b) eqn:E.
  - apply Qle_bool_iff. apply Qle_bool_iff in E. lra.
  - destruct (Qle_bool v a) eqn:E'; [|reflexivity].
    apply Qle_bool_iff in E'.
    assert (Qle_bool v b = true) by (apply Qle_bool_iff; lra). congruence.
Qed.

Lemma py_min_swap (a b : Q) : (py_min (a, b) == py_min (b, a))%Q.
Proof.
  unfold py_min. cbn [fst snd].
  destruct (Qle_bool a b) eqn:E1, (Qle_bool b a) eqn:E2; try reflexivity.
  - apply Qle_bool_iff in E1, E2. lra.
  - assert (Hab : ~ (a <= b)%Q)
      by (intros Hle; apply Qle_bool_iff in Hle; congruence).
    assert (Hba : ~ (b <= a)%Q)
      by (intros Hle; apply Qle_bool_iff in Hle; congruence).
    lra.
Qed.

Lemma py_max_swap (a b : Q) : (py_max (a, b) == py_max (b, a))%Q.
Proof.
  unfold py_max. cbn [fst snd].
  destruct (Qle_bool b a) eqn:E1, (Qle_bool a b) eqn:E2; try reflexivity.
  - apply Qle_bool_iff in E1, E2. lra.
  - assert (Hab : ~ (a <= b)%Q)
      by (intros Hle; apply Qle_bool_iff in Hle; congruence).
    assert (Hba : ~ (b <= a)%Q)
      by (intros Hle; apply Qle_bool_iff in Hle; congruence).
    lra.
Qed.

Lemma inbetween_swap (l : list Q) (a b : Q) :
  inbetween l (py_min (a, b)) (py_max (a, b))
  = inbetween l (py_min (b, a)) (py_max (b, a)).
Proof.
  unfold inbetween. apply map_ext. intros v.
  now rewrite (Qle_bool_left _ _ v (py_min_swap a b)),
              (Qle_bool_right _ _ v (py_max_swap a b)).
Qed.

(** X16: [select_range] and [integrate_reg] take the smaller bound of a
    range for the lower one: with the bounds of either range exchanged
    they run to the same outcome and the same store. *)
Theorem ranges_in_either_order (self : TwoDim) (a b c d : Q) (invert : bool)
        (w : world) :
  select_range self (a, b) (c, d) invert w
  = select_range self (b, a) (d, c) invert w
  /\ integrate_reg self (a, b) (Some (c, d)) w
     = integrate_reg self (b, a) (Some (d, c)) w
  /\ integrate_reg self (a, b) None w = integrate_reg self (b, a) None w.
Proof.
  split; [|split].
  - unfold select_range. cbv beta iota zeta delta [bind deref lift].
    now rewrite !(inbetween_swap _ a b), !(inbetween_swap _ c d).
  - unfold integrate_reg. cbv beta iota zeta delta [bind deref lift].
    now rewrite !(inbetween_swap _ a b), !(inbetween_swap _ c d).
  - unfold integrate_reg. cbv beta iota zeta delta [bind deref lift].
    now rewrite !(inbetween_swap _ a b).
Qed.

(** ** The mode of [single_cls] *)

Lemma get3_negated (a : ndarray Q) (i j c : nat) :
  get3 0%Q (negated a) i j c = Qopp (get3 0%Q a i j c).
Proof.
  unfold get3, negated. cbn [shape data].
  change 0%Q with (Qopp 0%Q) at 1. apply map_nth.
Qed.

Lemma pump_rows_negated (a : ndarray Q) (ti : nat) :
  pump_rows (negated a) ti = map (map Qopp) (pump_rows a ti).
Proof.
  unfold pump_rows. cbn [negated shape]. rewrite map_map.
  apply map_ext. intros c. rewrite map_map. apply map_ext. intros j.
  apply get3_negated.
Qed.

Lemma Qopp_Qopp_eq (q : Q) : Qopp (Qopp q) = q.
Proof. destruct q as [n d]. unfold Qopp. cbn. now rewrite Z.opp_involutive. Qed.

Lemma pump_rows_negated_back (a : ndarray Q) (ti : nat) :
  map (map Qopp) (pump_rows (negated a) ti) = pump_rows a ti.
Proof.
  rewrite pump_rows_negated, map_map.
  rewrite <- (map_id (pump_rows a ti)) at 2.
  apply map_ext. intros r. rewrite map_map.
  rewrite <- (map_id r) at 2. apply map_ext. apply Qopp_Qopp_eq.
Qed.

(** What is located in one mode on the data is what is located in the
    other mode on the negated data. *)
Lemma locate_maxima_negated (B : backend) (pu pr : list Q) (sa : ndarray Q)
      (ti : nat) (pr_range pu_range : range_arg) (method : cls_method) :
  locate_maxima B pu pr (negated sa) ti pr_range pu_range neg method
  = locate_maxima B pu pr sa ti pr_range pu_range pos method
  /\ locate_maxima B pu pr (negated sa) ti pr_range pu_range pos method
     = locate_maxima B pu pr sa ti pr_range pu_range neg method.
Proof.
  unfold locate_maxima. cbn [negated shape].
  rewrite pump_rows_negated_back, pump_rows_negated. split; reflexivity.
Qed.

(** [single_cls] as a function of the arrays it reads. *)
Lemma single_cls_reads (B : backend) (self : TwoDim) (t0 : Q)
      (pr_range pu_range : range_arg) (mode : cls_mode) (method : cls_method)
      (w : world) :
  fst (single_cls B self t0 pr_range pu_range mode method w)
  = (ti <~ fi (data (array_at w (t self))) t0 ;
     located <~ locate_maxima B (data (array_at w (pump_wn self)))
                              (data (array_at w (probe_wn self)))
                              (array_at w (spec2d self)) ti
                              pr_range pu_range mode method ;
     yy <~ unpack_columns (snd located) ;
     r <~ cls_regression B (fst (fst located)) (fst yy) (snd yy) ;
     slope <~ item 0 (params r) ;
     let x := fst (fst located) in
     let center := snd (fst located) in
     let res := SingleCLSResult.mk (map (fun v => Qred (v + center)) x)
                                   (fst yy) (snd yy) slope r x (predict r) in
     Returns (res, mkTwoDim (t self) (pump_wn self) (probe_wn self)
                            (spec2d self) (Some res) (cls_result_ self)))%out.
Proof.
  unfold single_cls. do 2 step. unfold t_idx. unfold bind at 1. step.
  unfold lift at 1. cbn [fst snd].
  destruct (fi (data (array_at w (t self))) t0) as [ti|e]; [|reflexivity].
  cbn [obind]. step.
  destruct (locate_maxima _ _ _ _ _ _ _ _ _) as [located|e]; [|reflexivity].
  cbn [obind]. unfold bind at 1, lift at 1.
  destruct (unpack_columns (snd located)) as [yy|e]; [|reflexivity].
  cbn [obind]. unfold bind at 1, lift at 1.
  destruct (cls_regression _ _ _ _) as [r|e]; [|reflexivity].
  cbn [obind]. unfold bind at 1, lift at 1.
  destruct (item 0 (params r)) as [sl|e]; reflexivity.
Qed.

(** X17: on a dataset, [single_cls] with [mode='pos'] gives what it gives
    with [mode='neg'] once the data has been replaced by its negative,
    and the other way round: the same result or the same error. *)
Theorem single_cls_mode_is_a_sign (B : backend) (self : TwoDim) (t0 : Q)
        (pr_range pu_range : range_arg) (method : cls_method) (w : world) :
  dataset_ok w self ->
  let w_neg :=
    snd (store (spec2d self) (negated (array_at w (spec2d self))) w) in
  fst (single_cls B self t0 pr_range pu_range pos method w)
  = fst (single_cls B self t0 pr_range pu_range neg method w_neg)
  /\ fst (single_cls B self t0 pr_range pu_range neg method w)
     = fst (single_cls B self t0 pr_range pu_range pos method w_neg).
Proof.
  intros (Vt & Vp & Vr & Vs & Ht & Hp & Hr & Wsa & Hs) w_neg.
  assert (Nt : t self <> spec2d self).
  { intros E. rewrite <- E in Hs. unfold is_1d in Ht. rewrite Ht in Hs.
    discriminate. }
  assert (Np : pump_wn self <> spec2d self).
  { intros E. rewrite <- E in Hs. unfold is_1d in Hp. rewrite Hp in Hs.
    discriminate. }
  assert (Nr : probe_wn self <> spec2d self).
  { intros E. rewrite <- E in Hs. unfold is_1d in Hr. rewrite Hr in Hs.
    discriminate. }
  rewrite !single_cls_reads. unfold w_neg.
  rewrite !(array_at_store_other w (spec2d self)) by assumption.
  rewrite array_at_store_same by assumption.
  split.
  - destruct (fi _ t0) as [ti|e]; [|reflexivity]. cbn [obind].
    now rewrite (proj1 (locate_maxima_negated B _ _ _ ti pr_range pu_range method)).
  - destruct (fi _ t0) as [ti|e]; [|reflexivity]. cbn [obind].
    now rewrite (proj2 (locate_maxima_negated B _ _ _ ti pr_range pu_range method)).
Qed.

Lemma single_cls_mode_is_a_sign_witness :
  fst (single_cls example_backend tilted_dataset 0%Q (Half (9#1)%Q)
                  (Half (7#1)%Q) pos com tilted_world)
  = fst (single_cls example_backend tilted_dataset 0%Q (Half (9#1)%Q)
                    (Half (7#1)%Q) neg com
                    (snd (store 3 (negated (array_at tilted_world 3))
                                tilted_world))).
Proof.
  apply (single_cls_mode_is_a_sign example_backend tilted_dataset 0%Q
           (Half (9#1)%Q) (Half (7#1)%Q) com tilted_world).
  unfold dataset_ok. vm_compute. repeat split; try reflexivity; lia.
Defined.

(** ** From the slopes to their exponential fit *)



(** ** The weighting of the regression *)

Lemma locate_all_inv (B : backend) (method : cls_method)
      (pr_range : range_arg) (pr : list Q) (spec : list (list Q))
      (l : list (Q * fl)) :
  locate_all B method pr_range pr spec = Returns l ->
  Forall2 (fun s p => locate B method pr_range pr s = Returns p) spec l.
Proof.
  revert l. induction spec as [|s spec IH]; intros l H.
  - injection H as <-. constructor.
  - cbn [locate_all] in H.
    apply obind_inv in H as (p & Hp & H).
    apply obind_inv in H as (l' & Hl' & H).
    injection H as <-. constructor; [exact Hp | now apply IH].
Qed.

(** Where the error of a located position comes from: the standard
    error of the peak fit, not-a-number when the fit reports none, and 1
    for the methods that fit no peak. *)
Lemma locate_error (B : backend) (method : cls_method) (pr_range : range_arg)
      (pr s : list Q) (v : Q) (e : fl) :
  locate B method pr_range pr s = Returns (v, e) ->
  match method with
  | fit =>
      exists x d cen amp bounds stderr,
        gaussian_fit B false x d cen amp bounds = Returns (v, stderr)
        /\ e = match stderr with Some err => err | None => NaN end
  | skew_fit =>
      exists x d cen amp bounds stderr,
        gaussian_fit B true x d cen amp bounds = Returns (v, stderr)
        /\ e = match stderr with Some err => err | None => NaN end
  | com | quad | log_quad => e = Fin 1%Q
  end.
Proof.
  intros H. unfold locate in H.
  apply obind_inv in H as (m & _ & H).
  apply obind_inv in H as (cen & _ & H).
  destruct method.
  - injection H as _ <-. reflexivity.
  - apply obind_inv in H as (v' & _ & H). injection H as _ <-. reflexivity.
  - apply obind_inv in H as (lo & _ & H).
    apply obind_inv in H as (hi & _ & H).
    apply obind_inv in H as ([v' stderr] & Hfit & H).
    injection H as <- <-. eauto 8.
  - apply obind_inv in H as (v' & _ & H). injection H as _ <-. reflexivity.
  - apply obind_inv in H as ([v' stderr] & Hfit & H).
    injection H as <- <-. eauto 8.
Qed.

(** What [single_cls] has located: the pump window, the recentred pump
    values of the window, and a position with its error for each pump
    slice of the window. *)
Lemma locate_maxima_inv (B : backend) (pu pr : list Q) (sa : ndarray Q)
      (ti : nat) (pr_range pu_range : range_arg) (mode : cls_mode)
      (method : cls_method) (x : list Q) (center : Q) (l : list (Q * fl)) :
  locate_maxima B pu pr sa ti pr_range pu_range mode method
  = Returns (x, center, l) ->
  let spec := match mode with
              | pos => map (map Qopp) (pump_rows sa ti)
              | neg => pump_rows sa ti
              end in
  exists mins imax,
    row_minima spec = Returns mins
    /\ argmin mins = Returns imax
    /\ let pu_idx := match pu_range with
                     | Half width => around pu (nth imax pu 0%Q) width
                     | Bounds lower upper => inbetween pu lower upper
                     end in
       center = mean (select pu_idx pu)
       /\ x = map (fun v => Qred (v - center)) (select pu_idx pu)
       /\ Forall2 (fun s p => locate B method pr_range pr s = Returns p)
                  (select pu_idx spec) l.
Proof.
  intros H spec. unfold locate_maxima in H. fold spec in H.
  apply obind_inv in H as (mins & Hmins & H).
  apply obind_inv in H as (imax & Himax & H).
  apply obind_inv in H as (l' & Hl & H).
  assert (Hmins' : row_minima spec = Returns mins).
  { destruct (dim_of 1 (shape sa) =? 0); [discriminate | exact Hmins]. }
  exists mins, imax. split; [exact Hmins'|]. split; [exact Himax|].
  cbv zeta.
  match type of H with
  | Returns (?a, ?b, ?c) = _ =>
      assert (Hx : x = a) by congruence;
      assert (Hc : center = b) by congruence;
      assert (El : l = c) by congruence
  end.
  clear H. subst l. rewrite Hx, Hc.
  split; [reflexivity|]. split; [reflexivity|].
  now apply locate_all_inv.
Qed.

(** C6: the regression of [single_cls] takes what was located: the
    positions, the recentred pump values of the window with the column
    [add_constant] gives them, and the errors of the positions.  It is
    handed to the solver weighted, with weights [1 / error ** 2], exactly
    when every located error is finite; with an error that is not, it is
    the ordinary least-squares fit of the same data.  The outcome of the
    call is the outcome of that fit: the choice raises nothing, and a
    result that is returned holds these positions, errors and this
    regression.  The error of a position is the standard error of its
    peak fit, not-a-number when the fit reports none, and 1 for the
    methods without a peak fit, which are therefore always weighted. *)
Theorem single_cls_weighting (B : backend) (self : TwoDim) (t0 : Q)
        (pr_range pu_range : range_arg) (mode : cls_mode)
        (method : cls_method) (w : world)
        (ti : nat) (x : list Q) (center : Q) (l : list (Q * fl)) :
  let pu := data (array_at w (pump_wn self)) in
  let pr := data (array_at w (probe_wn self)) in
  let sa := array_at w (spec2d self) in
  let spec := match mode with
              | pos => map (map Qopp) (pump_rows sa ti)
              | neg => pump_rows sa ti
              end in
  fi (data (array_at w (t self))) t0 = Returns ti ->
  locate_maxima B pu pr sa ti pr_range pu_range mode method
  = Returns (x, center, l) ->
  l <> [] ->
  let y := map fst l in
  let yerr := map snd l in
  let used := if forallb isfinite yerr
              then WLS (map (fun e => fl_inv (fl_sq e)) yerr)
              else OLS in
  (exists mins imax,
     row_minima spec = Returns mins
     /\ argmin mins = Returns imax
     /\ let pu_idx := match pu_range with
                      | Half width => around pu (nth imax pu 0%Q) width
                      | Bounds lower upper => inbetween pu lower upper
                      end in
        center = mean (select pu_idx pu)
        /\ x = map (fun v => Qred (v - center)) (select pu_idx pu)
        /\ Forall2 (fun s p => locate B method pr_range pr s = Returns p)
                   (select pu_idx spec) l)
  /\ single_cls B self t0 pr_range pu_range mode method w
     = ((design <~ add_constant x ;
         nums <~ regress B (mkreg y design used) ;
         let r := mkregres (mkreg y design used)
                           (sol_params nums) (sol_bse nums) in
         slope <~ item 0 (params r) ;
         let res := SingleCLSResult.mk (map (fun v => Qred (v + center)) x)
                                       y yerr slope r x (predict r) in
         Returns (res, mkTwoDim (t self) (pump_wn self) (probe_wn self)
                                (spec2d self) (Some res) (cls_result_ self)))%out,
        w)
  /\ (Forall (fun e => isfinite e = true) yerr ->
      used = WLS (map (fun e => fl_inv (fl_sq e)) yerr))
  /\ (Exists (fun e => isfinite e = false) yerr -> used = OLS)
  /\ (forall res self' w',
        single_cls B self t0 pr_range pu_range mode method w
        = (Returns (res, self'), w') ->
        SingleCLSResult.recentered_pump_wn res = x
        /\ SingleCLSResult.max_pos res = y
        /\ SingleCLSResult.max_pos_err res = yerr
        /\ endog (model (SingleCLSResult.reg_result res)) = y
        /\ add_constant x
           = Returns (exog (model (SingleCLSResult.reg_result res)))
        /\ est (model (SingleCLSResult.reg_result res)) = used)
  /\ Forall (fun p =>
               match method with
               | fit =>
                   exists xs d cen amp bounds stderr,
                     gaussian_fit B false xs d cen amp bounds
                     = Returns (fst p, stderr)
                     /\ snd p = match stderr with
                                | Some err => err
                                | None => NaN
                                end
               | skew_fit =>
                   exists xs d cen amp bounds stderr,
                     gaussian_fit B true xs d cen amp bounds
                     = Returns (fst p, stderr)
                     /\ snd p = match stderr with
                                | Some err => err
                                | None => NaN
                                end
               | com | quad | log_quad =>
                   snd p = Fin 1%Q
                   /\ used = WLS (map (fun e => fl_inv (fl_sq e)) yerr)
               end) l.
Proof.
  intros pu pr sa spec Hti Hloc Hne y yerr used.
  pose proof (locate_maxima_inv _ _ _ _ _ _ _ _ _ _ _ _ Hloc) as Hinv.
  cbv zeta in Hinv. fold pu pr sa spec in Hinv.
  destruct Hinv as (mins & imax & Hmins & Himax & Hc & Hx & Hall).
  assert (Hrun : single_cls B self t0 pr_range pu_range mode method w
                 = ((design <~ add_constant x ;
                     nums <~ regress B (mkreg y design used) ;
                     let r := mkregres (mkreg y design used)
                                       (sol_params nums) (sol_bse nums) in
                     slope <~ item 0 (params r) ;
                     let res := SingleCLSResult.mk
                                  (map (fun v => Qred (v + center)) x)
                                  y yerr slope r x (predict r) in
                     Returns (res, mkTwoDim (t self) (pump_wn self)
                                            (probe_wn self) (spec2d self)
                                            (Some res) (cls_result_ self)))%out,
                    w)).
  { rewrite (surjective_pairing (single_cls _ _ _ _ _ _ _ w)).
    rewrite (reads_single_cls B self t0 pr_range pu_range mode method w).
    f_equal. rewrite single_cls_reads. fold pu pr sa.
    rewrite Hti. cbn [obind]. rewrite Hloc. cbn [obind fst snd].
    assert (Hun : unpack_columns l = Returns (y, yerr)).
    { destruct l; [congruence | reflexivity]. }
    rewrite Hun. cbn [obind fst snd].
    rewrite cls_regression_estimator. unfold estimator_for. fold used.
    destruct (add_constant x) as [design|e]; [|reflexivity]. cbn [obind].
    unfold fit_model.
    destruct (regress B (mkreg y design used)) as [nums|e]; reflexivity. }
  assert (Hfin : Forall (fun e => isfinite e = true) yerr ->
                 used = WLS (map (fun e => fl_inv (fl_sq e)) yerr)).
  { intros H. unfold used.
    replace (forallb isfinite yerr) with true; [reflexivity|].
    symmetry. apply forallb_forall. now apply Forall_forall. }
  split; [exists mins, imax; auto|].
  split; [exact Hrun|].
  split; [exact Hfin|].
  split.
  { intros H. unfold used.
    replace (forallb isfinite yerr) with false; [reflexivity|].
    symmetry. apply not_true_is_false. intros Hall'.
    apply Exists_exists in H as (e & He & Hfalse).
    rewrite forallb_forall in Hall'. rewrite (Hall' e He) in Hfalse.
    discriminate. }
  split.
  { intros res self' w' Hret. rewrite Hrun in Hret.
    destruct (add_constant x) as [design|e]; [|discriminate].
    cbn [obind] in Hret.
    destruct (regress B (mkreg y design used)) as [nums|e]; [|discriminate].
    cbn [obind] in Hret. cbv zeta in Hret.
    destruct (item 0 _) as [slope|e]; [|discriminate].
    cbn [obind] in Hret.
    match type of Hret with
    | (Returns (?r0, _), _) = _ => assert (Hres : res = r0) by congruence
    end.
    rewrite Hres. repeat split. }
  assert (Hlocs : forall p, In p l ->
            exists s, locate B method pr_range pr s = Returns p).
  { clear - Hall. intros p Hin.
    induction Hall as [|s q ss qs Hq _ IH]; [destruct Hin|].
    destruct Hin as [->|Hin]; [now exists s | now apply IH]. }
  assert (Hone : match method with
                 | com | quad | log_quad => True
                 | _ => False
                 end -> Forall (fun e => isfinite e = true) yerr).
  { intros Hm. apply Forall_forall. intros e He. unfold yerr in He.
    apply in_map_iff in He as ([v' e'] & <- & Hin').
    destruct (Hlocs _ Hin') as [s Hs]. apply locate_error in Hs.
    cbn [snd]. destruct method; try contradiction; now rewrite Hs. }
  apply Forall_forall. intros [v e] Hin.
  destruct (Hlocs _ Hin) as [s Hs].
  pose proof (locate_error _ _ _ _ _ _ _ Hs) as He.
  cbn [fst snd].
  destruct method; try exact He; (split; [exact He|]); apply Hfin, Hone;
    exact I.
Qed.

Lemma single_cls_weighting_witness :
  exists res self',
    single_cls example_backend tilted_dataset 0%Q (Half (9#1)%Q) (Half (7#1)%Q)
               neg fit tilted_world
    = (Returns (res, self'), tilted_world)
    /\ SingleCLSResult.max_pos_err res = [NaN; NaN; NaN]
    /\ est (model (SingleCLSResult.reg_result res)) = OLS.
Proof.
  destruct (single_cls_weighting example_backend tilted_dataset 0%Q
              (Half (9#1)%Q) (Half (7#1)%Q) neg fit tilted_world
              0 [-1#1; 0#1; 1#1]%Q (11#1)%Q
              [((1#1)%Q, NaN); ((2#1)%Q, NaN); ((3#1)%Q, NaN)])
    as (_ & Hrun & _ & Hols & Hret & _).
  - reflexivity.
  - vm_compute. reflexivity.
  - discriminate.
  - destruct silent_fit_run as (res & self' & w' & Hres & Herr).
    destruct (Hret res self' w' Hres) as (_ & _ & _ & _ & _ & Hest).
    assert (Hw : w' = tilted_world).
    { rewrite Hrun in Hres. now injection Hres as _ <-. }
    subst w'. exists res, self'.
    split; [exact Hres|]. split; [exact Herr|].
    rewrite Hest. reflexivity.
Defined.
